(** * FastStack: the engine of [fs.c] and the command-line parser of
      [engine/option.c], embedded as functions, with the properties stated
      about them.

    Layout: the numeric model, the data of [fs.h], the engine functions of
    [fs.c] in source order, the option parser, the reference definitions
    that follow the specification's wording, the concrete scenarios, and
    then the theorems. *)

From Stdlib Require Import ZArith List Bool Lia String Ascii.
From Stdlib Require Import SpecFloat.
Import ListNotations.
Local Open Scope Z_scope.

(** ** Numbers *)

(** [FSInt], [FSLong] and [FSBlock] are signed C integers; they are read
    on [Z].  Signed overflow is undefined in C and is not modelled. *)
Definition FSInt : Type := Z.
Definition FSLong : Type := Z.
Definition FSBlock : Type := Z.

(** [FSBits] is the unsigned word [clearLines] keeps its row flags in.  The
    comment in [clearLines] ("This limits the maximum field height to 32")
    fixes its width; a left shift drops the bits that leave the word. *)
Definition FSBits_width : Z := 32.

Definition FSBits_shl1 (v : Z) : Z := Z.shiftl v 1 mod 2 ^ FSBits_width.

(** C [float] is IEEE-754 binary32: 24 bits of precision, exponents below
    128, operations rounded to nearest-even.  [SpecFloat] provides the
    operations for any format; this module fixes the format. *)
Module Float32.

Definition prec : Z := 24.
Definition emax : Z := 128.

Definition float32 : Type := spec_float.

Definition zero : float32 := S754_zero false.

(** Conversion of an integer operand, as in [msPerTick * gravity]. *)
Definition of_int (z : Z) : float32 := binary_normalize prec emax z 0 false.

Definition add (a c : float32) : float32 := SFadd prec emax a c.
Definition mul (a c : float32) : float32 := SFmul prec emax a c.

(** [a >= c]; false as soon as one side is a NaN. *)
Definition ge (a c : float32) : bool := SFleb c a.

Definition is_finite (a : float32) : bool :=
  match a with
  | S754_zero _ | S754_finite _ _ _ => true
  | S754_infinity _ | S754_nan => false
  end.

(** The value [(-1)^s * m * 2^e] with its fractional part discarded,
    that is, rounded toward zero. *)
Definition trunc (a : float32) : Z :=
  match a with
  | S754_finite s m e => cond_Zopp s (Z.shiftl (Zpos m) e)
  | _ => 0
  end.

(** The range of [int] ([limits.h]); [int] is 32 bits wide on the
    platforms the engine is built for, and so is [FSInt]. *)
Definition INT_MIN : Z := - 2 ^ 31.
Definition INT_MAX : Z := 2 ^ 31 - 1.

(** The value is one the cast to [int] is defined for: neither a NaN nor
    an infinity, and, once its fractional part is discarded, within the
    range of [int]. *)
Definition fits_int (a : float32) : bool :=
  is_finite a && (INT_MIN <=? trunc a) && (trunc a <=? INT_MAX).

(** The cast [(int) a]: the value rounded toward zero.  C leaves the cast
    undefined for a NaN, for an infinity and for a value whose integral
    part is outside the range of [int]; the model yields [None] there. *)
Definition to_int (a : float32) : option Z :=
  if fits_int a then Some (trunc a) else None.

(** The mathematical floor, the greatest integer not above the value. *)
Definition floor (a : float32) : Z :=
  match a with
  | S754_finite s m e => Z.shiftl (cond_Zopp s (Zpos m)) e
  | _ => 0
  end.

(** The sign bit of a finite value is clear. *)
Definition nonneg (a : float32) : bool :=
  match a with
  | S754_zero _ => true
  | S754_finite s _ _ => negb s
  | _ => false
  end.

End Float32.

Abbreviation float32 := Float32.float32.

(** ** Data of [fs.h] *)

Record FSInt2 : Type := mkFSInt2 { i2_x : FSInt; i2_y : FSInt }.
Record FSInt3 : Type := mkFSInt3 { i3_x : FSInt; i3_y : FSInt; i3_z : FSInt }.

Inductive PieceType : Type :=
  FS_I | FS_J | FS_L | FS_O | FS_S | FS_T | FS_Z | FS_NONE.

Inductive LockStyle : Type := FSLOCK_ENTRY | FSLOCK_STEP | FSLOCK_MOVE.

Inductive GameState : Type :=
  | FSS_READY | FSS_GO | FSS_FALLING | FSS_LANDED | FSS_ARE
  | FSS_NEW_PIECE | FSS_LINES | FSS_QUIT | FSS_GAMEOVER | FSS_UNKNOWN.

(** [enum RotationAmount]. *)
Definition FSROT_CLOCKWISE : FSInt := 1.
Definition FSROT_ANTICLOCKWISE : FSInt := -1.
Definition FSROT_HALFTURN : FSInt := 2.

(** Number of rotation states and of blocks in a piece. *)
Definition FS_NPR : Z := 4.
Definition FS_NBP : nat := 4.

(** [WallkickTable]: [FS_NPR] rows of kick tests, indexed by rotation state
    and then by test number. *)
Definition WallkickTable : Type := FSInt -> FSInt -> FSInt3.

Record FSRotationSystem : Type := mkFSRotationSystem {
  entryOffset : PieceType -> FSInt;
  entryTheta : PieceType -> FSInt;
  kicksL : PieceType -> FSInt;
  kicksR : PieceType -> FSInt;
  kicksH : PieceType -> FSInt;
  kickTables : FSInt -> WallkickTable
}.

(** The per-tick input snapshot ([FSInput], declared in [fsControl.h]);
    [inputGravity] is its member [gravity]. *)
Record FSInput : Type := mkFSInput {
  rotation : FSInt;
  movement : FSInt;
  inputGravity : FSInt;
  extra : FSInt
}.

(** The randomizer's share of [FSGame]: its scratch buffer and index, the
    selected randomizer and its shadow, and the state of the process-wide
    generator that [srand]/[rand] keep. *)
Record RandState : Type := mkRandState {
  randomInternal : list FSBlock;
  randomInternalIndex : Z;
  randomizer : FSInt;
  lastRandomizer : FSInt;
  prng : Z
}.

(** [struct FSGame], restricted to the members that [fs.c] reads or writes.
    The field [b] is the array [b[FS_MAX_HEIGHT][FS_MAX_WIDTH]], read as a
    function of the row and then the column; the engine only addresses
    cells inside the [fieldHeight] x [fieldWidth] window. *)
Record FSGame : Type := mkFSGame {
  b : FSInt -> FSInt -> FSBlock;
  fieldWidth : FSInt;
  fieldHeight : FSInt;
  nextPiece : list PieceType;
  rand : RandState;
  piece : PieceType;
  x : FSInt;
  y : FSInt;
  actualY : float32;
  hardDropY : FSInt;
  theta : FSInt;
  finesse : FSLong;
  finessePieceDirection : FSLong;
  finessePieceRotation : FSLong;
  msPerTick : FSInt;
  areDelay : FSLong;
  areTimer : FSLong;
  totalTicks : FSLong;
  lockStyle : LockStyle;
  lockDelay : FSLong;
  lockTimer : FSLong;
  rotationSystem : FSInt;
  gravity : float32;
  state : GameState;
  lastInput : FSInput;
  holdAvailable : bool;
  holdPiece : PieceType;
  linesCleared : FSLong;
  blocksPlaced : FSLong;
  goal : FSLong
}.

Definition set_b (v : FSInt -> FSInt -> FSBlock) (f : FSGame) : FSGame :=
  {| b := v; fieldWidth := fieldWidth f; fieldHeight := fieldHeight f;
     nextPiece := nextPiece f; rand := rand f; piece := piece f; x := x f;
     y := y f; actualY := actualY f; hardDropY := hardDropY f;
     theta := theta f; finesse := finesse f;
     finessePieceDirection := finessePieceDirection f;
     finessePieceRotation := finessePieceRotation f;
     msPerTick := msPerTick f; areDelay := areDelay f;
     areTimer := areTimer f; totalTicks := totalTicks f;
     lockStyle := lockStyle f; lockDelay := lockDelay f;
     lockTimer := lockTimer f; rotationSystem := rotationSystem f;
     gravity := gravity f; state := state f; lastInput := lastInput f;
     holdAvailable := holdAvailable f; holdPiece := holdPiece f;
     linesCleared := linesCleared f; blocksPlaced := blocksPlaced f;
     goal := goal f |}.

Definition set_nextPiece (v : list PieceType) (f : FSGame) : FSGame :=
  {| b := b f; fieldWidth := fieldWidth f; fieldHeight := fieldHeight f;
     nextPiece := v; rand := rand f; piece := piece f; x := x f; y := y f;
     actualY := actualY f; hardDropY := hardDropY f; theta := theta f;
     finesse := finesse f; finessePieceDirection := finessePieceDirection f;
     finessePieceRotation := finessePieceRotation f;
     msPerTick := msPerTick f; areDelay := areDelay f;
     areTimer := areTimer f; totalTicks := totalTicks f;
     lockStyle := lockStyle f; lockDelay := lockDelay f;
     lockTimer := lockTimer f; rotationSystem := rotationSystem f;
     gravity := gravity f; state := state f; lastInput := lastInput f;
     holdAvailable := holdAvailable f; holdPiece := holdPiece f;
     linesCleared := linesCleared f; blocksPlaced := blocksPlaced f;
     goal := goal f |}.

Definition set_rand (v : RandState) (f : FSGame) : FSGame :=
  {| b := b f; fieldWidth := fieldWidth f; fieldHeight := fieldHeight f;
     nextPiece := nextPiece f; rand := v; piece := piece f; x := x f;
     y := y f; actualY := actualY f; hardDropY := hardDropY f;
     theta := theta f; finesse := finesse f;
     finessePieceDirection := finessePieceDirection f;
     finessePieceRotation := finessePieceRotation f;
     msPerTick := msPerTick f; areDelay := areDelay f;
     areTimer := areTimer f; totalTicks := totalTicks f;
     lockStyle := lockStyle f; lockDelay := lockDelay f;
     lockTimer := lockTimer f; rotationSystem := rotationSystem f;
     gravity := gravity f; state := state f; lastInput := lastInput f;
     holdAvailable := holdAvailable f; holdPiece := holdPiece f;
     linesCleared := linesCleared f; blocksPlaced := blocksPlaced f;
     goal := goal f |}.

Definition set_piece (v : PieceType) (f : FSGame) : FSGame :=
  {| b := b f; fieldWidth := fieldWidth f; fieldHeight := fieldHeight f;
     nextPiece := nextPiece f; rand := rand f; piece := v; x := x f;
     y := y f; actualY := actualY f; hardDropY := hardDropY f;
     theta := theta f; finesse := finesse f;
     finessePieceDirection := finessePieceDirection f;
     finessePieceRotation := finessePieceRotation f;
     msPerTick := msPerTick f; areDelay := areDelay f;
     areTimer := areTimer f; totalTicks := totalTicks f;
     lockStyle := lockStyle f; lockDelay := lockDelay f;
     lockTimer := lockTimer f; rotationSystem := rotationSystem f;
     gravity := gravity f; state := state f; lastInput := lastInput f;
     holdAvailable := holdAvailable f; holdPiece := holdPiece f;
     linesCleared := linesCleared f; blocksPlaced := blocksPlaced f;
     goal := goal f |}.

Definition set_x (v : FSInt) (f : FSGame) : FSGame :=
  {| b := b f; fieldWidth := fieldWidth f; fieldHeight := fieldHeight f;
     nextPiece := nextPiece f; rand := rand f; piece := piece f; x := v;
     y := y f; actualY := actualY f; hardDropY := hardDropY f;
     theta := theta f; finesse := finesse f;
     finessePieceDirection := finessePieceDirection f;
     finessePieceRotation := finessePieceRotation f;
     msPerTick := msPerTick f; areDelay := areDelay f;
     areTimer := areTimer f; totalTicks := totalTicks f;
     lockStyle := lockStyle f; lockDelay := lockDelay f;
     lockTimer := lockTimer f; rotationSystem := rotationSystem f;
     gravity := gravity f; state := state f; lastInput := lastInput f;
     holdAvailable := holdAvailable f; holdPiece := holdPiece f;
     linesCleared := linesCleared f; blocksPlaced := blocksPlaced f;
     goal := goal f |}.

Definition set_y (v : FSInt) (f : FSGame) : FSGame :=
  {| b := b f; fieldWidth := fieldWidth f; fieldHeight := fieldHeight f;
     nextPiece := nextPiece f; rand := rand f; piece := piece f; x := x f;
     y := v; actualY := actualY f; hardDropY := hardDropY f;
     theta := theta f; finesse := finesse f;
     finessePieceDirection := finessePieceDirection f;
     finessePieceRotation := finessePieceRotation f;
     msPerTick := msPerTick f; areDelay := areDelay f;
     areTimer := areTimer f; totalTicks := totalTicks f;
     lockStyle := lockStyle f; lockDelay := lockDelay f;
     lockTimer := lockTimer f; rotationSystem := rotationSystem f;
     gravity := gravity f; state := state f; lastInput := lastInput f;
     holdAvailable := holdAvailable f; holdPiece := holdPiece f;
     linesCleared := linesCleared f; blocksPlaced := blocksPlaced f;
     goal := goal f |}.

Definition set_actualY (v : float32) (f : FSGame) : FSGame :=
  {| b := b f; fieldWidth := fieldWidth f; fieldHeight := fieldHeight f;
     nextPiece := nextPiece f; rand := rand f; piece := piece f; x := x f;
     y := y f; actualY := v; hardDropY := hardDropY f; theta := theta f;
     finesse := finesse f; finessePieceDirection := finessePieceDirection f;
     finessePieceRotation := finessePieceRotation f;
     msPerTick := msPerTick f; areDelay := areDelay f;
     areTimer := areTimer f; totalTicks := totalTicks f;
     lockStyle := lockStyle f; lockDelay := lockDelay f;
     lockTimer := lockTimer f; rotationSystem := rotationSystem f;
     gravity := gravity f; state := state f; lastInput := lastInput f;
     holdAvailable := holdAvailable f; holdPiece := holdPiece f;
     linesCleared := linesCleared f; blocksPlaced := blocksPlaced f;
     goal := goal f |}.

Definition set_hardDropY (v : FSInt) (f : FSGame) : FSGame :=
  {| b := b f; fieldWidth := fieldWidth f; fieldHeight := fieldHeight f;
     nextPiece := nextPiece f; rand := rand f; piece := piece f; x := x f;
     y := y f; actualY := actualY f; hardDropY := v; theta := theta f;
     finesse := finesse f; finessePieceDirection := finessePieceDirection f;
     finessePieceRotation := finessePieceRotation f;
     msPerTick := msPerTick f; areDelay := areDelay f;
     areTimer := areTimer f; totalTicks := totalTicks f;
     lockStyle := lockStyle f; lockDelay := lockDelay f;
     lockTimer := lockTimer f; rotationSystem := rotationSystem f;
     gravity := gravity f; state := state f; lastInput := lastInput f;
     holdAvailable := holdAvailable f; holdPiece := holdPiece f;
     linesCleared := linesCleared f; blocksPlaced := blocksPlaced f;
     goal := goal f |}.

Definition set_theta (v : FSInt) (f : FSGame) : FSGame :=
  {| b := b f; fieldWidth := fieldWidth f; fieldHeight := fieldHeight f;
     nextPiece := nextPiece f; rand := rand f; piece := piece f; x := x f;
     y := y f; actualY := actualY f; hardDropY := hardDropY f; theta := v;
     finesse := finesse f; finessePieceDirection := finessePieceDirection f;
     finessePieceRotation := finessePieceRotation f;
     msPerTick := msPerTick f; areDelay := areDelay f;
     areTimer := areTimer f; totalTicks := totalTicks f;
     lockStyle := lockStyle f; lockDelay := lockDelay f;
     lockTimer := lockTimer f; rotationSystem := rotationSystem f;
     gravity := gravity f; state := state f; lastInput := lastInput f;
     holdAvailable := holdAvailable f; holdPiece := holdPiece f;
     linesCleared := linesCleared f; blocksPlaced := blocksPlaced f;
     goal := goal f |}.

Definition set_finesse (v : FSLong) (f : FSGame) : FSGame :=
  {| b := b f; fieldWidth := fieldWidth f; fieldHeight := fieldHeight f;
     nextPiece := nextPiece f; rand := rand f; piece := piece f; x := x f;
     y := y f; actualY := actualY f; hardDropY := hardDropY f;
     theta := theta f; finesse := v;
     finessePieceDirection := finessePieceDirection f;
     finessePieceRotation := finessePieceRotation f;
     msPerTick := msPerTick f; areDelay := areDelay f;
     areTimer := areTimer f; totalTicks := totalTicks f;
     lockStyle := lockStyle f; lockDelay := lockDelay f;
     lockTimer := lockTimer f; rotationSystem := rotationSystem f;
     gravity := gravity f; state := state f; lastInput := lastInput f;
     holdAvailable := holdAvailable f; holdPiece := holdPiece f;
     linesCleared := linesCleared f; blocksPlaced := blocksPlaced f;
     goal := goal f |}.

Definition set_finessePieceDirection (v : FSLong) (f : FSGame) : FSGame :=
  {| b := b f; fieldWidth := fieldWidth f; fieldHeight := fieldHeight f;
     nextPiece := nextPiece f; rand := rand f; piece := piece f; x := x f;
     y := y f; actualY := actualY f; hardDropY := hardDropY f;
     theta := theta f; finesse := finesse f; finessePieceDirection := v;
     finessePieceRotation := finessePieceRotation f;
     msPerTick := msPerTick f; areDelay := areDelay f;
     areTimer := areTimer f; totalTicks := totalTicks f;
     lockStyle := lockStyle f; lockDelay := lockDelay f;
     lockTimer := lockTimer f; rotationSystem := rotationSystem f;
     gravity := gravity f; state := state f; lastInput := lastInput f;
     holdAvailable := holdAvailable f; holdPiece := holdPiece f;
     linesCleared := linesCleared f; blocksPlaced := blocksPlaced f;
     goal := goal f |}.

Definition set_finessePieceRotation (v : FSLong) (f : FSGame) : FSGame :=
  {| b := b f; fieldWidth := fieldWidth f; fieldHeight := fieldHeight f;
     nextPiece := nextPiece f; rand := rand f; piece := piece f; x := x f;
     y := y f; actualY := actualY f; hardDropY := hardDropY f;
     theta := theta f; finesse := finesse f;
     finessePieceDirection := finessePieceDirection f;
     finessePieceRotation := v; msPerTick := msPerTick f;
     areDelay := areDelay f; areTimer := areTimer f;
     totalTicks := totalTicks f; lockStyle := lockStyle f;
     lockDelay := lockDelay f; lockTimer := lockTimer f;
     rotationSystem := rotationSystem f; gravity := gravity f;
     state := state f; lastInput := lastInput f;
     holdAvailable := holdAvailable f; holdPiece := holdPiece f;
     linesCleared := linesCleared f; blocksPlaced := blocksPlaced f;
     goal := goal f |}.

Definition set_areTimer (v : FSLong) (f : FSGame) : FSGame :=
  {| b := b f; fieldWidth := fieldWidth f; fieldHeight := fieldHeight f;
     nextPiece := nextPiece f; rand := rand f; piece := piece f; x := x f;
     y := y f; actualY := actualY f; hardDropY := hardDropY f;
     theta := theta f; finesse := finesse f;
     finessePieceDirection := finessePieceDirection f;
     finessePieceRotation := finessePieceRotation f;
     msPerTick := msPerTick f; areDelay := areDelay f; areTimer := v;
     totalTicks := totalTicks f; lockStyle := lockStyle f;
     lockDelay := lockDelay f; lockTimer := lockTimer f;
     rotationSystem := rotationSystem f; gravity := gravity f;
     state := state f; lastInput := lastInput f;
     holdAvailable := holdAvailable f; holdPiece := holdPiece f;
     linesCleared := linesCleared f; blocksPlaced := blocksPlaced f;
     goal := goal f |}.

Definition set_totalTicks (v : FSLong) (f : FSGame) : FSGame :=
  {| b := b f; fieldWidth := fieldWidth f; fieldHeight := fieldHeight f;
     nextPiece := nextPiece f; rand := rand f; piece := piece f; x := x f;
     y := y f; actualY := actualY f; hardDropY := hardDropY f;
     theta := theta f; finesse := finesse f;
     finessePieceDirection := finessePieceDirection f;
     finessePieceRotation := finessePieceRotation f;
     msPerTick := msPerTick f; areDelay := areDelay f;
     areTimer := areTimer f; totalTicks := v; lockStyle := lockStyle f;
     lockDelay := lockDelay f; lockTimer := lockTimer f;
     rotationSystem := rotationSystem f; gravity := gravity f;
     state := state f; lastInput := lastInput f;
     holdAvailable := holdAvailable f; holdPiece := holdPiece f;
     linesCleared := linesCleared f; blocksPlaced := blocksPlaced f;
     goal := goal f |}.

Definition set_lockTimer (v : FSLong) (f : FSGame) : FSGame :=
  {| b := b f; fieldWidth := fieldWidth f; fieldHeight := fieldHeight f;
     nextPiece := nextPiece f; rand := rand f; piece := piece f; x := x f;
     y := y f; actualY := actualY f; hardDropY := hardDropY f;
     theta := theta f; finesse := finesse f;
     finessePieceDirection := finessePieceDirection f;
     finessePieceRotation := finessePieceRotation f;
     msPerTick := msPerTick f; areDelay := areDelay f;
     areTimer := areTimer f; totalTicks := totalTicks f;
     lockStyle := lockStyle f; lockDelay := lockDelay f; lockTimer := v;
     rotationSystem := rotationSystem f; gravity := gravity f;
     state := state f; lastInput := lastInput f;
     holdAvailable := holdAvailable f; holdPiece := holdPiece f;
     linesCleared := linesCleared f; blocksPlaced := blocksPlaced f;
     goal := goal f |}.

Definition set_state (v : GameState) (f : FSGame) : FSGame :=
  {| b := b f; fieldWidth := fieldWidth f; fieldHeight := fieldHeight f;
     nextPiece := nextPiece f; rand := rand f; piece := piece f; x := x f;
     y := y f; actualY := actualY f; hardDropY := hardDropY f;
     theta := theta f; finesse := finesse f;
     finessePieceDirection := finessePieceDirection f;
     finessePieceRotation := finessePieceRotation f;
     msPerTick := msPerTick f; areDelay := areDelay f;
     areTimer := areTimer f; totalTicks := totalTicks f;
     lockStyle := lockStyle f; lockDelay := lockDelay f;
     lockTimer := lockTimer f; rotationSystem := rotationSystem f;
     gravity := gravity f; state := v; lastInput := lastInput f;
     holdAvailable := holdAvailable f; holdPiece := holdPiece f;
     linesCleared := linesCleared f; blocksPlaced := blocksPlaced f;
     goal := goal f |}.

Definition set_lastInput (v : FSInput) (f : FSGame) : FSGame :=
  {| b := b f; fieldWidth := fieldWidth f; fieldHeight := fieldHeight f;
     nextPiece := nextPiece f; rand := rand f; piece := piece f; x := x f;
     y := y f; actualY := actualY f; hardDropY := hardDropY f;
     theta := theta f; finesse := finesse f;
     finessePieceDirection := finessePieceDirection f;
     finessePieceRotation := finessePieceRotation f;
     msPerTick := msPerTick f; areDelay := areDelay f;
     areTimer := areTimer f; totalTicks := totalTicks f;
     lockStyle := lockStyle f; lockDelay := lockDelay f;
     lockTimer := lockTimer f; rotationSystem := rotationSystem f;
     gravity := gravity f; state := state f; lastInput := v;
     holdAvailable := holdAvailable f; holdPiece := holdPiece f;
     linesCleared := linesCleared f; blocksPlaced := blocksPlaced f;
     goal := goal f |}.

Definition set_holdAvailable (v : bool) (f : FSGame) : FSGame :=
  {| b := b f; fieldWidth := fieldWidth f; fieldHeight := fieldHeight f;
     nextPiece := nextPiece f; rand := rand f; piece := piece f; x := x f;
     y := y f; actualY := actualY f; hardDropY := hardDropY f;
     theta := theta f; finesse := finesse f;
     finessePieceDirection := finessePieceDirection f;
     finessePieceRotation := finessePieceRotation f;
     msPerTick := msPerTick f; areDelay := areDelay f;
     areTimer := areTimer f; totalTicks := totalTicks f;
     lockStyle := lockStyle f; lockDelay := lockDelay f;
     lockTimer := lockTimer f; rotationSystem := rotationSystem f;
     gravity := gravity f; state := state f; lastInput := lastInput f;
     holdAvailable := v; holdPiece := holdPiece f;
     linesCleared := linesCleared f; blocksPlaced := blocksPlaced f;
     goal := goal f |}.

Definition set_holdPiece (v : PieceType) (f : FSGame) : FSGame :=
  {| b := b f; fieldWidth := fieldWidth f; fieldHeight := fieldHeight f;
     nextPiece := nextPiece f; rand := rand f; piece := piece f; x := x f;
     y := y f; actualY := actualY f; hardDropY := hardDropY f;
     theta := theta f; finesse := finesse f;
     finessePieceDirection := finessePieceDirection f;
     finessePieceRotation := finessePieceRotation f;
     msPerTick := msPerTick f; areDelay := areDelay f;
     areTimer := areTimer f; totalTicks := totalTicks f;
     lockStyle := lockStyle f; lockDelay := lockDelay f;
     lockTimer := lockTimer f; rotationSystem := rotationSystem f;
     gravity := gravity f; state := state f; lastInput := lastInput f;
     holdAvailable := holdAvailable f; holdPiece := v;
     linesCleared := linesCleared f; blocksPlaced := blocksPlaced f;
     goal := goal f |}.

Definition set_linesCleared (v : FSLong) (f : FSGame) : FSGame :=
  {| b := b f; fieldWidth := fieldWidth f; fieldHeight := fieldHeight f;
     nextPiece := nextPiece f; rand := rand f; piece := piece f; x := x f;
     y := y f; actualY := actualY f; hardDropY := hardDropY f;
     theta := theta f; finesse := finesse f;
     finessePieceDirection := finessePieceDirection f;
     finessePieceRotation := finessePieceRotation f;
     msPerTick := msPerTick f; areDelay := areDelay f;
     areTimer := areTimer f; totalTicks := totalTicks f;
     lockStyle := lockStyle f; lockDelay := lockDelay f;
     lockTimer := lockTimer f; rotationSystem := rotationSystem f;
     gravity := gravity f; state := state f; lastInput := lastInput f;
     holdAvailable := holdAvailable f; holdPiece := holdPiece f;
     linesCleared := v; blocksPlaced := blocksPlaced f; goal := goal f |}.

Definition set_blocksPlaced (v : FSLong) (f : FSGame) : FSGame :=
  {| b := b f; fieldWidth := fieldWidth f; fieldHeight := fieldHeight f;
     nextPiece := nextPiece f; rand := rand f; piece := piece f; x := x f;
     y := y f; actualY := actualY f; hardDropY := hardDropY f;
     theta := theta f; finesse := finesse f;
     finessePieceDirection := finessePieceDirection f;
     finessePieceRotation := finessePieceRotation f;
     msPerTick := msPerTick f; areDelay := areDelay f;
     areTimer := areTimer f; totalTicks := totalTicks f;
     lockStyle := lockStyle f; lockDelay := lockDelay f;
     lockTimer := lockTimer f; rotationSystem := rotationSystem f;
     gravity := gravity f; state := state f; lastInput := lastInput f;
     holdAvailable := holdAvailable f; holdPiece := holdPiece f;
     linesCleared := linesCleared f; blocksPlaced := v; goal := goal f |}.

(** ** What [fs.c] links against

    [fs.c] declares these and leaves their definition to files that are
    not part of the sources at hand ([fsTables.c], [fsRand.c],
    [fsInternal.h], [fsControl.h]); they are taken as an interface. *)
Class Externs : Type := mkExterns {
  (** [extern const FSRotationSystem *rotationSystems[FS_NRS]] *)
  rotationSystems : FSInt -> FSRotationSystem;
  (** [extern const WallkickTable emptyWallkickTable] *)
  emptyWallkickTable : WallkickTable;
  (** length of a kick-table row, and the flag that ends a row early *)
  FS_MAX_KICK_LEN : nat;
  WK_END : FSInt;
  (** [FSBlock fsNextRandomPiece(FSGame *f)]; per the specification the
      randomizer owns only its scratch state *)
  fsNextRandomPiece : RandState -> PieceType * RandState;
  (** bits of [FSInput.extra] *)
  FSI_HOLD : FSInt;
  FSI_HARD_DROP : FSInt;
  FSI_FINESSE_DIRECTION : FSInt;
  FSI_FINESSE_ROTATION : FSInt;
  (** capacity of the preview queue ([fsConfig.h]) *)
  FS_PREVIEW_MAX : nat
}.

(** ** Static tables of [fs.c] *)

Local Notation "<< a , c >>" := (mkFSInt2 a c) (at level 0).

(** [pieceOffsets[FS_NPT][FS_NPR][FS_NBP]].  The table has no row for
    [FS_NONE] (index 7 is past its end). *)
Definition pieceOffsets (p : PieceType) : list (list FSInt2) :=
  match p with
  | FS_I => [ [<<0, 1>>; <<1, 1>>; <<2, 1>>; <<3, 1>>];
              [<<2, 0>>; <<2, 1>>; <<2, 2>>; <<2, 3>>];
              [<<0, 2>>; <<1, 2>>; <<2, 2>>; <<3, 2>>];
              [<<1, 0>>; <<1, 1>>; <<1, 2>>; <<1, 3>>] ]
  | FS_J => [ [<<0, 0>>; <<0, 1>>; <<1, 1>>; <<2, 1>>];
              [<<1, 0>>; <<1, 1>>; <<1, 2>>; <<2, 0>>];
              [<<0, 1>>; <<1, 1>>; <<2, 1>>; <<2, 2>>];
              [<<0, 2>>; <<1, 0>>; <<1, 1>>; <<1, 2>>] ]
  | FS_L => [ [<<0, 1>>; <<1, 1>>; <<2, 0>>; <<2, 1>>];
              [<<1, 0>>; <<1, 1>>; <<1, 2>>; <<2, 2>>];
              [<<0, 1>>; <<0, 2>>; <<1, 1>>; <<2, 1>>];
              [<<0, 0>>; <<1, 0>>; <<1, 1>>; <<1, 2>>] ]
  | FS_O => [ [<<1, 0>>; <<1, 1>>; <<2, 0>>; <<2, 1>>];
              [<<1, 0>>; <<1, 1>>; <<2, 0>>; <<2, 1>>];
              [<<1, 0>>; <<1, 1>>; <<2, 0>>; <<2, 1>>];
              [<<1, 0>>; <<1, 1>>; <<2, 0>>; <<2, 1>>] ]
  | FS_S => [ [<<0, 1>>; <<1, 0>>; <<1, 1>>; <<2, 0>>];
              [<<1, 0>>; <<1, 1>>; <<2, 1>>; <<2, 2>>];
              [<<0, 2>>; <<1, 1>>; <<1, 2>>; <<2, 1>>];
              [<<0, 0>>; <<0, 1>>; <<1, 1>>; <<1, 2>>] ]
  | FS_T => [ [<<0, 1>>; <<1, 0>>; <<1, 1>>; <<2, 1>>];
              [<<1, 0>>; <<1, 1>>; <<1, 2>>; <<2, 1>>];
              [<<0, 1>>; <<1, 1>>; <<1, 2>>; <<2, 1>>];
              [<<0, 1>>; <<1, 0>>; <<1, 1>>; <<1, 2>>] ]
  | FS_Z => [ [<<0, 0>>; <<1, 0>>; <<1, 1>>; <<2, 1>>];
              [<<1, 1>>; <<1, 2>>; <<2, 0>>; <<2, 1>>];
              [<<0, 1>>; <<1, 1>>; <<1, 2>>; <<2, 2>>];
              [<<0, 1>>; <<0, 2>>; <<1, 0>>; <<1, 1>>] ]
  | FS_NONE => []
  end.

(** [pieceColors[7]]: the value stored in a cell.  No entry for [FS_NONE]. *)
Definition pieceColors (p : PieceType) : FSInt :=
  match p with
  | FS_I => 16 | FS_J => 32 | FS_L => 48 | FS_O => 64
  | FS_S => 80 | FS_T => 96 | FS_Z => 112
  | FS_NONE => 0
  end.

(** ** The engine, [fs.c] *)

Section Engine.

Context {E : Externs}.

(** [fsPieceToBlocks]: the four cells of [p] at [(px, py)] in rotation
    [th], the rotation system's entry rotation added modulo 4. *)
Definition fsPieceToBlocks (f : FSGame) (p : PieceType) (px py th : FSInt)
  : list FSInt2 :=
  let rs := rotationSystems (rotationSystem f) in
  let calcTheta := Z.land (th + entryTheta rs p) 3 in
  map (fun o => << i2_x o + px, i2_y o + py >>)
      (nth (Z.to_nat calcTheta) (pieceOffsets p) []).

(** [isOccupied]. *)
Definition isOccupied (f : FSGame) (cx cy : FSInt) : bool :=
  if (cx <? 0) || (cx >=? fieldWidth f) || (cy <? 0) || (cy >=? fieldHeight f)
  then true
  else b f cy cx >? 1.

(** [isCollision]: the loop returns at the first occupied block. *)
Definition isCollision (f : FSGame) (px py th : FSInt) : bool :=
  existsb (fun blk => isOccupied f (i2_x blk) (i2_y blk))
          (fsPieceToBlocks f (piece f) px py th).

(** One store [b[cy][cx] = v]. *)
Definition setCell (bf : FSInt -> FSInt -> FSBlock) (cy cx : FSInt)
  (v : FSBlock) : FSInt -> FSInt -> FSBlock :=
  fun r c => if (r =? cy) && (c =? cx) then v else bf r c.

(** [fLook] of [lockPiece]: rotations needed to reach each state. *)
Definition fLook (th : FSInt) : Z := nth (Z.to_nat th) [0; 1; 2; 1] 0.

(** [lockPiece]: write the piece into the field, count it, and add the
    wasted key presses to [finesse]. *)
Definition lockPiece (f : FSGame) : FSGame :=
  let blocks := fsPieceToBlocks f (piece f) (x f) (y f) (theta f) in
  let f := set_blocksPlaced (blocksPlaced f + 1) f in
  let f :=
    set_b (fold_left
             (fun bf blk =>
                setCell bf (i2_y blk) (i2_x blk) (pieceColors (piece f)))
             blocks (b f)) f in
  let wastedDirection :=
    if finessePieceDirection f >? 2 then finessePieceDirection f - 2 else 0 in
  let wastedRotation :=
    match piece f with
    | FS_O =>
        if finessePieceRotation f >? fLook (theta f)
        then finessePieceRotation f - fLook (theta f)
        else 0
    | _ => finessePieceRotation f
    end in
  set_finesse (finesse f + (wastedDirection + wastedRotation)) f.

(** The [memcpy] of [newPiece]: every slot but the last takes the value of
    its successor ([FSBlock] being one byte wide, [FS_PREVIEW_MAX - 1]
    bytes are [FS_PREVIEW_MAX - 1] slots). *)
Definition shiftQueue (q : list PieceType) : list PieceType :=
  match q with
  | [] => []
  | _ :: t => t ++ [last q FS_NONE]
  end.

(** [nextPiece[FS_PREVIEW_MAX - 1] = p]. *)
Definition setLastSlot (p : PieceType) (q : list PieceType) : list PieceType :=
  match q with
  | [] => []
  | _ :: _ => removelast q ++ [p]
  end.

(** [newPiece]: spawn the head of the preview queue. *)
Definition newPiece (f : FSGame) : FSGame :=
  let f := set_x (fieldWidth f ÷ 2 - 1) f in
  let f := set_y 0 f in
  let f := set_actualY Float32.zero f in
  let f := set_theta 0 f in
  let f := set_lockTimer 0 f in
  let f := set_finessePieceRotation 0 f in
  let f := set_finessePieceDirection 0 f in
  let f := set_piece (hd FS_NONE (nextPiece f)) f in
  let f := set_nextPiece (shiftQueue (nextPiece f)) f in
  let '(p, r) := fsNextRandomPiece (rand f) in
  let f := set_rand r f in
  let f := set_nextPiece (setLastSlot p (nextPiece f)) f in
  set_holdAvailable true f.

(** The kick loop of [doRotate], [n] tests left and [k] the next one. *)
Fixpoint kickLoop (n : nat) (k : FSInt) (f : FSGame) (table : WallkickTable)
  (newDir : FSInt) : bool * FSGame :=
  match n with
  | O => (false, f)
  | S n' =>
      let kickData := table (theta f) k in
      if i3_z kickData =? WK_END then (false, f)
      else
        let kickX := i3_x kickData + x f in
        let kickY := i3_y kickData + y f in
        if negb (isCollision f kickX kickY newDir)
        then (true, set_theta newDir (set_x kickX (set_y kickY f)))
        else kickLoop n' (k + 1) f table newDir
  end.

(** [doRotate]: [None] is the [abort()] of the [default] branch. *)
Definition doRotate (f : FSGame) (direction : FSInt) : option (bool * FSGame) :=
  let newDir := Z.land (theta f + 4 + direction) 3 in
  let rs := rotationSystems (rotationSystem f) in
  let tableNo :=
    if direction =? FSROT_CLOCKWISE then Some (kicksR rs (piece f))
    else if direction =? FSROT_ANTICLOCKWISE then Some (kicksL rs (piece f))
    else if direction =? FSROT_HALFTURN then Some (kicksH rs (piece f))
    else None in
  match tableNo with
  | None => None
  | Some t =>
      let table := if t >=? 0 then kickTables rs t else emptyWallkickTable in
      Some (kickLoop FS_MAX_KICK_LEN 0 f table newDir)
  end.

(** [doPieceGravity]; [None] when one of the casts [(int) f->actualY] is
    evaluated on a value it is not defined for. *)
Definition doPieceGravity (f : FSGame) (g : FSInt) : option FSGame :=
  let f :=
    set_actualY
      (Float32.add (actualY f)
         (Float32.add (Float32.mul (Float32.of_int (msPerTick f)) (gravity f))
                      (Float32.of_int g))) f in
  if Float32.ge (actualY f) (Float32.of_int (hardDropY f)) then
    let f := set_actualY (Float32.of_int (hardDropY f)) f in
    let f := set_y (hardDropY f) f in
    Some (match state f with
          | FSS_FALLING => set_state FSS_LANDED f
          | _ => f
          end)
  else
    let reset :=
      match lockStyle f with
      | FSLOCK_STEP | FSLOCK_MOVE =>
          match Float32.to_int (actualY f) with
          | Some row => Some (if row >? y f then set_lockTimer 0 f else f)
          | None => None
          end
      | FSLOCK_ENTRY => Some f
      end in
    match reset with
    | Some f =>
        match Float32.to_int (actualY f) with
        | Some row => Some (set_state FSS_FALLING (set_y row f))
        | None => None
        end
    | None => None
    end.

(** First pass of [clearLines], inner loop: is every cell of row [cy]
    from column [cx] on, [n] columns, different from 0? *)
Fixpoint rowFilled (n : nat) (cx : FSInt) (bf : FSInt -> FSInt -> FSBlock)
  (cy : FSInt) : bool :=
  match n with
  | O => true
  | S n' => if bf cy cx =? 0 then false else rowFilled n' (cx + 1) bf cy
  end.

(** First pass, outer loop over the rows [cy], [cy + 1], ...: the flags
    and the count of filled rows. *)
Fixpoint scanRows (n : nat) (cy : FSInt) (bf : FSInt -> FSInt -> FSBlock)
  (w : FSInt) (foundLines filledLineCount : Z) : Z * Z :=
  match n with
  | O => (foundLines, filledLineCount)
  | S n' =>
      if rowFilled (Z.to_nat w) 0 bf cy
      then scanRows n' (cy + 1) bf w (FSBits_shl1 (Z.lor foundLines 1))
                    (filledLineCount + 1)
      else scanRows n' (cy + 1) bf w (FSBits_shl1 foundLines) filledLineCount
  end.

(** [memcpy(b[dst], b[src], sizeof(FSBlock) * w)]. *)
Definition memcpyRow (bf : FSInt -> FSInt -> FSBlock) (dst src w : FSInt)
  : FSInt -> FSInt -> FSBlock :=
  fun r c => if (r =? dst) && (0 <=? c) && (c <? w) then bf src c else bf r c.

(** [memset(b[r0], 0, sizeof(FSBlock) * w)]. *)
Definition memsetRow (bf : FSInt -> FSInt -> FSBlock) (r0 w : FSInt)
  : FSInt -> FSInt -> FSBlock :=
  fun r c => if (r =? r0) && (0 <=? c) && (c <? w) then 0 else bf r c.

(** Second pass: [src] runs down to 0 ([n = src + 1] rows left), flagged
    rows are skipped, the others are copied to [dst]. *)
Fixpoint copyRows (n : nat) (src dst : FSInt) (foundLines : Z) (w : FSInt)
  (bf : FSInt -> FSInt -> FSBlock) : FSInt -> FSInt -> FSBlock :=
  match n with
  | O => bf
  | S n' =>
      if negb (Z.land foundLines 1 =? 0)
      then copyRows n' (src - 1) dst (Z.shiftr foundLines 1) w bf
      else
        let bf' := if negb (src =? dst) then memcpyRow bf dst src w else bf in
        copyRows n' (src - 1) (dst - 1) (Z.shiftr foundLines 1) w bf'
  end.

(** Third pass: clear the rows [i], [i + 1], ... *)
Fixpoint zeroRows (n : nat) (i : FSInt) (w : FSInt)
  (bf : FSInt -> FSInt -> FSBlock) : FSInt -> FSInt -> FSBlock :=
  match n with
  | O => bf
  | S n' => zeroRows n' (i + 1) w (memsetRow bf i w)
  end.

(** [clearLines]: the number of filled rows and the game with its field
    compacted. *)
Definition clearLines (f : FSGame) : FSInt * FSGame :=
  let scan := scanRows (Z.to_nat (fieldHeight f)) 0 (b f) (fieldWidth f) 0 0 in
  let filledLineCount := snd scan in
  let foundLines := Z.shiftr (fst scan) 1 in
  let dst := fieldHeight f - 1 in
  let bf :=
    copyRows (Z.to_nat (dst + 1)) dst dst foundLines (fieldWidth f) (b f) in
  let bf := zeroRows (Z.to_nat filledLineCount) 0 (fieldWidth f) bf in
  (filledLineCount, set_b bf f).

(** The [while] loop of [updateHardDropY], [fuel] iterations at most. *)
Fixpoint hardDropProbe (fuel : nat) (f : FSGame) (py : FSInt) : FSInt :=
  match fuel with
  | O => py
  | S n => if isCollision f (x f) py (theta f) then py
           else hardDropProbe n f (py + 1)
  end.

(** [updateHardDropY].  A piece collides on every row from [fieldHeight]
    on, so [fieldHeight - y] iterations reach the loop's exit
    ([hardDropProbe_exit] below). *)
Definition updateHardDropY (f : FSGame) : FSGame :=
  let py := hardDropProbe (Z.to_nat (fieldHeight f - y f)) f (y f) in
  set_hardDropY (py - 1) f.

(** Modelled from the spec: the macro [TICKS] of [fsInternal.h], which is
    not part of the sources; "ticks(ms) = ms / msPerTick", the division
    being C's, which truncates.  A division by zero is undefined in C
    ([Z.quot] yields 0); the option parser keeps [msPerTick] at 1 or
    more. *)
Definition TICKS (f : FSGame) (ms : FSLong) : FSLong := ms ÷ msPerTick f.

(** A flag of [FSInput.extra] is set: [i->extra & flag]. *)
Definition hasFlag (i : FSInput) (flag : FSInt) : bool :=
  negb (Z.land (extra i) flag =? 0).

(** *** The body of [case FSS_FALLING: case FSS_LANDED:], step by step *)

(** Hold. *)
Definition holdStep (f : FSGame) (i : FSInput) : FSGame :=
  if hasFlag i FSI_HOLD && holdAvailable f then
    let f := set_holdAvailable false f in
    match holdPiece f with
    | FS_NONE =>
        let f := set_holdPiece (piece f) f in
        let f := newPiece f in
        set_holdAvailable false f
    | t =>
        let f := set_x (fieldWidth f ÷ 2 - 1) f in
        let f := set_y 0 f in
        let f := set_actualY Float32.zero f in
        let f := set_theta 0 f in
        let f := set_lockTimer 0 f in
        let f := set_holdPiece (piece f) f in
        let f := set_piece t f in
        updateHardDropY f
    end
  else f.

(** Finesse counters. *)
Definition finesseStep (f : FSGame) (i : FSInput) : FSGame :=
  let f :=
    if hasFlag i FSI_FINESSE_DIRECTION
    then set_finessePieceDirection (finessePieceDirection f + 1) f else f in
  if hasFlag i FSI_FINESSE_ROTATION
  then set_finessePieceRotation (finessePieceRotation f + 1) f else f.

(** Rotation: the game and the flag [moved]; [None] when [doRotate]
    aborts. *)
Definition rotateStep (f : FSGame) (i : FSInput) : option (FSGame * bool) :=
  if negb (rotation i =? 0) then
    match doRotate f (rotation i) with
    | None => None
    | Some (true, f') => Some (f', true)
    | Some (false, f') => Some (f', false)
    end
  else Some (f, false).

(** One of the two movement loops: [n] iterations, each trying the cell at
    [x + dx]; an iteration that collides changes nothing and the loop goes
    on to the next one. *)
Fixpoint moveLoop (n : nat) (dx : FSInt) (f : FSGame) (moved : bool)
  : FSGame * bool :=
  match n with
  | O => (f, moved)
  | S n' =>
      if negb (isCollision f (x f + dx) (y f) (theta f))
      then moveLoop n' dx (set_x (x f + dx) f) true
      else moveLoop n' dx f moved
  end.

(** Left/right movement: the loop over [distance < 0], then the loop over
    [distance > 0] (the first one leaves [distance] at [Z.max distance 0]). *)
Definition moveStep (f : FSGame) (distance : FSInt) (moved : bool)
  : FSGame * bool :=
  let '(f, moved) := moveLoop (Z.to_nat (- distance)) (-1) f moved in
  let distance := Z.max distance 0 in
  moveLoop (Z.to_nat distance) 1 f moved.

(** From [if (moved)] to the [break]; [None] when [doPieceGravity] casts
    a value the cast is not defined for. *)
Definition settleStep (f : FSGame) (i : FSInput) (moved : bool)
  : option FSGame :=
  let f :=
    if moved then
      let f := updateHardDropY f in
      match lockStyle f with
      | FSLOCK_MOVE => set_lockTimer 0 f
      | _ => f
      end
    else f in
  match doPieceGravity f (inputGravity i) with
  | None => None
  | Some f =>
      let f :=
        if hasFlag i FSI_HARD_DROP || (lockTimer f >? TICKS f (lockDelay f))
        then set_state FSS_LINES f else f in
      Some (match state f with
            | FSS_LANDED => set_lockTimer (lockTimer f + 1) f
            | _ => f
            end)
  end.

(** How the body of [case FSS_FALLING: case FSS_LANDED:] ends: at its
    [break], in the [abort()] of [doRotate], or in a cast that C leaves
    undefined. *)
Inductive Active : Type :=
  | Settled (f : FSGame)
  | RotateAborts
  | CastUndefined.

Definition activeStep (f : FSGame) (i : FSInput) : Active :=
  let f := holdStep f i in
  let f := finesseStep f i in
  match rotateStep f i with
  | None => RotateAborts
  | Some (f, moved) =>
      let '(f, moved) := moveStep f (movement i) moved in
      match settleStep f i moved with
      | Some f => Settled f
      | None => CastUndefined
      end
  end.

(** *** The state machine *)

(** What one pass through the [switch] ends in: [break], [goto beginTick],
    [abort()], or a cast that C leaves undefined. *)
Inductive Step : Type :=
  | Break (f : FSGame)
  | Again (f : FSGame)
  | CallsAbort
  | UndefinedCast.

Definition caseARE (f : FSGame) : Step :=
  let timer := areTimer f in
  let f := set_areTimer (timer + 1) f in
  if timer >? TICKS f (areDelay f) then
    let f := set_areTimer 0 f in
    Again (set_state FSS_NEW_PIECE f)
  else Break f.

Definition caseNEW_PIECE (f : FSGame) : Step :=
  let f := newPiece f in
  if isCollision f (x f) (y f) (theta f) then Again (set_state FSS_GAMEOVER f)
  else
    let f := updateHardDropY f in
    Break (set_state FSS_FALLING f).

Definition caseLINES (f : FSGame) : Step :=
  let f := lockPiece f in
  let f := set_piece FS_NONE f in
  let cleared := clearLines f in
  let f := set_linesCleared (linesCleared f + fst cleared) (snd cleared) in
  let f :=
    set_state (if linesCleared f <? goal f then FSS_ARE else FSS_GAMEOVER) f in
  Again f.

Definition dispatch (f : FSGame) (i : FSInput) : Step :=
  match state f with
  | FSS_ARE => caseARE f
  | FSS_NEW_PIECE => caseNEW_PIECE f
  | FSS_FALLING | FSS_LANDED =>
      match activeStep f i with
      | Settled f' => Break f'
      | RotateAborts => CallsAbort
      | CastUndefined => UndefinedCast
      end
  | FSS_LINES => caseLINES f
  | _ => Break f
  end.

(** How a call of [fsGameTick] ends: it returns, it ends the process
    through [abort()], or its behaviour is undefined; [NoFuel] is the
    model running out of re-entries. *)
Inductive Outcome : Type :=
  | Returned (f : FSGame)
  | Aborted
  | Undefined
  | NoFuel.

(** The label [beginTick]: dispatch until a [break], taking [goto
    beginTick] at most [fuel] times. *)
Fixpoint beginTick (fuel : nat) (f : FSGame) (i : FSInput) : Outcome :=
  match dispatch f i with
  | Break f' => Returned f'
  | CallsAbort => Aborted
  | UndefinedCast => Undefined
  | Again f' =>
      match fuel with
      | O => NoFuel
      | S n => beginTick n f' i
      end
  end.

(** [fsGameTick].  The longest chain of re-entries is LINES, ARE,
    NEW_PIECE, GAMEOVER: three [goto]s ([fsGameTick_fuel] below). *)
Definition fsGameTick (f : FSGame) (i : FSInput) : Outcome :=
  let f := set_lastInput i f in
  match beginTick 3 f i with
  | Returned f' => Returned (set_totalTicks (totalTicks f' + 1) f')
  | o => o
  end.

(** Modelled from the spec: the defaults of [fsDefault.h], which is not
    part of the sources; [fsGameClear] installs them. *)
Record FSDefaults : Type := mkFSDefaults {
  FSD_FIELD_WIDTH : FSInt;
  FSD_FIELD_HEIGHT : FSInt;
  FSD_MS_PER_TICK : FSInt;
  FSD_ARE_DELAY : FSLong;
  FSD_LOCK_STYLE : LockStyle;
  FSD_LOCK_DELAY : FSLong;
  FSD_ROTATION_SYSTEM : FSInt;
  FSD_GRAVITY : float32;
  FSD_RANDOMIZER : FSInt;
  FSD_GOAL : FSLong
}.

(** The loop of [fsGameClear] that fills the preview queue. *)
Fixpoint fillQueue (n : nat) (r : RandState) : list PieceType * RandState :=
  match n with
  | O => ([], r)
  | S n' =>
      let '(p, r) := fsNextRandomPiece r in
      let '(q, r) := fillQueue n' r in
      (p :: q, r)
  end.

(** [fsGameClear]: everything zero, then the defaults.  [seed] is the
    state [srand(time(NULL))] leaves the generator in. *)
Definition fsGameClear (d : FSDefaults) (seed : Z) : FSGame :=
  let r0 :=
    {| randomInternal := []; randomInternalIndex := 0;
       randomizer := FSD_RANDOMIZER d; lastRandomizer := 0; prng := seed |} in
  let '(p, r1) := fsNextRandomPiece r0 in
  let '(q, r2) := fillQueue FS_PREVIEW_MAX r1 in
  {| b := fun _ _ => 0;
     fieldWidth := FSD_FIELD_WIDTH d; fieldHeight := FSD_FIELD_HEIGHT d;
     nextPiece := q; rand := r2; piece := p; x := 0; y := 0;
     actualY := Float32.zero; hardDropY := 0; theta := 0; finesse := 0;
     finessePieceDirection := 0; finessePieceRotation := 0;
     msPerTick := FSD_MS_PER_TICK d; areDelay := FSD_ARE_DELAY d;
     areTimer := 0; totalTicks := 0; lockStyle := FSD_LOCK_STYLE d;
     lockDelay := FSD_LOCK_DELAY d; lockTimer := 0;
     rotationSystem := FSD_ROTATION_SYSTEM d; gravity := FSD_GRAVITY d;
     state := FSS_NEW_PIECE;
     lastInput := {| rotation := 0; movement := 0; inputGravity := 0; extra := 0 |};
     holdAvailable := true; holdPiece := FS_NONE; linesCleared := 0;
     blocksPlaced := 0; goal := FSD_GOAL d |}.

End Engine.

(** ** A concrete set-up for the end-to-end scenarios

    Modelled from the spec: the tables, constants and the randomizer that
    [fs.c] links against are not part of the sources.  The scenarios of
    the specification run on a 10x20 field with msPerTick = 16,
    gravity = 0, lockDelay = 500 and lockStyle = STEP, and force the
    randomizer so that the piece dealt is I. *)

(** The flag value that ends a kick-table row. *)
Definition scenario_WK_END : FSInt := 128.

(** The empty wallkick table: "no kicks besides (0,0)". *)
Definition scenario_emptyTable : WallkickTable :=
  fun _ k => if k =? 0 then mkFSInt3 0 0 0 else mkFSInt3 0 0 scenario_WK_END.

(** A rotation system with the entry rotation of SRS (none) whose kick
    indexes are all negative, so that every rotation uses the empty
    table. *)
Definition scenario_rotationSystem : FSRotationSystem :=
  {| entryOffset := fun _ => 0; entryTheta := fun _ => 0;
     kicksL := fun _ => -1; kicksR := fun _ => -1; kicksH := fun _ => -1;
     kickTables := fun _ => scenario_emptyTable |}.

(** A randomizer that always deals I. *)
Definition scenario_randomizer (r : RandState) : PieceType * RandState :=
  (FS_I, r).

Definition scenario : Externs :=
  {| rotationSystems := fun _ => scenario_rotationSystem;
     emptyWallkickTable := scenario_emptyTable;
     FS_MAX_KICK_LEN := 5;
     WK_END := scenario_WK_END;
     fsNextRandomPiece := scenario_randomizer;
     FSI_HOLD := 2;
     FSI_HARD_DROP := 1;
     FSI_FINESSE_DIRECTION := 8;
     FSI_FINESSE_ROTATION := 16;
     FS_PREVIEW_MAX := 5 |}.

(** The defaults of the scenarios, for a field [width] columns wide, an
    entry delay of [are] ms and a gravity of [grav] rows per ms. *)
Definition scenario_setup (width : FSInt) (are : FSLong) (grav : float32)
  : FSDefaults :=
  {| FSD_FIELD_WIDTH := width; FSD_FIELD_HEIGHT := 20; FSD_MS_PER_TICK := 16;
     FSD_ARE_DELAY := are; FSD_LOCK_STYLE := FSLOCK_STEP;
     FSD_LOCK_DELAY := 500; FSD_ROTATION_SYSTEM := 1; FSD_GRAVITY := grav;
     FSD_RANDOMIZER := 1; FSD_GOAL := 40 |}.

Definition scenario_defaults : FSDefaults :=
  scenario_setup 10 0 Float32.zero.

(** The game right after a reset. *)
Definition scenario_reset : FSGame :=
  @fsGameClear scenario scenario_defaults 0.

(** An input snapshot with nothing pressed, and its variants. *)
Definition noInput : FSInput :=
  {| rotation := 0; movement := 0; inputGravity := 0; extra := 0 |}.

Definition hardDropInput (g : FSInt) : FSInput :=
  {| rotation := 0; movement := 0; inputGravity := g; extra := 1 |}.

Definition gravityInput (g : FSInt) : FSInput :=
  {| rotation := 0; movement := 0; inputGravity := g; extra := 0 |}.

(** The game an outcome carries; the argument itself when the call did
    not return. *)
Definition returned (o : Outcome) (dflt : FSGame) : FSGame :=
  match o with
  | Returned f => f
  | _ => dflt
  end.

(** [n] consecutive calls of [fsGameTick] with the inputs [is]. *)
Fixpoint runTicks {E : Externs} (f : FSGame) (inputs : list FSInput) : Outcome :=
  match inputs with
  | [] => Returned f
  | i :: rest =>
      match fsGameTick f i with
      | Returned f' => runTicks f' rest
      | o => o
      end
  end.

(** The game a run of ticks from [f] ends in. *)
Definition after {E : Externs} (f : FSGame) (inputs : list FSInput) : FSGame :=
  returned (runTicks f inputs) f.

(** Scenario 1, step by step: the piece spawned, the same after an idle
    tick, after a hard drop with the drop distance as input gravity, and
    after the tick that follows. *)
Definition scenario_spawned : FSGame := @after scenario scenario_reset [noInput].

Definition scenario_idle : FSGame :=
  @after scenario scenario_spawned [noInput].

Definition scenario_dropped : FSGame :=
  @after scenario scenario_spawned [hardDropInput 18].

Definition scenario_locked : FSGame :=
  @after scenario scenario_dropped [noInput].

(** The same with an entry delay of 16 ms, one tick. *)
Definition delayed_locked : FSGame :=
  @after scenario (@fsGameClear scenario (scenario_setup 10 16 Float32.zero) 0)
    [noInput; hardDropInput 18; noInput].

(** A piece spawned under a gravity of 1/32 row per ms, half a row per
    tick. *)
Definition slow_spawned : FSGame :=
  @after scenario
    (@fsGameClear scenario
       (scenario_setup 10 0 (S754_finite false 8388608 (-28))) 0)
    [noInput].

(** A field without columns, which the configuration layer accepts
    ([fieldWidth] ranges over 0 .. [FS_MAX_WIDTH]). *)
Definition narrow_reset : FSGame :=
  @fsGameClear scenario (scenario_setup 0 0 Float32.zero) 0.

(** A field whose bottom row is full and whose row 18 holds one block. *)
Definition prefilled : FSGame :=
  set_b (fun r c => if r =? 19 then 16 else if (r =? 18) && (c =? 0) then 32 else 0)
        scenario_reset.

(** ** The command-line parser, [engine/option.c] *)

(** Log levels, in the order of [logLevelNames] in [fsLog.c]. *)
Definition FS_LOG_LEVEL_DEBUG : Z := 0.
Definition FS_LOG_LEVEL_INFO : Z := 1.

(** [struct FSOptions]; [replay] is a pointer, null after the [memset]. *)
Record FSOptions : Type := mkFSOptions {
  verbosity : Z;
  no_ini : bool;
  replay : option string
}.

Definition charCode (c : ascii) : Z := Z.of_nat (nat_of_ascii c).

(** [strncmp]: compare at most [n] characters of two C strings, the end of
    a string being its terminating NUL. *)
Fixpoint strncmp (s1 s2 : string) (n : nat) : Z :=
  match n with
  | O => 0
  | S n' =>
      match s1, s2 with
      | EmptyString, EmptyString => 0
      | EmptyString, String c2 _ => - charCode c2
      | String c1 _, EmptyString => charCode c1
      | String c1 r1, String c2 r2 =>
          if charCode c1 =? charCode c2 then strncmp r1 r2 n'
          else charCode c1 - charCode c2
      end
  end.

(** [strcmp]. *)
Fixpoint strcmp (s1 s2 : string) : Z :=
  match s1, s2 with
  | EmptyString, EmptyString => 0
  | EmptyString, String c2 _ => - charCode c2
  | String c1 _, EmptyString => charCode c1
  | String c1 r1, String c2 r2 =>
      if charCode c1 =? charCode c2 then strcmp r1 r2
      else charCode c1 - charCode c2
  end.

(** What the parser prints before it exits. *)
Inductive Printed : Type :=
  | PrintUsage
  | PrintUnknownArgument (arg : string).

(** The parser either returns with the options filled in or leaves the
    process through [exit]. *)
Inductive ParseResult : Type :=
  | Parsed (o : FSOptions)
  | Exited (code : Z) (out : Printed).

(** The loop of [fsParseOptString] over [argv[1]], [argv[2]], ... *)
Fixpoint parseArgs (args : list string) (o : FSOptions) : ParseResult :=
  match args with
  | [] => Parsed o
  | opt :: rest =>
      if strcmp "-v" opt =? 0 then
        parseArgs rest (mkFSOptions FS_LOG_LEVEL_INFO (no_ini o) (replay o))
      else if strcmp "-vv" opt =? 0 then
        parseArgs rest (mkFSOptions FS_LOG_LEVEL_DEBUG (no_ini o) (replay o))
      else if (strcmp "-i" opt =? 0) || (strcmp "--no-ini" opt =? 0) then
        parseArgs rest (mkFSOptions (verbosity o) true (replay o))
      else if (strcmp "-h" opt =? 0) || (strcmp "--help" opt =? 0) then
        Exited 0 PrintUsage
      else if (strncmp "-" opt 1 =? 0) && (strncmp "--" opt 2 =? 0) then
        parseArgs rest (mkFSOptions (verbosity o) (no_ini o) (Some opt))
      else
        Exited 1 (PrintUnknownArgument opt)
  end.

(** [fsParseOptString]: [argv[0]] is the program's name. *)
Definition fsParseOptString (argv : list string) : ParseResult :=
  parseArgs (tl argv) (mkFSOptions 0 false None).

(** The argument begins with ['-']. *)
Definition beginsWithDash (opt : string) : bool :=
  match opt with
  | String c _ => charCode c =? 45
  | EmptyString => false
  end.

(** ** Reference definitions, in the specification's words *)

(** The value [doPieceGravity] leaves in [actualY] before it compares:
    "actualY += msPerTick * gravity + inputGravity". *)
Definition gravitySum (f : FSGame) (g : FSInt) : float32 :=
  Float32.add (actualY f)
    (Float32.add (Float32.mul (Float32.of_int (msPerTick f)) (gravity f))
                 (Float32.of_int g)).

(** Specification 4.3, [applyGravity]: "actualY += msPerTick * gravity +
    inputGravity.  If actualY >= hardDropY: clamp actualY = hardDropY, set
    y = hardDropY, and transition FALLING -> LANDED (no change if already
    LANDED).  Else: if lockStyle in {STEP, MOVE} and floor(actualY) > y,
    reset lockTimer = 0.  Then y = floor(actualY) and state becomes
    FALLING."  [toCell] is the conversion of [actualY] to a row. *)
Definition applyGravityWith (toCell : float32 -> Z) (f : FSGame) (g : FSInt)
  : FSGame :=
  let a := gravitySum f g in
  if Float32.ge a (Float32.of_int (hardDropY f)) then
    set_state (match state f with FSS_FALLING => FSS_LANDED | s => s end)
      (set_y (hardDropY f) (set_actualY (Float32.of_int (hardDropY f)) f))
  else
    let stepOrMove :=
      match lockStyle f with FSLOCK_ENTRY => false | _ => true end in
    let f1 := set_actualY a f in
    let f2 := if stepOrMove && (toCell a >? y f) then set_lockTimer 0 f1
              else f1 in
    set_state FSS_FALLING (set_y (toCell a) f2).

(** The specification's reading: the row is the floor of [actualY]. *)
Definition applyGravity (f : FSGame) (g : FSInt) : FSGame :=
  applyGravityWith Float32.floor f g.

(** Specification 4.5, line clearing. *)

(** "Fully non-empty": every cell of row [r] in the columns [0 .. w-1]
    differs from 0. *)
Definition fullRow (bf : FSInt -> FSInt -> FSBlock) (w r : FSInt) : bool :=
  forallb (fun c => negb (bf r (Z.of_nat c) =? 0)) (seq 0 (Z.to_nat w)).

(** The number of fully non-empty rows among [r], [r + 1], ...,
    [r + n - 1]. *)
Fixpoint filledRows (bf : FSInt -> FSInt -> FSBlock) (w r : FSInt) (n : nat)
  : Z :=
  match n with
  | O => 0
  | S n' => (if fullRow bf w r then 1 else 0) + filledRows bf w (r + 1) n'
  end.

(** The number of bits set among the [j] lowest bits of [fl]: the flagged
    rows that the second pass of [clearLines] has gone by after [j]
    steps. *)
Fixpoint lowBits (fl : Z) (j : nat) : Z :=
  match j with
  | O => 0
  | S j' => (if Z.testbit fl 0 then 1 else 0) + lowBits (Z.shiftr fl 1) j'
  end.

(** Specification 4.6, step 4, horizontal movement: "step one cell at a
    time toward the sign, each step gated by !isCollision(x +- 1, y,
    theta); stop at the first collision".  [slideX n dx f px] is the
    column reached from [px] in at most [n] steps of [dx]. *)
Fixpoint slideX {E : Externs} (n : nat) (dx : FSInt) (f : FSGame) (px : FSInt)
  : FSInt :=
  match n with
  | O => px
  | S n' =>
      if isCollision f (px + dx) (y f) (theta f) then px
      else slideX n' dx f (px + dx)
  end.

(** ** The re-entries of [fsGameTick], resolved

    Every [goto beginTick] is taken with the state just assigned, so the
    chain of re-entries can be written out; [beginTick_resolved] below
    shows that the state machine computes these. *)

(** NEW_PIECE, followed by GAMEOVER when the spawn collides. *)
Definition spawnPiece {E : Externs} (f : FSGame) : FSGame :=
  let f := newPiece f in
  if isCollision f (x f) (y f) (theta f) then set_state FSS_GAMEOVER f
  else set_state FSS_FALLING (updateHardDropY f).

(** ARE, followed by NEW_PIECE when the delay has run out. *)
Definition passARE {E : Externs} (f : FSGame) : FSGame :=
  if areTimer f >? TICKS f (areDelay f)
  then spawnPiece (set_state FSS_NEW_PIECE (set_areTimer 0 f))
  else set_areTimer (areTimer f + 1) f.

(** The body of LINES. *)
Definition lockAndClear {E : Externs} (f : FSGame) : FSGame :=
  let f := set_piece FS_NONE (lockPiece f) in
  let cleared := clearLines f in
  let f := set_linesCleared (linesCleared f + fst cleared) (snd cleared) in
  set_state (if linesCleared f <? goal f then FSS_ARE else FSS_GAMEOVER) f.

(** LINES, followed by ARE or GAMEOVER. *)
Definition passLINES {E : Externs} (f : FSGame) : FSGame :=
  let f := lockAndClear f in
  match state f with
  | FSS_ARE => passARE f
  | _ => f
  end.

(** The closing [f->totalTicks += 1]. *)
Definition countTick (f : FSGame) : FSGame :=
  set_totalTicks (totalTicks f + 1) f.

(** ** What a tick leaves alone

    Tuples of members of [FSGame], to state which of them a step of the
    engine leaves as they were. *)

(** The members that [fs.h] marks as fixed options, as far as [fs.c]
    reads them. *)
Definition options (f : FSGame)
  : FSInt * FSInt * FSInt * FSLong * LockStyle * FSLong * FSInt * float32
    * FSLong :=
  (fieldWidth f, fieldHeight f, msPerTick f, areDelay f, lockStyle f,
   lockDelay f, rotationSystem f, gravity f, goal f).

(** What no branch of the [switch] of [fsGameTick] writes: the options,
    the tick count, the recorded input and the number of pieces in the
    preview queue. *)
Definition kept (f : FSGame) :=
  (options f, totalTicks f, lastInput f, List.length (nextPiece f)).

(** The same with what only the LINES branch writes: the field and the
    two counters. *)
Definition quiet (f : FSGame) :=
  (kept f, b f, blocksPlaced f, linesCleared f).

(** The states in which [fsGameTick] takes the [default] branch or one of
    the empty cases. *)
Definition idleState (s : GameState) : bool :=
  match s with
  | FSS_READY | FSS_GO | FSS_QUIT | FSS_GAMEOVER | FSS_UNKNOWN => true
  | _ => false
  end.

(** A hold, and a rotation outside [enum RotationAmount]. *)
Definition holdInput : FSInput :=
  {| rotation := 0; movement := 0; inputGravity := 0; extra := 2 |}.


(** The game over that the field without columns ends in. *)
Definition narrow_over : FSGame := @after scenario narrow_reset [noInput].

(** * The option parser and the kernel console *)

(** ** String helpers of [engine/option.c] *)

(** [tolower] of [ctype.h] in the "C" locale, on character codes. *)
Definition tolower (c : Z) : Z :=
  if (65 <=? c) && (c <=? 90) then c + 32 else c.

(** [isspace] of [ctype.h] in the "C" locale: space, and the controls
    from horizontal tab to carriage return. *)
Definition isspace (c : Z) : bool :=
  (c =? 32) || ((9 <=? c) && (c <=? 13)).

(** The character codes of a C string. *)
Fixpoint codes (s : string) : list Z :=
  match s with
  | EmptyString => []
  | String c r => charCode c :: codes r
  end.

(** A C string of ASCII text: every character is neither the terminator
    nor above 127 (where [char] may be negative and the argument of
    [tolower] outside what [ctype.h] defines). *)
Definition asciiText (s : string) : bool :=
  forallb (fun c => (1 <=? c) && (c <=? 127)) (codes s).

(** [strcmpi]: the difference of the first pair of characters that differ
    once lowered, 0 when the strings end together. *)
Fixpoint strcmpi (a b : string) : Z :=
  match a, b with
  | EmptyString, EmptyString => 0
  | EmptyString, String cb _ => - tolower (charCode cb)
  | String ca _, EmptyString => tolower (charCode ca)
  | String ca ra, String cb rb =>
      let d := tolower (charCode ca) - tolower (charCode cb) in
      if negb (d =? 0) || (charCode ca =? 0) then d else strcmpi ra rb
  end.

(** [eat_space]: the rest of the string from its first character that is
    not white space. *)
Fixpoint eat_space (s : string) : string :=
  match s with
  | EmptyString => s
  | String c r =>
      if negb (charCode c =? 0) && isspace (charCode c) then eat_space r
      else s
  end.

(** [eat_till]: the number of characters passed and the rest of the
    string, from its first character that is the terminator, white space
    or [c]. *)
Fixpoint eat_till (s : string) (c : Z) : Z * string :=
  match s with
  | EmptyString => (0, s)
  | String a r =>
      if negb (charCode a =? 0) && negb (isspace (charCode a))
         && negb (charCode a =? c)
      then let '(count, rest) := eat_till r c in (count + 1, rest)
      else (0, s)
  end.

(** ** The ini parser, [fsParseIniFile] *)

(** [*s]: the character under the pointer, 0 at the end of the string. *)
Definition peek (s : string) : Z :=
  match s with
  | EmptyString => 0
  | String a _ => charCode a
  end.

(** [s++]. *)
Definition next (s : string) : string :=
  match s with
  | EmptyString => s
  | String _ r => r
  end.

(** The [c] characters before the pointer that [eat_till] moved from [s]:
    the source of [memcpy(dst, s - c, c)]. *)
Definition passed (s : string) (c : Z) : string := substring 0 (Z.to_nat c) s.

(** Sizes of the buffers [groupKey] and [value]. *)
Definition MAX_ID_LENGTH : Z := 32.

(** What the parser does: it hands a key and a value to
    [unpackOptionValue], or it logs one of its warnings. *)
Inductive IniEvent : Type :=
  | Unpack (k value : string)
  | WarnMissingEquals (line : Z) (key : string)
  | WarnCommaBeforeValue (line : Z)
  | WarnNoValue (line : Z) (key : string)
  | WarnOpenFailed
  | WarnFallingBack.

(** How a piece of the parser ends: normally, in a store past the end of
    [groupKey] or [value] (which C leaves undefined), or with the model
    out of iterations. *)
Inductive IniResult (A : Type) : Type :=
  | IniOk (a : A)
  | IniOverflow
  | IniNoFuel.

Arguments IniOk {A} a.
Arguments IniOverflow {A}.
Arguments IniNoFuel {A}.

(** The loop over the comma-separated values of a key, [fuel] iterations
    at most; [k] is the content of [groupKey], group and key. *)
Fixpoint valueLoop (fuel : nat) (line : Z) (k : string) (s : string)
  (optionsCounted : Z) (out : list IniEvent)
  : IniResult (Z * list IniEvent) :=
  if peek s =? 0 then IniOk (optionsCounted, out)
  else
    match fuel with
    | O => IniNoFuel
    | S fuel' =>
        let s := eat_space s in
        let '(s, out) :=
          if peek s =? 44
          then (next s,
                if optionsCounted =? 0
                then out ++ [WarnCommaBeforeValue line] else out)
          else (s, out) in
        let '(c, rest) := eat_till s 44 in
        if (c =? 0) || (peek rest =? 0)
        then valueLoop fuel' line k rest optionsCounted out
        else if c >=? MAX_ID_LENGTH then IniOverflow
        else valueLoop fuel' line k rest (optionsCounted + 1)
                       (out ++ [Unpack k (passed s c)])
    end.

(** The body of the loop over the lines: [buffer] is the line [fgets]
    delivered, [group] what [groupKey] holds before [keySegment] (the
    group and its dot, or nothing).  The bytes of [groupKey] from
    [keySegment] on are written, terminator included, before they are
    read, so they are no part of the state. *)
Definition parseIniLine (line : Z) (group : string) (buffer : string)
  : IniResult (string * list IniEvent) :=
  let s := eat_space buffer in
  if peek s =? 91 then
    let s := eat_space (next s) in
    let '(c, _) := eat_till s 93 in
    if c >=? 2 * MAX_ID_LENGTH then IniOverflow
    else if c =? 0 then IniOk (EmptyString, [])
    else IniOk ((passed s c ++ ".")%string, [])
  else if (peek s =? 59) || (peek s =? 0) then IniOk (group, [])
  else
    let '(c, rest) := eat_till s 61 in
    if Z.of_nat (String.length group) + c >=? 2 * MAX_ID_LENGTH
    then IniOverflow
    else
      let key := passed s c in
      let s := eat_space rest in
      if negb (peek s =? 61)
      then IniOk (group, [WarnMissingEquals line key])
      else
        let s := next s in
        match valueLoop (S (String.length s)) line (group ++ key)%string s
                        0 [] with
        | IniOk (n, out) =>
            IniOk (group, if n =? 0 then out ++ [WarnNoValue line key]
                          else out)
        | IniOverflow => IniOverflow
        | IniNoFuel => IniNoFuel
        end.

(** The loop over the lines that [fgets] delivers. *)
Fixpoint parseIniLines (lines : list string) (line : Z) (group : string)
  : IniResult (list IniEvent) :=
  match lines with
  | [] => IniOk []
  | buffer :: rest =>
      match parseIniLine (line + 1) group buffer with
      | IniOk (group', out) =>
          match parseIniLines rest (line + 1) group' with
          | IniOk out' => IniOk (out ++ out')
          | r => r
          end
      | IniOverflow => IniOverflow
      | IniNoFuel => IniNoFuel
      end
  end.


(** [fsParseIniFile]: [file] is what [fopen] and the successive calls of
    [fgets] deliver, [None] when the file cannot be opened.  The parse
    starts at line 0 with an empty group. *)
Definition fsParseIniFile (file : option (list string))
  : IniResult (list IniEvent) :=
  match file with
  | None => IniOk [WarnOpenFailed; WarnFallingBack]
  | Some lines => parseIniLines lines 0 EmptyString
  end.

(** A line feed, and the ways a line ends: with one, or, for the last
    line of a file, without. *)
Definition lineFeed : string := String (ascii_of_nat 10) EmptyString.

(** Text that [eat_till] passes over up to the stop character [stop]. *)
Definition plainText (stop : Z) (s : string) : bool :=
  forallb (fun a => negb (a =? 0) && negb (isspace a) && negb (a =? stop))
          (codes s).



(** Where [eat_till] stops. *)
Definition stopsAt (stop : Z) (s : string) : bool :=
  (peek s =? 0) || isspace (peek s) || (peek s =? stop).


(** ** The option look-ups of [engine/option.c] *)

(** Modelled from the spec: the values of the enumerations that the
    look-ups return are declared in [rand.h], [rotation.h] and
    [engine.h], which are not part of the sources; the specification
    names the choices ([lockStyle] in ENTRY STEP MOVE, [initialActionStyle]
    in NONE PERSISTENT TRIGGER, the rotation systems and the
    randomizers).  They are taken as an interface. *)
Class OptionEnums : Type := mkOptionEnums {
  FST_RAND_SIMPLE : Z;
  FST_RAND_NOSZO_BAG7 : Z;
  FST_RAND_TGM1 : Z;
  FST_RAND_TGM2 : Z;
  FST_ROTSYS_SIMPLE : Z;
  FST_ROTSYS_SEGA : Z;
  FST_ROTSYS_SRS : Z;
  FST_ROTSYS_ARIKA_SRS : Z;
  FST_ROTSYS_TGM12 : Z;
  FST_ROTSYS_TGM3 : Z;
  FST_ROTSYS_DTET : Z;
  FST_LOCK_ENTRY : Z;
  FST_LOCK_STEP : Z;
  FST_LOCK_MOVE : Z;
  FST_IA_NONE : Z;
  FST_IA_PERSISTENT : Z
}.

(** The macro [M(x)]: [!strcmpi(value, x)]. *)
Definition M (value x : string) : bool := strcmpi value x =? 0.

Section Lookups.

Context {O : OptionEnums}.

Definition fsRandomizerLookup (value : string) : Z :=
  if M value "simple" || M value "0" then FST_RAND_SIMPLE
  else if M value "noszobag7" || M value "1" then FST_RAND_NOSZO_BAG7
  else if M value "tgm1" || M value "2" then FST_RAND_TGM1
  else if M value "tgm2" || M value "3" then FST_RAND_TGM2
  else -1.

Definition fsRotationSystemLookup (value : string) : Z :=
  if M value "simple" || M value "0" then FST_ROTSYS_SIMPLE
  else if M value "sega" || M value "1" then FST_ROTSYS_SEGA
  else if M value "srs" || M value "2" then FST_ROTSYS_SRS
  else if M value "arikasrs" || M value "3" then FST_ROTSYS_ARIKA_SRS
  else if M value "tgm12" || M value "4" then FST_ROTSYS_TGM12
  else if M value "tgm3" || M value "5" then FST_ROTSYS_TGM3
  else if M value "dtet" || M value "6" then FST_ROTSYS_DTET
  else -1.

Definition fsLockStyleLookup (value : string) : Z :=
  if M value "entry" || M value "0" then FST_LOCK_ENTRY
  else if M value "step" || M value "1" then FST_LOCK_STEP
  else if M value "move" || M value "2" then FST_LOCK_MOVE
  else -1.

(** [fsInitialActionStyleLookup]: the value returned and the warnings
    logged on the way. *)
Definition fsInitialActionStyleLookup (value : string) : Z * list string :=
  if M value "none" || M value "0" then (FST_IA_NONE, [])
  else if M value "persistent" || M value "1" then (FST_IA_PERSISTENT, [])
  else if M value "trigger" || M value "2"
       then (-1, ["initialActionStyle = trigger is not implemented!"%string])
  else (-1, []).

End Lookups.

(** Modelled from the spec: a numbering of the enumerations for the
    examples, in the order in which the look-ups list the choices. *)
Definition scenario_enums : OptionEnums :=
  {| FST_RAND_SIMPLE := 0; FST_RAND_NOSZO_BAG7 := 1; FST_RAND_TGM1 := 2;
     FST_RAND_TGM2 := 3;
     FST_ROTSYS_SIMPLE := 0; FST_ROTSYS_SEGA := 1; FST_ROTSYS_SRS := 2;
     FST_ROTSYS_ARIKA_SRS := 3; FST_ROTSYS_TGM12 := 4; FST_ROTSYS_TGM3 := 5;
     FST_ROTSYS_DTET := 6;
     FST_LOCK_ENTRY := 0; FST_LOCK_STEP := 1; FST_LOCK_MOVE := 2;
     FST_IA_NONE := 0; FST_IA_PERSISTENT := 1 |}.

(** The example of the comment above [eat_till] in [option.c], line by
    line. *)
Definition documentedIni : list string :=
  [("[meta]" ++ lineFeed)%string;
   ("; A comment" ++ lineFeed)%string;
   ("key = value" ++ lineFeed)%string;
   ("multi_valued_key = item1, item2, item3" ++ lineFeed)%string].

(** ** The VGA text cells of [frontend/kernel/tty.h] *)

(** [vga_entry_color]: [fg | (bg << 4)], converted to [uint8_t] on
    return. *)
Definition vga_entry_color (fg bg : Z) : Z :=
  Z.lor fg (Z.shiftl bg 4) mod 2 ^ 8.

(** [vga_entry]: [(uint16_t) uc | (uint16_t) (color << 8)].  [uc] is the
    value of a [char], negative for the upper half of the character set
    where [char] is signed; [color] is a [uint8_t]. *)
Definition vga_entry (uc color : Z) : Z :=
  Z.lor (uc mod 2 ^ 16) (Z.shiftl color 8 mod 2 ^ 16) mod 2 ^ 16.

(** * Properties *)

(** ** Records *)

(** Projections of a setter chain. *)
Ltac fs_simpl :=
  cbn [b fieldWidth fieldHeight nextPiece rand piece x y actualY hardDropY
       theta finesse finessePieceDirection finessePieceRotation msPerTick
       areDelay areTimer totalTicks lockStyle lockDelay lockTimer
       rotationSystem gravity state lastInput holdAvailable holdPiece
       linesCleared blocksPlaced goal
       set_b set_nextPiece set_rand set_piece set_x set_y set_actualY
       set_hardDropY set_theta set_finesse set_finessePieceDirection
       set_finessePieceRotation set_areTimer set_totalTicks set_lockTimer
       set_state set_lastInput set_holdAvailable set_holdPiece
       set_linesCleared set_blocksPlaced countTick].

Ltac fs_simpl_in H :=
  cbn [b fieldWidth fieldHeight nextPiece rand piece x y actualY hardDropY
       theta finesse finessePieceDirection finessePieceRotation msPerTick
       areDelay areTimer totalTicks lockStyle lockDelay lockTimer
       rotationSystem gravity state lastInput holdAvailable holdPiece
       linesCleared blocksPlaced goal
       set_b set_nextPiece set_rand set_piece set_x set_y set_actualY
       set_hardDropY set_theta set_finesse set_finessePieceDirection
       set_finessePieceRotation set_areTimer set_totalTicks set_lockTimer
       set_state set_lastInput set_holdAvailable set_holdPiece
       set_linesCleared set_blocksPlaced countTick] in H.


Lemma set_x_same (f : FSGame) : set_x (x f) f = f.
Proof. destruct f; reflexivity. Qed.

Lemma set_x_twice (u v : FSInt) (f : FSGame) : set_x u (set_x v f) = set_x u f.
Proof. reflexivity. Qed.

(** ** Occupancy *)

(** C8.  [isOccupied f cx cy] is true exactly when [(cx, cy)] lies outside
    the field ([cx < 0], [cx >= fieldWidth], [cy < 0] or
    [cy >= fieldHeight]) or the cell there holds a value greater than 1;
    in particular every cell outside the field counts as occupied. *)
Theorem isOccupied_iff (f : FSGame) (cx cy : FSInt) :
  isOccupied f cx cy = true <->
  ((cx < 0 \/ cx >= fieldWidth f \/ cy < 0 \/ cy >= fieldHeight f)
   \/ b f cy cx > 1).
Proof.
  unfold isOccupied.
  destruct (cx <? 0) eqn:H1; [ split; [ lia | reflexivity ] | ].
  destruct (cx >=? fieldWidth f) eqn:H2; [ split; [ lia | reflexivity ] | ].
  destruct (cy <? 0) eqn:H3; [ split; [ lia | reflexivity ] | ].
  destruct (cy >=? fieldHeight f) eqn:H4; [ split; [ lia | reflexivity ] | ].
  cbn [orb]. rewrite Z.gtb_ltb, Z.ltb_lt. lia.
Qed.

Section EngineFacts.

Context {E : Externs}.

(** The collision test looks at the piece, the field and the rotation
    system, never at the piece's own position. *)
Lemma isCollision_set_x (v : FSInt) (f : FSGame) (px py th : FSInt) :
  isCollision (set_x v f) px py th = isCollision f px py th.
Proof. reflexivity. Qed.

(** ** Rotation *)

Lemma kickLoop_false (n : nat) :
  forall (k : FSInt) (f : FSGame) (table : WallkickTable) (newDir : FSInt)
         (f' : FSGame),
    kickLoop n k f table newDir = (false, f') -> f' = f.
Proof.
  induction n as [| n IH]; intros k f table newDir f' H; cbn [kickLoop] in H.
  - now inversion H.
  - destruct (i3_z (table (theta f) k) =? WK_END).
    + now inversion H.
    + destruct (negb (isCollision f _ _ newDir)).
      * discriminate H.
      * exact (IH _ _ _ _ _ H).
Qed.

(** [doRotate] returns for each of the three rotation amounts. *)
Lemma doRotate_returns (f : FSGame) (d : FSInt) :
  d = FSROT_CLOCKWISE \/ d = FSROT_ANTICLOCKWISE \/ d = FSROT_HALFTURN ->
  doRotate f d <> None.
Proof.
  intros [-> | [-> | ->]]; unfold doRotate; cbn; discriminate.
Qed.

(** C10.  When [doRotate] returns false (no kick-table entry fits), the
    game is the one it was called on: the piece's [x], [y] and [theta] and
    the field are untouched, and so is everything else. *)
Theorem doRotate_false_no_effect (f : FSGame) (d : FSInt) (f' : FSGame) :
  doRotate f d = Some (false, f') ->
  f' = f /\ x f' = x f /\ y f' = y f /\ theta f' = theta f /\
  (forall r c, b f' r c = b f r c).
Proof.
  intros H.
  assert (Hf : f' = f).
  { unfold doRotate in H.
    destruct (d =? FSROT_CLOCKWISE);
      [ | destruct (d =? FSROT_ANTICLOCKWISE);
          [ | destruct (d =? FSROT_HALFTURN); [ | discriminate H ] ] ];
      injection H as H; exact (kickLoop_false _ _ _ _ _ _ H). }
  subst f'. repeat split.
Qed.

(** ** Horizontal movement *)

(** Once the next cell collides, the reference walk stays where it is. *)
Lemma slideX_blocked (n : nat) (dx : FSInt) (f : FSGame) (px : FSInt) :
  isCollision f (px + dx) (y f) (theta f) = true -> slideX n dx f px = px.
Proof.
  intros H. destruct n; cbn [slideX]; [ | rewrite H ]; reflexivity.
Qed.

Lemma slideX_set_x (n : nat) (dx v : FSInt) (f : FSGame) :
  forall px, slideX n dx (set_x v f) px = slideX n dx f px.
Proof.
  induction n as [| n IH]; intros px; cbn [slideX]; [ reflexivity | ].
  rewrite IH. reflexivity.
Qed.

Lemma moveLoop_moved (n : nat) (dx : FSInt) :
  forall f, snd (moveLoop n dx f true) = true.
Proof.
  induction n as [| n IH]; intros f; cbn [moveLoop]; [ reflexivity | ].
  destruct (negb (isCollision f _ _ _)); apply IH.
Qed.

(** The loop without a [break] ends where the walk that stops at the
    first collision ends. *)
Lemma moveLoop_slideX (n : nat) (dx : FSInt) :
  forall (f : FSGame) (moved : bool),
    moveLoop n dx f moved =
    (set_x (slideX n dx f (x f)) f,
     moved || (negb (Nat.eqb n 0)
               && negb (isCollision f (x f + dx) (y f) (theta f)))).
Proof.
  induction n as [| n IH]; intros f moved; cbn [moveLoop slideX].
  - rewrite set_x_same, orb_false_r. reflexivity.
  - cbn [Nat.eqb negb andb].
    destruct (isCollision f (x f + dx) (y f) (theta f)) eqn:Hc; cbn [negb].
    + rewrite IH, (slideX_blocked n dx f (x f) Hc), set_x_same, Hc.
      cbn [negb]. rewrite andb_false_r. reflexivity.
    + apply injective_projections.
      * rewrite IH. cbn [fst]. rewrite slideX_set_x. reflexivity.
      * rewrite moveLoop_moved. cbn [snd]. now rewrite orb_true_r.
Qed.

(** The movement step changes [x] and nothing else. *)
Lemma moveStep_only_x (f : FSGame) (n : FSInt) (moved : bool) :
  exists v moved', moveStep f n moved = (set_x v f, moved').
Proof.
  unfold moveStep. rewrite moveLoop_slideX, moveLoop_slideX.
  rewrite set_x_twice. eexists. eexists. reflexivity.
Qed.

(** C7.  For an input [movement = n], the horizontal-movement step of the
    tick leaves the piece where the walk from [x] ends that goes one cell
    at a time in the direction of the sign of [n], for at most [|n|]
    steps, and stops at the first step that would collide; nothing but
    [x] changes, although the loops keep iterating after a collision; and
    [moved] is raised exactly when the first step succeeded. *)
Theorem moveStep_stops_at_first_collision (f : FSGame) (n : FSInt)
  (moved : bool) :
  moveStep f n moved =
  (set_x (slideX (Z.to_nat (Z.abs n)) (Z.sgn n) f (x f)) f,
   moved || (negb (n =? 0)
             && negb (isCollision f (x f + Z.sgn n) (y f) (theta f)))).
Proof.
  unfold moveStep. rewrite moveLoop_slideX.
  destruct (Z.ltb_spec n 0) as [Hn | Hn].
  - replace (Z.to_nat (Z.max n 0)) with O by lia.
    cbn [moveLoop]. replace (Z.sgn n) with (-1) by lia.
    replace (Z.to_nat (Z.abs n)) with (Z.to_nat (- n)) by lia.
    replace (n =? 0) with false by (symmetry; apply Z.eqb_neq; lia).
    destruct (Nat.eqb_spec (Z.to_nat (- n)) 0); [ lia | reflexivity ].
  - replace (Z.to_nat (- n)) with O by lia.
    cbn [slideX Nat.eqb negb andb]. rewrite set_x_same, orb_false_r.
    rewrite moveLoop_slideX.
    replace (Z.to_nat (Z.max n 0)) with (Z.to_nat (Z.abs n)) by lia.
    destruct (Z.eqb_spec n 0) as [-> | Hz].
    + reflexivity.
    + replace (Z.sgn n) with 1 by lia.
      destruct (Nat.eqb_spec (Z.to_nat (Z.abs n)) 0); [ lia | reflexivity ].
Qed.

End EngineFacts.

Section TickFacts.

Context {E : Externs}.

(** ** The state machine *)

Lemma newPiece_state (f : FSGame) : state (newPiece f) = state f.
Proof.
  unfold newPiece. cbn. destruct (fsNextRandomPiece (rand f)). reflexivity.
Qed.

Lemma caseNEW_PIECE_resolved (f : FSGame) :
  caseNEW_PIECE f = Break (spawnPiece f) /\ state (spawnPiece f) = FSS_FALLING
  \/ caseNEW_PIECE f = Again (spawnPiece f)
     /\ state (spawnPiece f) = FSS_GAMEOVER.
Proof.
  unfold caseNEW_PIECE, spawnPiece.
  destruct (isCollision (newPiece f) _ _ _); [ right | left ]; split;
    reflexivity.
Qed.

Lemma beginTick_NEW_PIECE (n : nat) (f : FSGame) (i : FSInput) :
  state f = FSS_NEW_PIECE -> beginTick (S n) f i = Returned (spawnPiece f).
Proof.
  intros Hs. cbn [beginTick]. unfold dispatch at 1. rewrite Hs.
  destruct (caseNEW_PIECE_resolved f) as [[-> _] | [-> Hg]]; [ reflexivity | ].
  destruct n; cbn [beginTick]; unfold dispatch; rewrite Hg; reflexivity.
Qed.

Lemma beginTick_ARE (n : nat) (f : FSGame) (i : FSInput) :
  state f = FSS_ARE -> beginTick (S (S n)) f i = Returned (passARE f).
Proof.
  intros Hs. cbn [beginTick]. unfold dispatch at 1. rewrite Hs.
  unfold caseARE, passARE.
  change (TICKS (set_areTimer (areTimer f + 1) f)
            (areDelay (set_areTimer (areTimer f + 1) f)))
    with (TICKS f (areDelay f)).
  change (set_areTimer 0 (set_areTimer (areTimer f + 1) f))
    with (set_areTimer 0 f).
  destruct (areTimer f >? TICKS f (areDelay f)); [ | reflexivity ].
  apply (beginTick_NEW_PIECE n). reflexivity.
Qed.

Lemma caseLINES_resolved (f : FSGame) : caseLINES f = Again (lockAndClear f).
Proof. unfold caseLINES, lockAndClear. reflexivity. Qed.

Lemma lockAndClear_state (f : FSGame) :
  state (lockAndClear f) =
  if linesCleared (lockAndClear f) <? goal (lockAndClear f)
  then FSS_ARE else FSS_GAMEOVER.
Proof. unfold lockAndClear. fs_simpl. reflexivity. Qed.

Lemma beginTick_S (n : nat) (f : FSGame) (i : FSInput) :
  beginTick (S n) f i =
  match dispatch f i with
  | Break f' => Returned f'
  | CallsAbort => Aborted
  | UndefinedCast => Undefined
  | Again f' => beginTick n f' i
  end.
Proof. reflexivity. Qed.

Lemma beginTick_LINES (f : FSGame) (i : FSInput) :
  state f = FSS_LINES -> beginTick 3 f i = Returned (passLINES f).
Proof.
  intros Hs.
  assert (H1 : dispatch f i = Again (lockAndClear f)).
  { unfold dispatch. rewrite Hs. apply caseLINES_resolved. }
  rewrite beginTick_S, H1. unfold passLINES.
  generalize (lockAndClear_state f). generalize (lockAndClear f) as g.
  intros g Hl.
  destruct (linesCleared g <? goal g); rewrite Hl.
  - apply (beginTick_ARE 0). exact Hl.
  - rewrite beginTick_S. unfold dispatch. rewrite Hl. reflexivity.
Qed.

(** The state machine with its [goto]s computes the resolved chain; in
    particular three re-entries are enough. *)
Lemma beginTick_resolved (f : FSGame) (i : FSInput) :
  beginTick 3 f i =
  match state f with
  | FSS_ARE => Returned (passARE f)
  | FSS_NEW_PIECE => Returned (spawnPiece f)
  | FSS_FALLING | FSS_LANDED =>
      match activeStep f i with
      | Settled f' => Returned f'
      | RotateAborts => Aborted
      | CastUndefined => Undefined
      end
  | FSS_LINES => Returned (passLINES f)
  | _ => Returned f
  end.
Proof.
  destruct (state f) eqn:Hs;
    try (cbn [beginTick]; unfold dispatch; rewrite Hs; reflexivity).
  - cbn [beginTick]; unfold dispatch; rewrite Hs.
    destruct (activeStep f i); reflexivity.
  - cbn [beginTick]; unfold dispatch; rewrite Hs.
    destruct (activeStep f i); reflexivity.
  - apply (beginTick_ARE 1 f i Hs).
  - apply (beginTick_NEW_PIECE 2 f i Hs).
  - apply (beginTick_LINES f i Hs).
Qed.

Lemma fsGameTick_fuel (f : FSGame) (i : FSInput) : fsGameTick f i <> NoFuel.
Proof.
  unfold fsGameTick. rewrite beginTick_resolved.
  destruct (state (set_lastInput i f)); try discriminate.
  - destruct (activeStep _ i); discriminate.
  - destruct (activeStep _ i); discriminate.
Qed.

(** What a spawn leaves in place and what it sets. *)
Lemma spawnPiece_effect (f : FSGame) :
  (state (spawnPiece f) = FSS_FALLING \/ state (spawnPiece f) = FSS_GAMEOVER)
  /\ piece (spawnPiece f) = hd FS_NONE (nextPiece f)
  /\ y (spawnPiece f) = 0
  /\ actualY (spawnPiece f) = Float32.zero
  /\ areTimer (spawnPiece f) = areTimer f
  /\ linesCleared (spawnPiece f) = linesCleared f
  /\ goal (spawnPiece f) = goal f.
Proof.
  unfold spawnPiece, newPiece. fs_simpl.
  destruct (fsNextRandomPiece (rand f)) as [p r].
  match goal with |- context [if ?c then _ else _] => destruct c end;
    unfold updateHardDropY; fs_simpl; repeat split; auto.
Qed.

(** ** Entry delay *)

(** A tick in ARE whose timer has not passed the delay only counts. *)
Lemma fsGameTick_ARE_stay (f : FSGame) (i : FSInput) :
  state f = FSS_ARE ->
  areTimer f <= TICKS f (areDelay f) ->
  fsGameTick f i =
  Returned (countTick (set_areTimer (areTimer f + 1) (set_lastInput i f))).
Proof.
  intros Hs Ht. unfold fsGameTick. rewrite beginTick_resolved. fs_simpl.
  rewrite Hs. unfold passARE. fs_simpl.
  change (TICKS (set_lastInput i f) (areDelay f)) with (TICKS f (areDelay f)).
  destruct (Z.gtb_spec (areTimer f) (TICKS f (areDelay f))); [ lia | ].
  reflexivity.
Qed.

(** A tick in ARE whose timer has passed the delay spawns. *)
Lemma fsGameTick_ARE_spawn (f : FSGame) (i : FSInput) :
  state f = FSS_ARE ->
  TICKS f (areDelay f) < areTimer f ->
  exists f',
    fsGameTick f i = Returned f' /\ areTimer f' = 0
    /\ piece f' = hd FS_NONE (nextPiece f)
    /\ (state f' = FSS_FALLING \/ state f' = FSS_GAMEOVER).
Proof.
  intros Hs Ht. unfold fsGameTick. rewrite beginTick_resolved. fs_simpl.
  rewrite Hs. unfold passARE. fs_simpl.
  change (TICKS (set_lastInput i f) (areDelay f)) with (TICKS f (areDelay f)).
  destruct (Z.gtb_spec (areTimer f) (TICKS f (areDelay f))); [ | lia ].
  eexists; split; [ reflexivity | ].
  destruct (spawnPiece_effect
              (set_state FSS_NEW_PIECE (set_areTimer 0 (set_lastInput i f))))
    as (Hst & Hp & _ & _ & Ha & _).
  fs_simpl. auto.
Qed.

(** Ticks in ARE up to the last one that only counts. *)
Lemma runTicks_ARE_stay (inputs : list FSInput) :
  forall f : FSGame,
    state f = FSS_ARE ->
    areTimer f + Z.of_nat (List.length inputs) <= TICKS f (areDelay f) + 1 ->
    exists f1,
      runTicks f inputs = Returned f1 /\ state f1 = FSS_ARE
      /\ areTimer f1 = areTimer f + Z.of_nat (List.length inputs)
      /\ piece f1 = piece f /\ nextPiece f1 = nextPiece f
      /\ TICKS f1 (areDelay f1) = TICKS f (areDelay f).
Proof.
  induction inputs as [| i rest IH]; intros f Hs Hn; cbn [runTicks List.length].
  - exists f. repeat split; auto. cbn. lia.
  - cbn [List.length] in Hn. rewrite Nat2Z.inj_succ in Hn.
    rewrite (fsGameTick_ARE_stay f i Hs) by lia.
    destruct (IH (countTick (set_areTimer (areTimer f + 1) (set_lastInput i f))))
      as (f1 & Hr & Hs1 & Ha1 & Hp1 & Hq1 & Ht1).
    + exact Hs.
    + fs_simpl.
      change (TICKS _ (areDelay f)) with (TICKS f (areDelay f)). lia.
    + exists f1. rewrite Hr. repeat split; auto.
      rewrite Ha1. fs_simpl. lia.
Qed.

(** C6, as the code has it.  In state ARE a tick compares the value the
    timer had before its increment with ticks(areDelay).  While that value
    is not greater, the tick only increments [areTimer] and the state
    stays ARE; once it is greater, [areTimer] is reset to 0 and the new
    piece is spawned within the same call (the state ends FALLING, or
    GAMEOVER when the spawn collides).  Consequently, with the timer at
    [a <= ticks(areDelay) + 1], exactly [ticks(areDelay) + 1 - a] further
    ticks end in ARE, the timer reaching [ticks(areDelay) + 1], and the
    tick after them spawns. *)
Theorem are_countdown (f : FSGame) :
  state f = FSS_ARE ->
  (forall i, areTimer f <= TICKS f (areDelay f) ->
     fsGameTick f i =
     Returned (countTick (set_areTimer (areTimer f + 1) (set_lastInput i f))))
  /\ (forall i, TICKS f (areDelay f) < areTimer f ->
        exists f',
          fsGameTick f i = Returned f' /\ areTimer f' = 0
          /\ piece f' = hd FS_NONE (nextPiece f)
          /\ (state f' = FSS_FALLING \/ state f' = FSS_GAMEOVER))
  /\ (forall inputs i,
        areTimer f <= TICKS f (areDelay f) + 1 ->
        List.length inputs = Z.to_nat (TICKS f (areDelay f) + 1 - areTimer f) ->
        exists f1 f2,
          runTicks f inputs = Returned f1 /\ state f1 = FSS_ARE
          /\ areTimer f1 = TICKS f (areDelay f) + 1
          /\ fsGameTick f1 i = Returned f2 /\ areTimer f2 = 0
          /\ piece f2 = hd FS_NONE (nextPiece f)
          /\ (state f2 = FSS_FALLING \/ state f2 = FSS_GAMEOVER)).
Proof.
  intros Hs. split; [ | split ].
  - intros i. apply fsGameTick_ARE_stay; assumption.
  - intros i. apply fsGameTick_ARE_spawn; assumption.
  - intros inputs i Ha Hlen.
    destruct (runTicks_ARE_stay inputs f Hs)
      as (f1 & Hr & Hs1 & Ha1 & Hp1 & Hq1 & Ht1); [ lia | ].
    destruct (fsGameTick_ARE_spawn f1 i Hs1)
      as (f2 & Hr2 & Ha2 & Hp2 & Hst2); [ lia | ].
    exists f1, f2. rewrite Hq1 in Hp2. repeat split; auto. lia.
Qed.

(** ** Lines and the goal *)

(** The kick loop either fails and returns its argument or commits one
    kicked position. *)
Lemma kickLoop_cases (n : nat) :
  forall (k : FSInt) (f : FSGame) (table : WallkickTable) (newDir : FSInt),
    kickLoop n k f table newDir = (false, f)
    \/ exists kx ky,
         kickLoop n k f table newDir
         = (true, set_theta newDir (set_x kx (set_y ky f))).
Proof.
  induction n as [| n IH]; intros k f table newDir; cbn [kickLoop].
  - left; reflexivity.
  - destruct (i3_z (table (theta f) k) =? WK_END); [ left; reflexivity | ].
    destruct (negb (isCollision f _ _ newDir)); [ | apply IH ].
    right. eexists. eexists. reflexivity.
Qed.

Lemma doRotate_cases (f : FSGame) (d : FSInt) (r : bool) (f' : FSGame) :
  doRotate f d = Some (r, f') ->
  f' = f \/ exists nd kx ky, f' = set_theta nd (set_x kx (set_y ky f)).
Proof.
  unfold doRotate. intros H.
  destruct (d =? FSROT_CLOCKWISE);
    [ | destruct (d =? FSROT_ANTICLOCKWISE);
        [ | destruct (d =? FSROT_HALFTURN); [ | discriminate H ] ] ];
    injection H as H;
    match type of H with
    | kickLoop ?n ?k f ?t ?nd = _ =>
        destruct (kickLoop_cases n k f t nd) as [Hk | (kx & ky & Hk)];
        rewrite Hk in H; injection H as _ H; subst f';
        [ left; reflexivity | right; eauto ]
    end.
Qed.













End TickFacts.

(** ** Numbers: integers that a [float] holds exactly *)

Lemma digits2_pos_bounds (p : positive) :
  2 ^ (Zpos (digits2_pos p) - 1) <= Zpos p < 2 ^ Zpos (digits2_pos p).
Proof.
  induction p as [p IH | p IH |]; cbn [digits2_pos].
  - rewrite Pos2Z.inj_succ.
    replace (Z.succ (Zpos (digits2_pos p)) - 1) with (Z.succ (Zpos (digits2_pos p) - 1)) by lia.
    rewrite !Z.pow_succ_r by lia. lia.
  - rewrite Pos2Z.inj_succ.
    replace (Z.succ (Zpos (digits2_pos p)) - 1) with (Z.succ (Zpos (digits2_pos p) - 1)) by lia.
    rewrite !Z.pow_succ_r by lia. lia.
  - cbn. lia.
Qed.

Lemma iter_xO_value (k m : positive) :
  Zpos (Pos.iter xO m k) = Zpos m * 2 ^ Zpos k.
Proof.
  induction k as [| k IH] using Pos.peano_ind.
  - cbn. lia.
  - rewrite Pos.iter_succ, Pos2Z.inj_xO, IH, Pos2Z.inj_succ, Z.pow_succ_r by lia. lia.
Qed.

Lemma iter_xO_digits (k m : positive) :
  digits2_pos (Pos.iter xO m k) = (digits2_pos m + k)%positive.
Proof.
  induction k as [| k IH] using Pos.peano_ind.
  - cbn. lia.
  - rewrite Pos.iter_succ. cbn [digits2_pos]. rewrite IH. lia.
Qed.


Lemma shr_fexp_exact (m : positive) (e : Z) :
  fexp Float32.prec Float32.emax (Zpos (digits2_pos m) + e) = e ->
  shr_fexp Float32.prec Float32.emax (Zpos m) e loc_Exact
  = ({| shr_m := Zpos m; shr_r := false; shr_s := false |}, e).
Proof.
  intros H. unfold shr_fexp, Zdigits2. rewrite H, Z.sub_diag. reflexivity.
Qed.

Lemma binary_round_aux_exact (s : bool) (m : positive) (e : Z) :
  fexp Float32.prec Float32.emax (Zpos (digits2_pos m) + e) = e ->
  e <= Float32.emax - Float32.prec ->
  binary_round_aux Float32.prec Float32.emax s (Zpos m) e loc_Exact
  = S754_finite s m e.
Proof.
  intros H He. unfold binary_round_aux.
  rewrite (shr_fexp_exact m e H).
  cbv beta iota zeta delta [shr_m loc_of_shr_record round_nearest_even].
  rewrite (shr_fexp_exact m e H).
  cbv beta iota zeta delta [shr_m].
  replace (e <=? Float32.emax - Float32.prec) with true
    by (symmetry; apply Z.leb_le; exact He).
  reflexivity.
Qed.

Lemma binary_round_small (s : bool) (p : positive) :
  Zpos p < 2 ^ 24 ->
  exists m e, binary_round Float32.prec Float32.emax s p 0 = S754_finite s m e
              /\ e <= 0 /\ Zpos m = Zpos p * 2 ^ (- e).
Proof.
  intros Hp. pose proof (digits2_pos_bounds p) as Hd.
  assert (Hd24 : Zpos (digits2_pos p) <= 24).
  { destruct (Z.le_gt_cases (Zpos (digits2_pos p)) 24) as [H | H]; [ exact H | ].
    assert (2 ^ 24 <= 2 ^ (Zpos (digits2_pos p) - 1)) by (apply Z.pow_le_mono_r; lia).
    lia. }
  unfold binary_round.
  assert (Hf : fexp Float32.prec Float32.emax (Zpos (digits2_pos p) + 0)
               = Zpos (digits2_pos p) - 24).
  { unfold fexp, emin, Float32.prec, Float32.emax. lia. }
  rewrite Hf. unfold shl_align.
  destruct (Zpos (digits2_pos p) - 24 - 0) as [| k | k] eqn:Hk; [ | lia | ].
  - exists p, 0. split; [ | split; [ lia | cbn; lia ] ].
    apply binary_round_aux_exact.
    + rewrite Hf. lia.
    + unfold Float32.emax, Float32.prec. lia.
  - exists (Pos.iter xO p k), (Zpos (digits2_pos p) - 24).
    split; [ | split; [ lia | rewrite iter_xO_value; f_equal; f_equal; lia ] ].
    apply binary_round_aux_exact.
    + rewrite iter_xO_digits, Pos2Z.inj_add.
      unfold fexp, emin, Float32.prec, Float32.emax. lia.
    + unfold Float32.emax, Float32.prec. lia.
Qed.

Lemma trunc_of_int (h : Z) :
  Z.abs h < 2 ^ 24 -> Float32.trunc (Float32.of_int h) = h.
Proof.
  intros Hh. unfold Float32.of_int, binary_normalize.
  destruct h as [| p | p].
  - reflexivity.
  - destruct (binary_round_small false p) as (m & e & -> & He & Hm); [ lia | ].
    cbn [Float32.trunc cond_Zopp]. rewrite Hm.
    replace e with (- (- e)) at 2 by lia.
    rewrite Z.shiftl_opp_r, Z.shiftr_div_pow2 by lia.
    apply Z.div_mul. apply Z.pow_nonzero; lia.
  - destruct (binary_round_small true p) as (m & e & -> & He & Hm); [ lia | ].
    cbn [Float32.trunc cond_Zopp]. rewrite Hm.
    replace e with (- (- e)) at 2 by lia.
    rewrite Z.shiftl_opp_r, Z.shiftr_div_pow2 by lia.
    rewrite Z.div_mul by (apply Z.pow_nonzero; lia). reflexivity.
Qed.

Lemma of_int_finite (h : Z) :
  Z.abs h < 2 ^ 24 -> Float32.is_finite (Float32.of_int h) = true.
Proof.
  intros Hh. unfold Float32.of_int, binary_normalize.
  destruct h as [| p | p].
  - reflexivity.
  - destruct (binary_round_small false p) as (m & e & -> & _); [ lia | ].
    reflexivity.
  - destruct (binary_round_small true p) as (m & e & -> & _); [ lia | ].
    reflexivity.
Qed.

(** An integer below [2^24] in magnitude survives the conversion to
    [float] and back, and the cast back is defined. *)
Lemma to_int_of_int (h : Z) :
  Z.abs h < 2 ^ 24 -> Float32.to_int (Float32.of_int h) = Some h.
Proof.
  intros Hh. unfold Float32.to_int, Float32.fits_int.
  rewrite of_int_finite, trunc_of_int by exact Hh.
  assert (H1 : (Float32.INT_MIN <=? h) = true)
    by (apply Z.leb_le; unfold Float32.INT_MIN; lia).
  assert (H2 : (h <=? Float32.INT_MAX) = true)
    by (apply Z.leb_le; unfold Float32.INT_MAX; lia).
  rewrite H1, H2. reflexivity.
Qed.

(** A defined cast yields the truncated value. *)
Lemma to_int_some (a : float32) (v : Z) :
  Float32.to_int a = Some v ->
  v = Float32.trunc a /\ Float32.fits_int a = true.
Proof.
  unfold Float32.to_int. destruct (Float32.fits_int a); [ | discriminate ].
  intros H. injection H as <-. split; reflexivity.
Qed.

Lemma to_int_fits (a : float32) :
  Float32.fits_int a = true -> Float32.to_int a = Some (Float32.trunc a).
Proof. unfold Float32.to_int. intros ->. reflexivity. Qed.

Lemma trunc_floor_nonneg (a : float32) :
  Float32.nonneg a = true -> Float32.trunc a = Float32.floor a.
Proof.
  destruct a as [s | s | | s m e]; cbn; try reflexivity.
  destruct s; [ discriminate | reflexivity ].
Qed.

(** ** Gravity *)

(** [doPieceGravity] is [applyGravityWith] for every conversion that
    agrees with the cast where the cast is used, the cast being defined
    there. *)
Lemma doPieceGravity_with (toCell : float32 -> Z) (f : FSGame) (g : FSInt) :
  Float32.ge (gravitySum f g) (Float32.of_int (hardDropY f)) = true
  \/ Float32.to_int (gravitySum f g) = Some (toCell (gravitySum f g)) ->
  doPieceGravity f g = Some (applyGravityWith toCell f g).
Proof.
  unfold doPieceGravity, applyGravityWith, gravitySum.
  destruct f. fs_simpl.
  match goal with
  | |- context [if ?c then _ else _] => destruct c
  end.
  - intros _.
    match goal with
    | |- context [match ?s with FSS_FALLING => _ | _ => _ end] => destruct s
    end; reflexivity.
  - intros [Hc | Hc]; [ discriminate Hc | ].
    match goal with
    | |- context [match ?s with FSLOCK_ENTRY => _ | _ => _ end] => destruct s
    end; cbn [andb]; rewrite ?Hc;
      try match goal with
          | |- context [if ?c then _ else _] => destruct c
          end; fs_simpl; rewrite ?Hc; reflexivity.
Qed.

(** Below [hardDropY], a sum that the cast is not defined for leaves the
    behaviour of [doPieceGravity] undefined. *)
Lemma doPieceGravity_undefined (f : FSGame) (g : FSInt) :
  Float32.ge (gravitySum f g) (Float32.of_int (hardDropY f)) = false ->
  Float32.to_int (gravitySum f g) = None ->
  doPieceGravity f g = None.
Proof.
  unfold doPieceGravity, gravitySum. fs_simpl. intros -> Hc.
  destruct (lockStyle f); fs_simpl; rewrite Hc; reflexivity.
Qed.

Lemma doPieceGravity_some (f : FSGame) (g : FSInt) (f' : FSGame) :
  doPieceGravity f g = Some f' ->
  f' = applyGravityWith Float32.trunc f g
  /\ (Float32.ge (gravitySum f g) (Float32.of_int (hardDropY f)) = true
      \/ Float32.fits_int (gravitySum f g) = true).
Proof.
  intros H.
  destruct (Float32.ge (gravitySum f g) (Float32.of_int (hardDropY f)))
    eqn:Hge.
  - rewrite (doPieceGravity_with Float32.trunc) in H by (left; exact Hge).
    injection H as <-. split; [ reflexivity | left; reflexivity ].
  - destruct (Float32.fits_int (gravitySum f g)) eqn:Hf.
    + rewrite (doPieceGravity_with Float32.trunc) in H
        by (right; apply to_int_fits; exact Hf).
      injection H as <-. split; [ reflexivity | right; reflexivity ].
    + rewrite (doPieceGravity_undefined f g Hge) in H; [ discriminate H | ].
      unfold Float32.to_int. rewrite Hf. reflexivity.
Qed.

(** C3, as the code has it.  [doPieceGravity] adds
    [msPerTick * gravity + inputGravity] to [actualY]; if the sum is at
    least [hardDropY] it sets [actualY] and [y] to [hardDropY] and turns
    FALLING into LANDED, leaving any other state; otherwise it resets
    [lockTimer] exactly when [lockStyle] is STEP or MOVE and the row of
    [actualY] is greater than [y], sets [y] to that row and the state to
    FALLING.  The row is [(int) actualY], which rounds toward zero.  The
    cast is reached only below [hardDropY], and there it has to be
    defined: the sum is finite and its integral part is within the range
    of [int].  Under that condition the function is [applyGravityWith]
    with truncation for the row; the row is the floor of [actualY]
    whenever [actualY] is not negative, and then, or when the clamp
    applies, the function is the specification's [applyGravity]. *)
Theorem doPieceGravity_refines (f : FSGame) (g : FSInt) :
  Float32.ge (gravitySum f g) (Float32.of_int (hardDropY f)) = true
  \/ Float32.fits_int (gravitySum f g) = true ->
  doPieceGravity f g = Some (applyGravityWith Float32.trunc f g)
  /\ (Float32.ge (gravitySum f g) (Float32.of_int (hardDropY f)) = true
      \/ Float32.nonneg (gravitySum f g) = true ->
      doPieceGravity f g = Some (applyGravity f g)).
Proof.
  intros Hdef.
  assert (Hcast : Float32.ge (gravitySum f g) (Float32.of_int (hardDropY f))
                  = true
                  \/ Float32.to_int (gravitySum f g)
                     = Some (Float32.trunc (gravitySum f g))).
  { destruct Hdef as [Hge | Hf]; [ left; exact Hge | right ].
    apply to_int_fits. exact Hf. }
  split.
  - apply doPieceGravity_with. exact Hcast.
  - intros [Hge | Hnn]; apply doPieceGravity_with.
    + left. exact Hge.
    + destruct Hcast as [Hge | Hc]; [ left; exact Hge | right ].
      rewrite Hc. f_equal. apply trunc_floor_nonneg. exact Hnn.
Qed.

Lemma doPieceGravity_hardDropY (f : FSGame) (g : FSInt) (f' : FSGame) :
  doPieceGravity f g = Some f' -> hardDropY f' = hardDropY f.
Proof.
  intros H. destruct (doPieceGravity_some _ _ _ H) as [-> _].
  unfold applyGravityWith.
  destruct (Float32.ge (gravitySum f g) (Float32.of_int (hardDropY f)));
    [ reflexivity | ].
  destruct (match lockStyle f with FSLOCK_ENTRY => false | _ => true end
            && (Float32.trunc (gravitySum f g) >? y f)); reflexivity.
Qed.

(** After [doPieceGravity], [y] is the row of [actualY]. *)
Lemma doPieceGravity_y (f : FSGame) (g : FSInt) (f' : FSGame) :
  Z.abs (hardDropY f) < 2 ^ 24 ->
  doPieceGravity f g = Some f' ->
  Float32.to_int (actualY f') = Some (y f').
Proof.
  intros Hh H. destruct (doPieceGravity_some _ _ _ H) as [-> Hdef].
  unfold applyGravityWith.
  destruct (Float32.ge (gravitySum f g) (Float32.of_int (hardDropY f))).
  - fs_simpl. apply to_int_of_int. exact Hh.
  - destruct Hdef as [Hge | Hf]; [ discriminate Hge | ].
    fs_simpl.
    destruct (match lockStyle f with FSLOCK_ENTRY => false | _ => true end
              && (Float32.trunc (gravitySum f g) >? y f));
      fs_simpl; apply to_int_fits; exact Hf.
Qed.

Section GravityFacts.

Context {E : Externs}.

Lemma settleStep_y (f : FSGame) (i : FSInput) (moved : bool) (f' : FSGame) :
  settleStep f i moved = Some f' ->
  Z.abs (hardDropY f') < 2 ^ 24 ->
  Float32.to_int (actualY f') = Some (y f').
Proof.
  unfold settleStep.
  set (f1 := if moved then _ else f). clearbody f1.
  destruct (doPieceGravity f1 (inputGravity i)) as [f2 | ] eqn:Hg;
    [ | discriminate ].
  assert (Hd := fun H => doPieceGravity_y f1 (inputGravity i) f2 H Hg).
  assert (He := doPieceGravity_hardDropY f1 (inputGravity i) f2 Hg).
  match goal with
  | |- context [if ?c then set_state FSS_LINES f2 else f2] =>
      set (f3 := if c then set_state FSS_LINES f2 else f2);
      assert (H3 : y f3 = y f2 /\ actualY f3 = actualY f2
                   /\ hardDropY f3 = hardDropY f2)
        by (subst f3; destruct c; repeat split)
  end.
  clearbody f3. destruct H3 as (Hy & Ha & Hh).
  intros H Hb. injection H as <-.
  assert (H4 : Z.abs (hardDropY f1) < 2 ^ 24)
    by (rewrite <- He, <- Hh; destruct (state f3); exact Hb).
  destruct (state f3); fs_simpl; rewrite Hy, Ha; apply Hd; exact H4.
Qed.

(** A finished body of FALLING/LANDED is the result of its last step. *)
Lemma activeStep_settles (f : FSGame) (i : FSInput) (f' : FSGame) :
  activeStep f i = Settled f' ->
  exists g moved, settleStep g i moved = Some f'.
Proof.
  unfold activeStep. intros H.
  destruct (rotateStep (finesseStep (holdStep f i) i) i) as [[f2 m] |];
    [ | discriminate H ].
  destruct (moveStep f2 (movement i) m) as [f3 m3].
  destruct (settleStep f3 i m3) as [f4 | ] eqn:Hs; [ | discriminate H ].
  injection H as <-. eauto.
Qed.

Lemma passARE_y (f : FSGame) :
  state f = FSS_ARE ->
  state (passARE f) = FSS_ARE
  \/ state (passARE f) = FSS_GAMEOVER
  \/ y (passARE f) = 0 /\ actualY (passARE f) = Float32.zero.
Proof.
  intros Hs. unfold passARE. destruct (_ >? _).
  - destruct (spawnPiece_effect (set_state FSS_NEW_PIECE (set_areTimer 0 f)))
      as (_ & _ & Hy & Ha & _). right. right. split; assumption.
  - left. exact Hs.
Qed.

(** C4, as the code has it.  Whenever a tick returns in FALLING or LANDED
    with a [hardDropY] that a [float] holds exactly, the cast
    [(int) actualY] is defined (a tick that evaluates the cast on a NaN,
    on an infinity or on a value whose integral part is outside the range
    of [int] does not return: its behaviour is undefined) and [y] is its
    value, [actualY] rounded toward zero, hence the floor of [actualY] as
    long as [actualY] is not negative.  A successful rotation commits the
    kicked [y] without touching [actualY]; the gravity step of the same
    tick assigns [y] anew from [actualY]. *)
Theorem y_is_row_of_actualY (f : FSGame) (i : FSInput) (f' : FSGame) :
  fsGameTick f i = Returned f' ->
  state f' = FSS_FALLING \/ state f' = FSS_LANDED ->
  Z.abs (hardDropY f') < 2 ^ 24 ->
  Float32.to_int (actualY f') = Some (y f')
  /\ Float32.fits_int (actualY f') = true
  /\ (Float32.nonneg (actualY f') = true -> y f' = Float32.floor (actualY f')).
Proof.
  intros Ht Hst Hh.
  assert (Hy : Float32.to_int (actualY f') = Some (y f')).
  { revert Ht. unfold fsGameTick. rewrite beginTick_resolved.
    generalize (set_lastInput i f) as f0. intros f0.
    destruct (state f0) eqn:Hs;
      try (intros Ht; injection Ht as <-; fs_simpl_in Hst; rewrite Hs in Hst;
           destruct Hst; discriminate).
    - (* FALLING *)
      destruct (activeStep f0 i) as [g | | ] eqn:Ha;
        try (intros Ht; discriminate Ht).
      destruct (activeStep_settles _ _ _ Ha) as (g0 & m & Hset).
      intros Ht; injection Ht as <-. fs_simpl. fs_simpl_in Hh.
      apply (settleStep_y _ _ _ _ Hset). exact Hh.
    - (* LANDED *)
      destruct (activeStep f0 i) as [g | | ] eqn:Ha;
        try (intros Ht; discriminate Ht).
      destruct (activeStep_settles _ _ _ Ha) as (g0 & m & Hset).
      intros Ht; injection Ht as <-. fs_simpl. fs_simpl_in Hh.
      apply (settleStep_y _ _ _ _ Hset). exact Hh.
    - (* ARE *)
      destruct (passARE_y f0 Hs) as [Hp | [Hp | [Hp Hq]]]; revert Hp;
        try revert Hq; generalize (passARE f0) as g; intros g;
        intros; injection Ht as <-; fs_simpl_in Hst; fs_simpl;
        try (destruct Hst; congruence).
      rewrite Hp, Hq. reflexivity.
    - (* NEW_PIECE *)
      destruct (spawnPiece_effect f0) as (_ & _ & Hp & Hq & _).
      revert Hp Hq. generalize (spawnPiece f0) as g. intros g Hp Hq Ht.
      injection Ht as <-. fs_simpl. rewrite Hp, Hq. reflexivity.
    - (* LINES *)
      unfold passLINES. generalize (lockAndClear_state f0).
      generalize (lockAndClear f0) as g. intros g Hg.
      destruct (linesCleared g <? goal g); rewrite Hg.
      + destruct (passARE_y g Hg) as [Hp | [Hp | [Hp Hq]]]; revert Hp;
          try revert Hq; generalize (passARE g) as h; intros h;
          intros; injection Ht as <-; fs_simpl_in Hst; fs_simpl;
          try (destruct Hst; congruence).
        rewrite Hp, Hq. reflexivity.
      + intros Ht; injection Ht as <-. fs_simpl_in Hst.
        destruct Hst; congruence. }
  destruct (to_int_some _ _ Hy) as [Hv Hf].
  split; [ exact Hy | split; [ exact Hf | ] ].
  intros Hnn. rewrite Hv. apply trunc_floor_nonneg. exact Hnn.
Qed.

End GravityFacts.

(** ** Line clearing *)

Lemma fullRow_iff bf w r :
  fullRow bf w r = true <-> (forall c, 0 <= c < w -> bf r c <> 0).
Proof.
  unfold fullRow. rewrite forallb_forall. split.
  - intros H c Hc. specialize (H (Z.to_nat c)).
    rewrite Z2Nat.id in H by lia.
    assert (Hin : In (Z.to_nat c) (seq 0 (Z.to_nat w))) by (apply in_seq; lia).
    specialize (H Hin). apply negb_true_iff, Z.eqb_neq in H. exact H.
  - intros H c Hin. apply in_seq in Hin.
    apply negb_true_iff, Z.eqb_neq. apply H. lia.
Qed.

Lemma fullRow_false bf w r :
  fullRow bf w r = false -> exists c, 0 <= c < w /\ bf r c = 0.
Proof.
  unfold fullRow. intros H.
  assert (Hn : ~ forallb (fun c => negb (bf r (Z.of_nat c) =? 0))
                   (seq 0 (Z.to_nat w)) = true) by congruence.
  rewrite forallb_forall in Hn.
  destruct (existsb (fun c => bf r (Z.of_nat c) =? 0) (seq 0 (Z.to_nat w))) eqn:He.
  - apply existsb_exists in He. destruct He as (c & Hin & Hc).
    apply in_seq in Hin. apply Z.eqb_eq in Hc. exists (Z.of_nat c). split; [ lia | exact Hc ].
  - exfalso. apply Hn. intros c Hin.
    rewrite <- not_true_iff_false, existsb_exists in He.
    apply negb_true_iff. destruct (bf r (Z.of_nat c) =? 0) eqn:Hz; [ | reflexivity ].
    exfalso. apply He. exists c. auto.
Qed.

Lemma rowFilled_iff (n : nat) : forall cx bf r,
  rowFilled n cx bf r = true
  <-> (forall c, cx <= c < cx + Z.of_nat n -> bf r c <> 0).
Proof.
  induction n as [| n IH]; intros cx bf r; cbn [rowFilled].
  - split; [ intros _ c Hc; lia | reflexivity ].
  - destruct (Z.eqb_spec (bf r cx) 0) as [Hz | Hz].
    + split; [ discriminate | ]. intros H. exfalso. apply (H cx); [ lia | exact Hz ].
    + rewrite IH. split; intros H c Hc.
      * destruct (Z.eq_dec c cx) as [-> | Hne]; [ exact Hz | apply H; lia ].
      * apply H. lia.
Qed.

Lemma rowFilled_fullRow bf w r : rowFilled (Z.to_nat w) 0 bf r = fullRow bf w r.
Proof.
  apply eq_true_iff_eq. rewrite rowFilled_iff, fullRow_iff.
  split; intros H c Hc; apply H; lia.
Qed.

(** Two fields that agree on a row's window agree on whether it is full. *)
Lemma fullRow_ext bf bf' w r r' :
  (forall c, 0 <= c < w -> bf' r' c = bf r c) ->
  fullRow bf' w r' = fullRow bf w r.
Proof.
  intros H. apply eq_true_iff_eq. rewrite !fullRow_iff.
  split; intros Hf c Hc; [ rewrite <- H | rewrite H ]; auto.
Qed.

Lemma filledRows_bounds bf w (n : nat) : forall r,
  0 <= filledRows bf w r n <= Z.of_nat n.
Proof.
  induction n as [| n IH]; intros r; cbn [filledRows]; [ lia | ].
  specialize (IH (r + 1)). destruct (fullRow bf w r); lia.
Qed.

Lemma filledRows_app bf w (n m : nat) : forall r,
  filledRows bf w r (n + m)
  = filledRows bf w r n + filledRows bf w (r + Z.of_nat n) m.
Proof.
  induction n as [| n IH]; intros r.
  - cbn [filledRows Nat.add]. rewrite Z.add_0_r. reflexivity.
  - cbn [filledRows Nat.add]. rewrite IH.
    replace (r + 1 + Z.of_nat n) with (r + Z.of_nat (S n)) by lia. lia.
Qed.

(** *** First pass *)

Lemma testbit_shl1 (v i : Z) :
  0 <= i ->
  Z.testbit (FSBits_shl1 v) i = (i <? 32) && Z.testbit v (i - 1).
Proof.
  intros Hi. unfold FSBits_shl1, FSBits_width.
  rewrite Z.testbit_mod_pow2 by lia.
  rewrite Z.shiftl_spec by lia. reflexivity.
Qed.

Lemma testbit_lor1 (v i : Z) :
  0 <= i -> Z.testbit (Z.lor v 1) i = Z.testbit v i || (i =? 0).
Proof.
  intros Hi. rewrite Z.lor_spec.
  destruct (Z.eqb_spec i 0) as [-> | Hne]; [ reflexivity | ].
  rewrite (Z.bits_above_log2 1 i) by (cbn; lia). reflexivity.
Qed.

(** The flags after [n] rows: bit [i] is the flag of the row scanned
    [i] rows before the end, as long as it has not left the word. *)
Lemma scanRows_spec bf w (n : nat) : forall cy fl cnt,
  Z.testbit fl 0 = false ->
  (forall i, 32 <= i -> Z.testbit fl i = false) ->
  snd (scanRows n cy bf w fl cnt) = cnt + filledRows bf w cy n
  /\ (forall i, 0 <= i ->
        Z.testbit (fst (scanRows n cy bf w fl cnt)) i
        = (i <? 32)
          && (if i =? 0 then false
              else if i <=? Z.of_nat n then fullRow bf w (cy + Z.of_nat n - i)
                   else Z.testbit fl (i - Z.of_nat n))).
Proof.
  induction n as [| n IH]; intros cy fl cnt H0 Hhi.
  - cbn [scanRows filledRows fst snd]. split; [ lia | ].
    intros i Hi. destruct (Z.eqb_spec i 0) as [-> | Hne].
    + rewrite H0. reflexivity.
    + destruct (Z.leb_spec i (Z.of_nat 0)); [ lia | ].
      rewrite Z.sub_0_r.
      destruct (Z.ltb_spec i 32); [ reflexivity | ]. apply Hhi. lia.
  - cbn [scanRows filledRows]. rewrite rowFilled_fullRow.
    set (fl' := if fullRow bf w cy then FSBits_shl1 (Z.lor fl 1) else FSBits_shl1 fl).
    set (cnt' := if fullRow bf w cy then cnt + 1 else cnt).
    assert (Hb : forall i, 0 <= i ->
              Z.testbit fl' i
              = (i <? 32) && (if i =? 1 then fullRow bf w cy
                              else Z.testbit fl (i - 1))).
    { intros i Hi. subst fl'. destruct (fullRow bf w cy);
        rewrite testbit_shl1 by lia; f_equal.
      - destruct (Z.eqb_spec i 0) as [-> | Hn0]; [ reflexivity | ].
        rewrite testbit_lor1 by lia.
        destruct (Z.eqb_spec i 1) as [-> | Hn1]; [ apply orb_true_r | ].
        destruct (Z.eqb_spec (i - 1) 0); [ lia | apply orb_false_r ].
      - destruct (Z.eqb_spec i 1) as [-> | Hn1]; [ exact H0 | reflexivity ]. }
    assert (Hscan : scanRows n (cy + 1) bf w fl' cnt'
                    = if fullRow bf w cy
                      then scanRows n (cy + 1) bf w (FSBits_shl1 (Z.lor fl 1)) (cnt + 1)
                      else scanRows n (cy + 1) bf w (FSBits_shl1 fl) cnt).
    { subst fl' cnt'. destruct (fullRow bf w cy); reflexivity. }
    rewrite <- Hscan.
    destruct (IH (cy + 1) fl' cnt') as [Hc Hf].
    + rewrite Hb by lia. reflexivity.
    + intros i Hi. rewrite Hb by lia.
      destruct (Z.ltb_spec i 32); [ lia | reflexivity ].
    + split.
      * rewrite Hc. subst cnt'. destruct (fullRow bf w cy); lia.
      * intros i Hi. rewrite Hf by exact Hi.
        destruct (Z.ltb_spec i 32) as [Hlt | Hge]; [ | reflexivity ].
        cbn [andb].
        destruct (Z.eqb_spec i 0) as [-> | Hn0]; [ reflexivity | ].
        destruct (Z.leb_spec i (Z.of_nat n)) as [Hle | Hgt].
        -- destruct (Z.leb_spec i (Z.of_nat (S n))); [ | lia ].
           f_equal. lia.
        -- rewrite Hb by lia.
           destruct (Z.ltb_spec (i - Z.of_nat n) 32); [ | lia ]. cbn [andb].
           destruct (Z.eqb_spec (i - Z.of_nat n) 1) as [He | Hne].
           ++ destruct (Z.leb_spec i (Z.of_nat (S n))); [ | lia ].
              f_equal. lia.
           ++ destruct (Z.leb_spec i (Z.of_nat (S n))); [ lia | ].
              f_equal. lia.
Qed.

(** *** Second pass *)

Lemma bit0_land (fl : Z) : negb (Z.land fl 1 =? 0) = Z.testbit fl 0.
Proof.
  change 1 with (Z.ones 1) at 1. rewrite Z.land_ones by lia.
  change (2 ^ 1) with 2. rewrite <- Z.bit0_mod.
  destruct (Z.testbit fl 0); reflexivity.
Qed.

Lemma lowBits_bounds (j : nat) : forall fl, 0 <= lowBits fl j <= Z.of_nat j.
Proof.
  induction j as [| j IH]; intros fl; cbn [lowBits]; [ lia | ].
  specialize (IH (Z.shiftr fl 1)). destruct (Z.testbit fl 0); lia.
Qed.

(** Rows below [dst], rows above the field and columns outside the window
    are not written. *)
Lemma copyRows_frame (n : nat) : forall src dst fl w bf r c,
  src = Z.of_nat n - 1 -> src <= dst ->
  dst < r \/ r < 0 \/ ~ 0 <= c < w ->
  copyRows n src dst fl w bf r c = bf r c.
Proof.
  induction n as [| n IH]; intros src dst fl w bf r c Hsrc Hle Hout;
    cbn [copyRows]; [ reflexivity | ].
  destruct (negb (Z.land fl 1 =? 0)).
  - apply IH; lia.
  - rewrite IH by lia.
    destruct (negb (src =? dst)); [ | reflexivity ].
    unfold memcpyRow.
    destruct (Z.eqb_spec r dst); [ | reflexivity ].
    destruct (Z.leb_spec 0 c); destruct (Z.ltb_spec c w); cbn [andb];
      (reflexivity || lia).
Qed.

(** The row [j] places below [src], when it is not flagged, ends [j]
    places below [dst], raised by the flagged rows it has passed. *)
Lemma copyRows_moves (n : nat) : forall src dst fl w bf (j : nat) c,
  src = Z.of_nat n - 1 -> src <= dst ->
  (j < n)%nat -> Z.testbit fl (Z.of_nat j) = false -> 0 <= c < w ->
  copyRows n src dst fl w bf (dst - Z.of_nat j + lowBits fl j) c
  = bf (src - Z.of_nat j) c.
Proof.
  induction n as [| n IH]; intros src dst fl w bf j c Hsrc Hle Hj Hbit Hc;
    [ lia | ].
  cbn [copyRows]. rewrite bit0_land.
  destruct j as [| j].
  - cbn [lowBits Z.of_nat] in *. rewrite Hbit. cbn [negb].
    rewrite copyRows_frame by lia.
    rewrite Z.add_0_r, !Z.sub_0_r.
    destruct (Z.eqb_spec src dst) as [-> | Hne]; cbn [negb]; [ reflexivity | ].
    unfold memcpyRow. rewrite Z.eqb_refl.
    destruct (Z.leb_spec 0 c); destruct (Z.ltb_spec c w); cbn [andb];
      (reflexivity || lia).
  - assert (Hbit' : Z.testbit (Z.shiftr fl 1) (Z.of_nat j) = false).
    { rewrite Z.shiftr_spec by lia. rewrite <- Hbit. f_equal. lia. }
    cbn [lowBits]. destruct (Z.testbit fl 0); cbn [negb].
    + replace (dst - Z.of_nat (S j) + (1 + lowBits (Z.shiftr fl 1) j))
        with (dst - Z.of_nat j + lowBits (Z.shiftr fl 1) j) by lia.
      rewrite IH by first [ lia | exact Hbit' ]. f_equal. lia.
    + replace (dst - Z.of_nat (S j) + (0 + lowBits (Z.shiftr fl 1) j))
        with (dst - 1 - Z.of_nat j + lowBits (Z.shiftr fl 1) j) by lia.
      rewrite IH by first [ lia | exact Hbit' ].
      replace (src - 1 - Z.of_nat j) with (src - Z.of_nat (S j)) by lia.
      destruct (negb (src =? dst)); [ | reflexivity ].
      unfold memcpyRow.
      destruct (Z.eqb_spec (src - Z.of_nat (S j)) dst); [ lia | reflexivity ].
Qed.

(** Every row between the final and the initial [dst] receives a row that
    is not flagged. *)
Lemma dest_onto (n : nat) : forall fl dst d,
  dst - (Z.of_nat n - lowBits fl n) < d <= dst ->
  exists j : nat,
    (j < n)%nat /\ Z.testbit fl (Z.of_nat j) = false
    /\ d = dst - Z.of_nat j + lowBits fl j.
Proof.
  induction n as [| n IH]; intros fl dst d Hd; cbn [lowBits] in Hd; [ lia | ].
  assert (Hshift : forall j : nat,
             Z.testbit (Z.shiftr fl 1) (Z.of_nat j)
             = Z.testbit fl (Z.of_nat (S j))).
  { intros j. rewrite Z.shiftr_spec by lia. f_equal. lia. }
  destruct (Z.testbit fl 0) eqn:H0.
  - destruct (IH (Z.shiftr fl 1) dst d) as (j & Hj & Hb & He); [ lia | ].
    exists (S j). rewrite <- Hshift. cbn [lowBits]. rewrite H0.
    split; [ lia | split; [ exact Hb | lia ] ].
  - destruct (Z.eq_dec d dst) as [-> | Hne].
    + exists O. cbn [lowBits Z.of_nat]. split; [ lia | split; [ exact H0 | lia ] ].
    + destruct (IH (Z.shiftr fl 1) (dst - 1) d) as (j & Hj & Hb & He); [ lia | ].
      exists (S j). rewrite <- Hshift. cbn [lowBits]. rewrite H0.
      split; [ lia | split; [ exact Hb | lia ] ].
Qed.

(** When the low bits of [fl] are the flags of the rows [top], [top - 1],
    ..., their number is the number of full rows among these. *)
Lemma lowBits_filledRows bf w (j : nat) : forall fl top,
  (forall i, 0 <= i < Z.of_nat j -> Z.testbit fl i = fullRow bf w (top - i)) ->
  lowBits fl j = filledRows bf w (top - Z.of_nat j + 1) j.
Proof.
  induction j as [| j IH]; intros fl top Hbits; [ reflexivity | ].
  cbn [lowBits]. rewrite (IH (Z.shiftr fl 1) (top - 1)).
  - replace (S j) with (j + 1)%nat at 2 by lia.
    rewrite filledRows_app. cbn [filledRows].
    rewrite (Hbits 0) by lia.
    replace (top - Z.of_nat (S j) + 1 + Z.of_nat j) with (top - 0) by lia.
    replace (top - 1 - Z.of_nat j + 1) with (top - Z.of_nat (S j) + 1) by lia.
    lia.
  - intros i Hi. rewrite Z.shiftr_spec by lia. rewrite Hbits by lia.
    f_equal. lia.
Qed.

(** *** Third pass *)

Lemma zeroRows_spec (n : nat) : forall i w bf r c,
  zeroRows n i w bf r c
  = if (i <=? r) && (r <? i + Z.of_nat n) && (0 <=? c) && (c <? w)
    then 0 else bf r c.
Proof.
  induction n as [| n IH]; intros i w bf r c; cbn [zeroRows].
  - destruct (Z.leb_spec i r); destruct (Z.ltb_spec r (i + Z.of_nat 0));
      cbn [andb]; try reflexivity. lia.
  - rewrite IH. unfold memsetRow.
    destruct (Z.leb_spec (i + 1) r); destruct (Z.ltb_spec r (i + 1 + Z.of_nat n));
      destruct (Z.leb_spec i r); destruct (Z.ltb_spec r (i + Z.of_nat (S n)));
      destruct (Z.eqb_spec r i);
      destruct (Z.leb_spec 0 c); destruct (Z.ltb_spec c w); cbn [andb];
      try reflexivity; lia.
Qed.

Lemma lowBits_le_filledRows bf w (j : nat) : forall fl top,
  (forall i, 0 <= i < Z.of_nat j ->
     Z.testbit fl i = true -> fullRow bf w (top - i) = true) ->
  lowBits fl j <= filledRows bf w (top - Z.of_nat j + 1) j.
Proof.
  induction j as [| j IH]; intros fl top Hbits; [ reflexivity | ].
  cbn [lowBits].
  assert (H1 : lowBits (Z.shiftr fl 1) j
               <= filledRows bf w (top - 1 - Z.of_nat j + 1) j).
  { apply IH. intros i Hi Hb. rewrite Z.shiftr_spec in Hb by lia.
    replace (top - 1 - i) with (top - (i + 1)) by lia. apply Hbits; [ lia | exact Hb ]. }
  replace (S j) with (j + 1)%nat at 2 by lia.
  rewrite filledRows_app. cbn [filledRows].
  replace (top - Z.of_nat (S j) + 1 + Z.of_nat j) with (top - 0) by lia.
  replace (top - 1 - Z.of_nat j + 1) with (top - Z.of_nat (S j) + 1) in H1 by lia.
  destruct (Z.testbit fl 0) eqn:H0; [ rewrite (Hbits 0) by (lia || exact H0) | ];
    destruct (fullRow bf w (top - 0)); lia.
Qed.

(** *** The three passes together *)

(** C2.  For every field with [fieldHeight <= 32], [clearLines] returns
    the number of fully non-empty rows; it changes the field only; every
    other row moves down by the number of full rows below it, with its
    cells unchanged, and ends between the cleared rows at the top and the
    bottom of the field; the top [filledLineCount] rows are zero; nothing
    outside the field's window changes; and, the field having at least
    one column, no row is fully non-empty afterwards.  The guard on the
    width is the one under which [clearLines] is called at all: on a
    field without columns every spawn collides and the game is over
    before a piece can lock ([spawnPiece_no_columns] below). *)
Theorem clearLines_compacts (f : FSGame) :
  fieldHeight f <= 32 ->
  fst (clearLines f)
  = filledRows (b f) (fieldWidth f) 0 (Z.to_nat (fieldHeight f))
  /\ snd (clearLines f) = set_b (b (snd (clearLines f))) f
  /\ (forall r,
        0 <= r < fieldHeight f -> fullRow (b f) (fieldWidth f) r = false ->
        fst (clearLines f)
        <= r + filledRows (b f) (fieldWidth f) (r + 1)
                 (Z.to_nat (fieldHeight f - 1 - r))
        < fieldHeight f
        /\ forall c,
             0 <= c < fieldWidth f ->
             b (snd (clearLines f))
               (r + filledRows (b f) (fieldWidth f) (r + 1)
                      (Z.to_nat (fieldHeight f - 1 - r))) c
             = b f r c)
  /\ (forall r c,
        0 <= r < fst (clearLines f) -> 0 <= c < fieldWidth f ->
        b (snd (clearLines f)) r c = 0)
  /\ (forall r c,
        ~ (0 <= r < fieldHeight f /\ 0 <= c < fieldWidth f) ->
        b (snd (clearLines f)) r c = b f r c)
  /\ (0 < fieldWidth f ->
      forall r,
        0 <= r < fieldHeight f ->
        fullRow (b (snd (clearLines f))) (fieldWidth f) r = false).
Proof.
  intros Hh32. unfold clearLines. cbn [fst snd]. fs_simpl.
  set (h := fieldHeight f) in *. set (w := fieldWidth f). set (B := b f).
  destruct (Z.lt_ge_cases h 0) as [Hneg | Hpos].
  { replace (Z.to_nat h) with O by lia.
    replace (Z.to_nat (h - 1 + 1)) with O by lia.
    cbn [scanRows fst snd copyRows zeroRows Z.to_nat filledRows].
    repeat split; try reflexivity; intros; lia. }
  set (n := Z.to_nat h).
  destruct (scanRows_spec B w n 0 0 0) as [Hcnt Hbits];
    [ reflexivity | intros i _; apply Z.testbit_0_l | ].
  set (scan := scanRows n 0 B w 0 0) in *.
  set (k := snd scan) in *. set (FL := Z.shiftr (fst scan) 1).
  replace (Z.to_nat (h - 1 + 1)) with n by lia.
  set (R := copyRows n (h - 1) (h - 1) FL w B).
  rewrite Z.add_0_l in Hcnt.
  assert (Hk : 0 <= k <= h).
  { rewrite Hcnt. pose proof (filledRows_bounds B w n 0). lia. }
  (* the flags, row by row *)
  assert (HFL : forall j, 0 <= j ->
            Z.testbit FL j
            = (j + 1 <? 32)
              && (if j + 1 <=? h then fullRow B w (h - 1 - j) else false)).
  { intros j Hj. unfold FL. rewrite Z.shiftr_spec by lia.
    rewrite Hbits by lia.
    destruct (Z.eqb_spec (j + 1) 0); [ lia | ].
    replace (Z.of_nat n) with h by lia. rewrite Z.testbit_0_l.
    replace (0 + h - (j + 1)) with (h - 1 - j) by lia. reflexivity. }
  assert (F1 : forall j, 0 <= j < h -> j < 31 ->
            Z.testbit FL j = fullRow B w (h - 1 - j)).
  { intros j Hj H31. rewrite HFL by lia.
    destruct (Z.ltb_spec (j + 1) 32); [ | lia ].
    destruct (Z.leb_spec (j + 1) h); [ reflexivity | lia ]. }
  assert (F2 : forall j, 0 <= j -> Z.testbit FL j = true ->
            fullRow B w (h - 1 - j) = true).
  { intros j Hj. rewrite HFL by lia.
    destruct (j + 1 <? 32); [ | discriminate ].
    destruct (j + 1 <=? h); [ trivial | discriminate ]. }
  assert (F3 : Z.testbit FL 31 = false).
  { rewrite HFL by lia. reflexivity. }
  (* a surviving row is not flagged, and the flagged rows it passes are
     the full rows below it *)
  assert (Hrow : forall r, 0 <= r < h ->
            Z.testbit FL (h - 1 - r) = false ->
            lowBits FL (Z.to_nat (h - 1 - r))
            = filledRows B w (r + 1) (Z.to_nat (h - 1 - r))
            /\ forall c, 0 <= c < w ->
                 R (r + lowBits FL (Z.to_nat (h - 1 - r))) c = B r c).
  { intros r Hr Hbit. split.
    - rewrite (lowBits_filledRows B w _ FL (h - 1)).
      + f_equal. lia.
      + intros i Hi. apply F1; lia.
    - intros c Hc.
      pose proof (copyRows_moves n (h - 1) (h - 1) FL w B
                    (Z.to_nat (h - 1 - r)) c) as Hm.
      rewrite Z2Nat.id in Hm by lia.
      replace (h - 1 - (h - 1 - r)) with r in Hm by lia.
      replace (h - 1 - (h - 1 - r) + lowBits FL (Z.to_nat (h - 1 - r)))
        with (r + lowBits FL (Z.to_nat (h - 1 - r))) in Hm by lia.
      apply Hm; [ lia | lia | lia | exact Hbit | exact Hc ]. }
  assert (Hsplit : forall r, 0 <= r < h ->
            k = filledRows B w 0 (Z.to_nat r)
                + (if fullRow B w r then 1 else 0)
                + filledRows B w (r + 1) (Z.to_nat (h - 1 - r))).
  { intros r Hr. rewrite Hcnt.
    replace n with (Z.to_nat r + (1 + Z.to_nat (h - 1 - r)))%nat by lia.
    rewrite filledRows_app, filledRows_app. cbn [filledRows].
    rewrite Z.add_0_l, Z2Nat.id by lia. change (Z.of_nat 1) with 1. lia. }
  assert (HB' : forall r c,
            zeroRows (Z.to_nat k) 0 w R r c
            = if (0 <=? r) && (r <? k) && (0 <=? c) && (c <? w)
              then 0 else R r c).
  { intros r c. rewrite zeroRows_spec, Z2Nat.id by lia. reflexivity. }
  split; [ exact Hcnt | ].
  split; [ reflexivity | ].
  split; [ | split; [ | split ] ].
  - (* surviving rows *)
    intros r Hr Hfull.
    assert (Hbit : Z.testbit FL (h - 1 - r) = false).
    { destruct (Z.eq_dec (h - 1 - r) 31) as [-> | Hne]; [ exact F3 | ].
      rewrite F1 by lia. rewrite <- Hfull. f_equal. lia. }
    destruct (Hrow r Hr Hbit) as [Hlow Hcopy]. rewrite <- Hlow.
    pose proof (Hsplit r Hr) as Hs. rewrite Hfull, <- Hlow in Hs.
    pose proof (filledRows_bounds B w (Z.to_nat r) 0).
    pose proof (lowBits_bounds (Z.to_nat (h - 1 - r)) FL).
    split; [ lia | ].
    intros c Hc. rewrite HB'.
    destruct (Z.ltb_spec (r + lowBits FL (Z.to_nat (h - 1 - r))) k); [ lia | ].
    rewrite andb_false_r. cbn [andb]. apply Hcopy. exact Hc.
  - (* the top rows *)
    intros r c Hr Hc. rewrite HB'.
    destruct (Z.leb_spec 0 r); destruct (Z.ltb_spec r k);
      destruct (Z.leb_spec 0 c); destruct (Z.ltb_spec c w);
      cbn [andb]; (reflexivity || lia).
  - (* outside the window *)
    intros r c Hout. rewrite HB'.
    destruct (Z.leb_spec 0 r); destruct (Z.ltb_spec r k);
      destruct (Z.leb_spec 0 c); destruct (Z.ltb_spec c w);
      cbn [andb]; try lia; apply copyRows_frame; lia.
  - (* no full row is left *)
    intros Hw r Hr.
    destruct (Z.lt_ge_cases r k) as [Hlt | Hge].
    + destruct (fullRow (zeroRows (Z.to_nat k) 0 w R) w r) eqn:Hf;
        [ | reflexivity ].
      rewrite fullRow_iff in Hf. exfalso. apply (Hf 0); [ lia | ].
      rewrite HB'.
      destruct (Z.leb_spec 0 r); destruct (Z.ltb_spec r k);
        destruct (Z.ltb_spec 0 w); cbn [andb]; (reflexivity || lia).
    + assert (Hle : lowBits FL n <= k).
      { rewrite Hcnt.
        pose proof (lowBits_le_filledRows B w n FL (h - 1)) as Hl.
        replace (h - 1 - Z.of_nat n + 1) with 0 in Hl by lia.
        apply Hl. intros i Hi. apply F2. lia. }
      destruct (dest_onto n FL (h - 1) r) as (j & Hj & Hbit & Hd); [ lia | ].
      assert (Hr' : 0 <= h - 1 - Z.of_nat j < h) by lia.
      destruct (Hrow (h - 1 - Z.of_nat j) Hr') as [Hlow Hcopy].
      { rewrite <- Hbit. f_equal. lia. }
      replace (Z.to_nat (h - 1 - (h - 1 - Z.of_nat j))) with j in * by lia.
      replace (h - 1 - Z.of_nat j + lowBits FL j) with r in Hcopy by lia.
      rewrite (fullRow_ext B _ w (h - 1 - Z.of_nat j) r).
      * destruct (Z.eq_dec (Z.of_nat j) 31) as [H31 | Hne].
        -- destruct (fullRow B w (h - 1 - Z.of_nat j)) eqn:Hf; [ | reflexivity ].
           pose proof (Hsplit (h - 1 - Z.of_nat j) Hr') as Hs.
           rewrite Hf in Hs.
           replace (Z.to_nat (h - 1 - (h - 1 - Z.of_nat j))) with j in Hs by lia.
           rewrite <- Hlow in Hs.
           pose proof (filledRows_bounds B w (Z.to_nat (h - 1 - Z.of_nat j)) 0).
           lia.
        -- rewrite <- F1 by lia. exact Hbit.
      * intros c Hc. rewrite HB'.
        destruct (Z.ltb_spec r k); [ lia | ].
        rewrite andb_false_r. cbn [andb]. apply Hcopy. exact Hc.
Qed.

(** ** The hard-drop probe *)

Section HardDropFacts.

Context {E : Externs}.


(** On a field without columns every cell is outside the field, so every
    piece collides wherever it is. *)
Lemma isCollision_no_columns (f : FSGame) (px py th : FSInt) :
  piece f <> FS_NONE -> fieldWidth f <= 0 ->
  isCollision f px py th = true.
Proof.
  intros Hp Hw. unfold isCollision, fsPieceToBlocks.
  set (k := Z.land (th + entryTheta (rotationSystems (rotationSystem f)) (piece f)) 3).
  assert (Hk : 0 <= k < 4).
  { subst k. change 3 with (Z.ones 2). rewrite Z.land_ones by lia.
    apply Z.mod_pos_bound. reflexivity. }
  assert (Hocc : forall cx cy, isOccupied f cx cy = true).
  { intros cx cy. unfold isOccupied.
    destruct (Z.ltb_spec cx 0); [ reflexivity | ].
    destruct (Z.geb_spec cx (fieldWidth f)); [ reflexivity | lia ]. }
  assert (Hcases : Z.to_nat k = 0%nat \/ Z.to_nat k = 1%nat
                   \/ Z.to_nat k = 2%nat \/ Z.to_nat k = 3%nat) by lia.
  destruct (piece f); try (now elim Hp);
    destruct Hcases as [-> | [-> | [-> | ->]]];
    cbn [pieceOffsets nth map existsb i2_x i2_y];
    rewrite Hocc; reflexivity.
Qed.

(** Hence a spawn on such a field ends the game: no piece ever falls,
    lands or locks there, and [clearLines] is not reached. *)
Lemma spawnPiece_no_columns (f : FSGame) :
  hd FS_NONE (nextPiece f) <> FS_NONE -> fieldWidth f <= 0 ->
  state (spawnPiece f) = FSS_GAMEOVER.
Proof.
  intros Hp Hw. unfold spawnPiece.
  assert (Hp' : piece (newPiece f) <> FS_NONE).
  { unfold newPiece. fs_simpl.
    destruct (fsNextRandomPiece (rand f)). exact Hp. }
  assert (Hw' : fieldWidth (newPiece f) <= 0).
  { unfold newPiece. fs_simpl.
    destruct (fsNextRandomPiece (rand f)). exact Hw. }
  revert Hp' Hw'. generalize (newPiece f) as g. intros g Hp' Hw'.
  rewrite (isCollision_no_columns g _ _ _ Hp' Hw'). reflexivity.
Qed.



End HardDropFacts.

(** ** The command line *)

(** An argument that does not begin with ['-'] ends the parser with
    [exit(1)]: the test that guards the replay branch asks for a leading
    "-" and a leading "--" instead of their absence. *)
Lemma parseArgs_plain_argument (opt : string) (rest : list string)
  (o : FSOptions) :
  beginsWithDash opt = false ->
  parseArgs (opt :: rest) o = Exited 1 (PrintUnknownArgument opt).
Proof.
  intros H. destruct opt as [| c r]; [ reflexivity | ].
  cbn [beginsWithDash] in H. apply Z.eqb_neq in H.
  assert (Hc : (45 =? charCode c) = false) by (apply Z.eqb_neq; lia).
  assert (Hd : (45 - charCode c =? 0) = false) by (apply Z.eqb_neq; lia).
  cbn [parseArgs strcmp strncmp].
  change (charCode "-") with 45. rewrite Hc, Hd. reflexivity.
Qed.

(** An argument that begins with "--" and is neither "--no-ini" nor
    "--help" is taken for the replay file. *)
Lemma parseArgs_double_dash (r : string) (rest : list string) (o : FSOptions) :
  strcmp "--no-ini" (String "-" (String "-" r)) <> 0 ->
  strcmp "--help" (String "-" (String "-" r)) <> 0 ->
  parseArgs (String "-" (String "-" r) :: rest) o
  = parseArgs rest
      (mkFSOptions (verbosity o) (no_ini o) (Some (String "-" (String "-" r)))).
Proof.
  intros H1 H2. apply Z.eqb_neq in H1, H2.
  cbn [parseArgs]. rewrite H1, H2. reflexivity.
Qed.

(** C9, where the code departs from it.  A replay file name given on the
    command line is rejected with "Unknown argument" and exit code 1,
    while an unknown flag that begins with "--" is stored as the replay
    file name and the parser returns. *)
Theorem fsParseOptString_replay_branch :
  fsParseOptString ["faststack"%string; "game.replay"%string]
  = Exited 1 (PrintUnknownArgument "game.replay")
  /\ fsParseOptString ["faststack"%string; "--demo"%string]
     = Parsed (mkFSOptions 0 false (Some "--demo"%string))
  /\ fsParseOptString ["faststack"%string; "-x"%string]
     = Exited 1 (PrintUnknownArgument "-x").
Proof.
  split; [ vm_compute; reflexivity | ].
  split; vm_compute; reflexivity.
Qed.

(** ** The scenarios *)

Lemma scenario_spawned_tick :
  @fsGameTick scenario scenario_reset noInput = Returned scenario_spawned.
Proof. vm_compute. reflexivity. Qed.

Lemma scenario_dropped_tick :
  @fsGameTick scenario scenario_spawned (hardDropInput 18)
  = Returned scenario_dropped.
Proof. vm_compute. reflexivity. Qed.

Lemma scenario_locked_tick :
  @fsGameTick scenario scenario_dropped noInput = Returned scenario_locked.
Proof. vm_compute. reflexivity. Qed.

(** C1, as the code has it.  After a reset on an empty 10x20 field with
    gravity 0 and I the piece dealt, the first tick spawns the piece at
    column 4, row 0 (state FALLING, nothing placed).  A tick with
    HARD_DROP set and the drop distance, 18 rows, as input gravity moves
    the piece to [hardDropY] and leaves the state LINES with nothing
    placed yet.  The tick after it locks the piece and clears lines:
    [blocksPlaced = 1], [linesCleared = 0], row 19 holds 4 consecutive
    filled cells starting at column 4, every other cell of the field is
    empty, and the state is ARE. *)
Theorem hard_drop_scenario :
  @fsGameTick scenario scenario_reset noInput = Returned scenario_spawned
  /\ (state scenario_spawned, piece scenario_spawned, x scenario_spawned,
      y scenario_spawned, hardDropY scenario_spawned,
      blocksPlaced scenario_spawned)
     = (FSS_FALLING, FS_I, 4, 0, 18, 0)
  /\ @fsGameTick scenario scenario_spawned (hardDropInput 18)
     = Returned scenario_dropped
  /\ (state scenario_dropped, y scenario_dropped,
      blocksPlaced scenario_dropped)
     = (FSS_LINES, 18, 0)
  /\ @fsGameTick scenario scenario_dropped noInput = Returned scenario_locked
  /\ (state scenario_locked, blocksPlaced scenario_locked,
      linesCleared scenario_locked)
     = (FSS_ARE, 1, 0)
  /\ map (b scenario_locked 19) [0; 1; 2; 3; 4; 5; 6; 7; 8; 9]
     = [0; 0; 0; 0; 16; 16; 16; 16; 0; 0]
  /\ forallb
       (fun r => forallb (fun c => b scenario_locked (Z.of_nat r) (Z.of_nat c) =? 0)
                         (seq 0 10))
       (seq 0 19)
     = true.
Proof.
  split; [ exact scenario_spawned_tick | ].
  split; [ vm_compute; reflexivity | ].
  split; [ exact scenario_dropped_tick | ].
  split; [ vm_compute; reflexivity | ].
  split; [ exact scenario_locked_tick | ].
  split; [ vm_compute; reflexivity | ].
  split; vm_compute; reflexivity.
Qed.

(** C1 as stated fails: the single tick with HARD_DROP after the reset
    only spawns the piece, and the same input given to the spawned piece
    (all other inputs zero) leaves it at row 0 in state LINES; in neither
    case is a block placed or row 19 touched within the call. *)
Lemma hard_drop_single_tick_counterexample :
  (let f := @after scenario scenario_reset [hardDropInput 0] in
   @fsGameTick scenario scenario_reset (hardDropInput 0) = Returned f
   /\ (state f, blocksPlaced f, b f 19 3, b f 19 4) = (FSS_FALLING, 0, 0, 0))
  /\ (let f := @after scenario scenario_spawned [hardDropInput 0] in
      @fsGameTick scenario scenario_spawned (hardDropInput 0) = Returned f
      /\ (state f, y f, blocksPlaced f, b f 19 3, b f 19 4)
         = (FSS_LINES, 0, 0, 0, 0)).
Proof.
  split; (split; [ vm_compute; reflexivity | vm_compute; reflexivity ]).
Qed.

(** ** The theorems at work on the scenarios *)

(** [clearLines_compacts] on a field of ten columns whose bottom row is
    full. *)
Lemma clearLines_compacts_witness :
  fieldHeight prefilled <= 32
  /\ 0 < fieldWidth prefilled
  /\ fst (clearLines prefilled)
     = filledRows (b prefilled) (fieldWidth prefilled) 0
         (Z.to_nat (fieldHeight prefilled))
  /\ (forall r,
        0 <= r < fieldHeight prefilled ->
        fullRow (b (snd (clearLines prefilled))) (fieldWidth prefilled) r
        = false).
Proof.
  assert (H : fieldHeight prefilled <= 32) by (vm_compute; discriminate).
  assert (Hw : 0 < fieldWidth prefilled) by (vm_compute; reflexivity).
  pose proof (clearLines_compacts prefilled H) as (H1 & _ & _ & _ & _ & H6).
  exact (conj H (conj Hw (conj H1 (H6 Hw)))).
Defined.

(** The guard on the width in [clearLines_compacts] cannot be dropped for
    a direct call: on a field without columns every row passes the test
    for a full row, [clearLines] counts all 20 of them, and after the call
    row 0 still passes the test.  A running game never makes that call:
    its first tick ends in GAMEOVER. *)
Lemma clearLines_no_columns :
  fieldHeight narrow_reset <= 32
  /\ fst (clearLines narrow_reset) = 20
  /\ fullRow (b (snd (clearLines narrow_reset))) (fieldWidth narrow_reset) 0
     = true
  /\ option_map state
       (match @fsGameTick scenario narrow_reset noInput with
        | Returned f => Some f
        | _ => None
        end)
     = Some FSS_GAMEOVER.
Proof.
  split; [ vm_compute; discriminate | ].
  split; [ vm_compute; reflexivity | ].
  split; vm_compute; reflexivity.
Qed.

(** The cast at work.  With an input gravity of [INT_MIN] the spawned
    piece is taken to row [INT_MIN], the least value the cast is defined
    for; the same input once more takes [actualY] to [-2^32], whose cast
    C leaves undefined, and so is the tick. *)
Lemma cast_out_of_range_scenario :
  option_map (fun f => (state f, y f, actualY f))
    (match @fsGameTick scenario scenario_spawned
             (gravityInput Float32.INT_MIN) with
     | Returned f => Some f
     | _ => None
     end)
  = Some (FSS_FALLING, Float32.INT_MIN, S754_finite true 8388608 8)
  /\ @fsGameTick scenario
       (@after scenario scenario_spawned [gravityInput Float32.INT_MIN])
       (gravityInput Float32.INT_MIN)
     = Undefined.
Proof. split; vm_compute; reflexivity. Qed.

(** [doPieceGravity_refines] on the spawned piece, one row of input
    gravity. *)
Lemma doPieceGravity_refines_witness :
  Float32.fits_int (gravitySum scenario_spawned 1) = true
  /\ Float32.nonneg (gravitySum scenario_spawned 1) = true
  /\ doPieceGravity scenario_spawned 1
     = Some (applyGravityWith Float32.trunc scenario_spawned 1)
  /\ doPieceGravity scenario_spawned 1 = Some (applyGravity scenario_spawned 1).
Proof.
  assert (Hf : Float32.fits_int (gravitySum scenario_spawned 1) = true)
    by (vm_compute; reflexivity).
  assert (H : Float32.nonneg (gravitySum scenario_spawned 1) = true)
    by (vm_compute; reflexivity).
  pose proof (doPieceGravity_refines scenario_spawned 1 (or_intror Hf))
    as [H1 H2].
  exact (conj Hf (conj H (conj H1 (H2 (or_intror H))))).
Defined.

(** C3 as stated fails when [actualY] goes below zero: with half a row of
    gravity per tick and an input gravity of -1, [actualY] becomes -1/2,
    which is below [hardDropY] and well within the range of the cast; the
    code sets [y] to 0 while the floor of [actualY] is -1, the row that
    [applyGravity] assigns. *)
Lemma doPieceGravity_floor_counterexample :
  Float32.ge (gravitySum slow_spawned (-1))
             (Float32.of_int (hardDropY slow_spawned)) = false
  /\ Float32.fits_int (gravitySum slow_spawned (-1)) = true
  /\ option_map actualY (doPieceGravity slow_spawned (-1))
     = Some (S754_finite true 8388608 (-24))
  /\ option_map y (doPieceGravity slow_spawned (-1)) = Some 0
  /\ option_map (fun f => Float32.floor (actualY f))
       (doPieceGravity slow_spawned (-1)) = Some (-1)
  /\ y (applyGravity slow_spawned (-1)) = -1
  /\ doPieceGravity slow_spawned (-1) <> Some (applyGravity slow_spawned (-1)).
Proof.
  split; [ vm_compute; reflexivity | ].
  split; [ vm_compute; reflexivity | ].
  split; [ vm_compute; reflexivity | ].
  split; [ vm_compute; reflexivity | ].
  split; [ vm_compute; reflexivity | ].
  split; [ vm_compute; reflexivity | ].
  intros H. apply (f_equal (option_map y)) in H. vm_compute in H.
  discriminate H.
Qed.

(** [y_is_row_of_actualY] on an idle tick of the spawned piece. *)
Lemma y_is_row_of_actualY_witness :
  @fsGameTick scenario scenario_spawned noInput = Returned scenario_idle
  /\ (state scenario_idle = FSS_FALLING \/ state scenario_idle = FSS_LANDED)
  /\ Z.abs (hardDropY scenario_idle) < 2 ^ 24
  /\ Float32.to_int (actualY scenario_idle) = Some (y scenario_idle)
  /\ Float32.fits_int (actualY scenario_idle) = true
  /\ (Float32.nonneg (actualY scenario_idle) = true ->
      y scenario_idle = Float32.floor (actualY scenario_idle)).
Proof.
  assert (H1 : @fsGameTick scenario scenario_spawned noInput
               = Returned scenario_idle) by (vm_compute; reflexivity).
  assert (H2 : state scenario_idle = FSS_FALLING
               \/ state scenario_idle = FSS_LANDED)
    by (left; vm_compute; reflexivity).
  assert (H4 : Z.abs (hardDropY scenario_idle) < 2 ^ 24)
    by (vm_compute; reflexivity).
  exact (conj H1 (conj H2 (conj H4
           (@y_is_row_of_actualY scenario scenario_spawned noInput
              scenario_idle H1 H2 H4)))).
Defined.

(** C4 as stated fails for the same input: the tick returns in FALLING
    with [y = 0] and [actualY = -1/2], whose floor is -1. *)
Lemma y_floor_counterexample :
  @fsGameTick scenario slow_spawned (gravityInput (-1))
  = Returned (@after scenario slow_spawned [gravityInput (-1)])
  /\ state (@after scenario slow_spawned [gravityInput (-1)]) = FSS_FALLING
  /\ y (@after scenario slow_spawned [gravityInput (-1)]) = 0
  /\ Float32.floor (actualY (@after scenario slow_spawned [gravityInput (-1)]))
     = -1.
Proof.
  split; [ vm_compute; reflexivity | ].
  split; [ vm_compute; reflexivity | ].
  split; vm_compute; reflexivity.
Qed.


(** [are_countdown] on the game that has just locked its piece. *)
Lemma are_countdown_witness :
  state scenario_locked = FSS_ARE
  /\ (forall i,
        TICKS scenario_locked (areDelay scenario_locked)
        < areTimer scenario_locked ->
        exists f',
          @fsGameTick scenario scenario_locked i = Returned f'
          /\ areTimer f' = 0
          /\ piece f' = hd FS_NONE (nextPiece scenario_locked)
          /\ (state f' = FSS_FALLING \/ state f' = FSS_GAMEOVER)).
Proof.
  assert (H : state scenario_locked = FSS_ARE) by (vm_compute; reflexivity).
  exact (conj H (proj1 (proj2 (@are_countdown scenario scenario_locked H)))).
Defined.

(** C6 as stated fails with an entry delay of one tick: the game is in
    ARE with the timer at 1, the incremented timer, 2, exceeds
    ticks(areDelay) = 1, and yet the tick ends in ARE with no piece
    spawned. *)
Lemma are_incremented_timer_counterexample :
  state delayed_locked = FSS_ARE
  /\ TICKS delayed_locked (areDelay delayed_locked)
     < areTimer delayed_locked + 1
  /\ @fsGameTick scenario delayed_locked noInput
     = Returned (@after scenario delayed_locked [noInput])
  /\ (state (@after scenario delayed_locked [noInput]),
      piece (@after scenario delayed_locked [noInput]),
      areTimer (@after scenario delayed_locked [noInput]))
     = (FSS_ARE, FS_NONE, 2).
Proof.
  split; [ vm_compute; reflexivity | ].
  split; [ vm_compute; reflexivity | ].
  split; vm_compute; reflexivity.
Qed.

(** [doRotate_false_no_effect] on the I piece lying on the floor, which
    cannot turn upright. *)
Lemma doRotate_false_no_effect_witness :
  @doRotate scenario scenario_dropped FSROT_CLOCKWISE
  = Some (false, scenario_dropped)
  /\ (scenario_dropped = scenario_dropped
      /\ x scenario_dropped = x scenario_dropped
      /\ y scenario_dropped = y scenario_dropped
      /\ theta scenario_dropped = theta scenario_dropped
      /\ (forall r c, b scenario_dropped r c = b scenario_dropped r c)).
Proof.
  assert (H : @doRotate scenario scenario_dropped FSROT_CLOCKWISE
              = Some (false, scenario_dropped)) by (vm_compute; reflexivity).
  exact (conj H (@doRotate_false_no_effect scenario scenario_dropped
                   FSROT_CLOCKWISE scenario_dropped H)).
Defined.

(** * Further properties of the engine *)

(** ** What a tick leaves alone *)

Lemma quiet_set_rand (v : RandState) (f : FSGame) :
  quiet (set_rand v f) = quiet f.
Proof. reflexivity. Qed.

Lemma quiet_set_piece (v : PieceType) (f : FSGame) :
  quiet (set_piece v f) = quiet f.
Proof. reflexivity. Qed.

Lemma quiet_set_x (v : FSInt) (f : FSGame) :
  quiet (set_x v f) = quiet f.
Proof. reflexivity. Qed.

Lemma quiet_set_y (v : FSInt) (f : FSGame) :
  quiet (set_y v f) = quiet f.
Proof. reflexivity. Qed.

Lemma quiet_set_actualY (v : float32) (f : FSGame) :
  quiet (set_actualY v f) = quiet f.
Proof. reflexivity. Qed.

Lemma quiet_set_hardDropY (v : FSInt) (f : FSGame) :
  quiet (set_hardDropY v f) = quiet f.
Proof. reflexivity. Qed.

Lemma quiet_set_theta (v : FSInt) (f : FSGame) :
  quiet (set_theta v f) = quiet f.
Proof. reflexivity. Qed.

Lemma quiet_set_finesse (v : FSLong) (f : FSGame) :
  quiet (set_finesse v f) = quiet f.
Proof. reflexivity. Qed.

Lemma quiet_set_finessePieceDirection (v : FSLong) (f : FSGame) :
  quiet (set_finessePieceDirection v f) = quiet f.
Proof. reflexivity. Qed.

Lemma quiet_set_finessePieceRotation (v : FSLong) (f : FSGame) :
  quiet (set_finessePieceRotation v f) = quiet f.
Proof. reflexivity. Qed.

Lemma quiet_set_areTimer (v : FSLong) (f : FSGame) :
  quiet (set_areTimer v f) = quiet f.
Proof. reflexivity. Qed.

Lemma quiet_set_lockTimer (v : FSLong) (f : FSGame) :
  quiet (set_lockTimer v f) = quiet f.
Proof. reflexivity. Qed.

Lemma quiet_set_state (v : GameState) (f : FSGame) :
  quiet (set_state v f) = quiet f.
Proof. reflexivity. Qed.

Lemma quiet_set_holdAvailable (v : bool) (f : FSGame) :
  quiet (set_holdAvailable v f) = quiet f.
Proof. reflexivity. Qed.

Lemma quiet_set_holdPiece (v : PieceType) (f : FSGame) :
  quiet (set_holdPiece v f) = quiet f.
Proof. reflexivity. Qed.

Ltac quiet_setters :=
  rewrite ?quiet_set_rand,
    ?quiet_set_piece,
    ?quiet_set_x,
    ?quiet_set_y,
    ?quiet_set_actualY,
    ?quiet_set_hardDropY,
    ?quiet_set_theta,
    ?quiet_set_finesse,
    ?quiet_set_finessePieceDirection,
    ?quiet_set_finessePieceRotation,
    ?quiet_set_areTimer,
    ?quiet_set_lockTimer,
    ?quiet_set_state,
    ?quiet_set_holdAvailable,
    ?quiet_set_holdPiece.

Section FrameFacts.

Context {E : Externs}.

Lemma shiftQueue_length (q : list PieceType) :
  List.length (shiftQueue q) = List.length q.
Proof.
  destruct q as [ | a t ]; [ reflexivity | ].
  unfold shiftQueue. rewrite length_app. cbn [List.length]. lia.
Qed.

Lemma setLastSlot_length (p : PieceType) (q : list PieceType) :
  List.length (setLastSlot p q) = List.length q.
Proof.
  destruct q as [ | a t ]; [ reflexivity | ].
  unfold setLastSlot. rewrite length_app.
  assert (H : a :: t <> []) by discriminate.
  rewrite (app_removelast_last a H) at 2. rewrite length_app. reflexivity.
Qed.

Lemma quiet_set_nextPiece (q : list PieceType) (f : FSGame) :
  List.length q = List.length (nextPiece f) ->
  quiet (set_nextPiece q f) = quiet f.
Proof. intros H. unfold quiet, kept. fs_simpl. rewrite H. reflexivity. Qed.

Lemma newPiece_quiet (f : FSGame) : quiet (newPiece f) = quiet f.
Proof.
  unfold newPiece.
  cbv zeta.
  match goal with
  | |- context [fsNextRandomPiece ?r] =>
      destruct (fsNextRandomPiece r) as [p r']
  end.
  quiet_setters.
  rewrite quiet_set_nextPiece by apply setLastSlot_length.
  quiet_setters.
  rewrite quiet_set_nextPiece by apply shiftQueue_length.
  quiet_setters. reflexivity.
Qed.

Lemma updateHardDropY_quiet (f : FSGame) : quiet (updateHardDropY f) = quiet f.
Proof. reflexivity. Qed.

Lemma holdStep_quiet (f : FSGame) (i : FSInput) :
  quiet (holdStep f i) = quiet f.
Proof.
  unfold holdStep.
  destruct (hasFlag i FSI_HOLD && holdAvailable f); [ | reflexivity ].
  cbv zeta.
  destruct (holdPiece (set_holdAvailable false f));
    rewrite ?updateHardDropY_quiet; quiet_setters;
    rewrite ?newPiece_quiet; quiet_setters; reflexivity.
Qed.

Lemma finesseStep_quiet (f : FSGame) (i : FSInput) :
  quiet (finesseStep f i) = quiet f.
Proof.
  unfold finesseStep.
  destruct (hasFlag i FSI_FINESSE_DIRECTION),
           (hasFlag i FSI_FINESSE_ROTATION); reflexivity.
Qed.

Lemma rotateStep_quiet (f : FSGame) (i : FSInput) (f' : FSGame) (m : bool) :
  rotateStep f i = Some (f', m) -> quiet f' = quiet f.
Proof.
  unfold rotateStep.
  destruct (negb (rotation i =? 0)).
  - destruct (doRotate f (rotation i)) as [ [r g] | ] eqn:Hrot;
      [ | discriminate ].
    intros H.
    assert (g = f') by (destruct r; congruence). subst g.
    destruct (doRotate_cases _ _ _ _ Hrot) as [-> | (nd & kx & ky & ->)];
      reflexivity.
  - intros H. injection H as <- _. reflexivity.
Qed.

Lemma moveStep_quiet (f : FSGame) (n : FSInt) (moved : bool) :
  quiet (fst (moveStep f n moved)) = quiet f.
Proof.
  destruct (moveStep_only_x f n moved) as (v & m' & ->). reflexivity.
Qed.

Lemma doPieceGravity_quiet (f : FSGame) (g : FSInt) (f' : FSGame) :
  doPieceGravity f g = Some f' -> quiet f' = quiet f.
Proof.
  intros H. destruct (doPieceGravity_some _ _ _ H) as [-> _].
  unfold applyGravityWith.
  destruct (Float32.ge _ _).
  - reflexivity.
  - destruct (_ && _); reflexivity.
Qed.

Lemma settleStep_quiet (f : FSGame) (i : FSInput) (moved : bool)
  (f' : FSGame) :
  settleStep f i moved = Some f' -> quiet f' = quiet f.
Proof.
  unfold settleStep.
  set (f1 := if moved then _ else f).
  assert (H1 : quiet f1 = quiet f).
  { subst f1. destruct moved; [ | reflexivity ].
    destruct (lockStyle (updateHardDropY f)); reflexivity. }
  clearbody f1.
  destruct (doPieceGravity f1 (inputGravity i)) as [f2 | ] eqn:Hd;
    [ | discriminate ].
  apply doPieceGravity_quiet in Hd. rewrite <- H1, <- Hd.
  intros H. injection H as <-.
  destruct (hasFlag i FSI_HARD_DROP || (lockTimer f2 >? TICKS f2 (lockDelay f2))).
  - reflexivity.
  - destruct (state f2); reflexivity.
Qed.

Lemma activeStep_quiet (f : FSGame) (i : FSInput) (f' : FSGame) :
  activeStep f i = Settled f' -> quiet f' = quiet f.
Proof.
  unfold activeStep.
  destruct (rotateStep _ i) as [ [g m] | ] eqn:Hrot; [ | discriminate ].
  apply rotateStep_quiet in Hrot.
  rewrite finesseStep_quiet, holdStep_quiet in Hrot.
  pose proof (moveStep_quiet g (movement i) m) as Hmv.
  destruct (moveStep g (movement i) m) as [h m'].
  cbn [fst] in Hmv.
  destruct (settleStep h i m') as [k | ] eqn:Hs; [ | discriminate ].
  intros H. injection H as <-.
  apply settleStep_quiet in Hs. congruence.
Qed.

Lemma spawnPiece_quiet (f : FSGame) : quiet (spawnPiece f) = quiet f.
Proof.
  unfold spawnPiece.
  rewrite <- (newPiece_quiet f).
  generalize (newPiece f) as g. intros g.
  destruct (isCollision g (x g) (y g) (theta g)); reflexivity.
Qed.

Lemma passARE_quiet (f : FSGame) : quiet (passARE f) = quiet f.
Proof.
  unfold passARE.
  destruct (areTimer f >? TICKS f (areDelay f)); [ | reflexivity ].
  rewrite spawnPiece_quiet. reflexivity.
Qed.

Lemma quiet_inv (f g : FSGame) :
  quiet f = quiet g ->
  kept f = kept g /\ b f = b g /\ blocksPlaced f = blocksPlaced g
  /\ linesCleared f = linesCleared g.
Proof.
  intros H.
  split; [ exact (f_equal (fun q => fst (fst (fst q))) H) | ].
  split; [ exact (f_equal (fun q => snd (fst (fst q))) H) | ].
  split; [ exact (f_equal (fun q => snd (fst q)) H) | ].
  exact (f_equal snd H).
Qed.

Lemma kept_inv (f g : FSGame) :
  kept f = kept g ->
  options f = options g /\ totalTicks f = totalTicks g
  /\ lastInput f = lastInput g
  /\ List.length (nextPiece f) = List.length (nextPiece g).
Proof.
  intros H.
  split; [ exact (f_equal (fun q => fst (fst (fst q))) H) | ].
  split; [ exact (f_equal (fun q => snd (fst (fst q))) H) | ].
  split; [ exact (f_equal (fun q => snd (fst q)) H) | ].
  exact (f_equal snd H).
Qed.

Lemma kept_of_quiet (f g : FSGame) : quiet f = quiet g -> kept f = kept g.
Proof. intros H. apply (quiet_inv _ _ H). Qed.

Lemma lockPiece_kept (f : FSGame) :
  kept (lockPiece f) = kept f
  /\ blocksPlaced (lockPiece f) = blocksPlaced f + 1
  /\ linesCleared (lockPiece f) = linesCleared f.
Proof.
  unfold lockPiece. cbv zeta.
  split; [ reflexivity | split; reflexivity ].
Qed.

Lemma clearLines_kept (f : FSGame) :
  kept (snd (clearLines f)) = kept f
  /\ blocksPlaced (snd (clearLines f)) = blocksPlaced f
  /\ linesCleared (snd (clearLines f)) = linesCleared f.
Proof.
  unfold clearLines. cbn [snd].
  split; [ reflexivity | split; reflexivity ].
Qed.

(** The count [clearLines] returns is the number of full rows, whatever
    the height of the field. *)
Lemma clearLines_count (f : FSGame) :
  fst (clearLines f)
  = filledRows (b f) (fieldWidth f) 0 (Z.to_nat (fieldHeight f)).
Proof.
  unfold clearLines. cbn [fst].
  destruct (scanRows_spec (b f) (fieldWidth f) (Z.to_nat (fieldHeight f))
              0 0 0) as [H _].
  - reflexivity.
  - intros i _. apply Z.testbit_0_l.
  - rewrite H. apply Z.add_0_l.
Qed.

Lemma lockAndClear_kept (f : FSGame) :
  kept (lockAndClear f) = kept f
  /\ blocksPlaced (lockAndClear f) = blocksPlaced f + 1
  /\ linesCleared (lockAndClear f)
     = linesCleared f + fst (clearLines (set_piece FS_NONE (lockPiece f))).
Proof.
  unfold lockAndClear. cbv zeta.
  destruct (lockPiece_kept f) as (H1 & H2 & H3).
  revert H1 H2 H3. generalize (lockPiece f) as g. intros g H1 H2 H3.
  destruct (clearLines_kept (set_piece FS_NONE g)) as (H4 & H5 & H6).
  revert H4 H5 H6.
  generalize (fst (clearLines (set_piece FS_NONE g))) as n.
  generalize (snd (clearLines (set_piece FS_NONE g))) as h.
  intros h n H4 H5 H6.
  split; [ | split ].
  - transitivity (kept h); [ reflexivity | ].
    rewrite H4. exact H1.
  - transitivity (blocksPlaced h); [ reflexivity | ].
    rewrite H5. exact H2.
  - fs_simpl. rewrite H3. reflexivity.
Qed.

Lemma passLINES_kept (f : FSGame) :
  kept (passLINES f) = kept f
  /\ blocksPlaced (passLINES f) = blocksPlaced f + 1
  /\ linesCleared (passLINES f)
     = linesCleared f + fst (clearLines (set_piece FS_NONE (lockPiece f))).
Proof.
  unfold passLINES. cbv zeta.
  destruct (lockAndClear_kept f) as (H1 & H2 & H3).
  revert H1 H2 H3.
  generalize (fst (clearLines (set_piece FS_NONE (lockPiece f)))) as n.
  generalize (lockAndClear f) as g. intros g n H1 H2 H3.
  assert (Hq := passARE_quiet g).
  destruct (state g); try (split; [ exact H1 | split; [ exact H2 | exact H3 ] ]).
  revert Hq. generalize (passARE g) as h. intros h Hq.
  destruct (quiet_inv _ _ Hq) as (Hk & _ & Hbp & Hl).
  split; [ congruence | split; congruence ].
Qed.

(** What the dispatch leaves alone, by the state it starts in. *)
Lemma beginTick_frame (f : FSGame) (i : FSInput) (f' : FSGame) :
  beginTick 3 f i = Returned f' ->
  kept f' = kept f
  /\ (state f <> FSS_LINES -> quiet f' = quiet f)
  /\ (state f = FSS_LINES ->
      blocksPlaced f' = blocksPlaced f + 1
      /\ linesCleared f'
         = linesCleared f + fst (clearLines (set_piece FS_NONE (lockPiece f)))).
Proof.
  rewrite beginTick_resolved.
  assert (Hq : forall g, quiet g = quiet f -> Returned g = Returned f' ->
               state f <> FSS_LINES ->
               kept f' = kept f
               /\ (state f <> FSS_LINES -> quiet f' = quiet f)
               /\ (state f = FSS_LINES ->
                   blocksPlaced f' = blocksPlaced f + 1
                   /\ linesCleared f'
                      = linesCleared f
                        + fst (clearLines (set_piece FS_NONE (lockPiece f))))).
  { intros g Hquiet Hg Hs. injection Hg as <-.
    split; [ apply kept_of_quiet; exact Hquiet | ].
    split; [ intros _; exact Hquiet | ].
    intros Hs'. now elim Hs. }
  destruct (state f) eqn:Hs;
    try (intros H; apply (Hq f eq_refl H); discriminate).
  - destruct (activeStep f i) as [g | | ] eqn:Ha; try discriminate.
    intros H. apply (Hq g (activeStep_quiet _ _ _ Ha) H). discriminate.
  - destruct (activeStep f i) as [g | | ] eqn:Ha; try discriminate.
    intros H. apply (Hq g (activeStep_quiet _ _ _ Ha) H). discriminate.
  - intros H. apply (Hq _ (passARE_quiet f) H). discriminate.
  - intros H. apply (Hq _ (spawnPiece_quiet f) H). discriminate.
  - intros H. injection H as <-.
    destruct (passLINES_kept f) as (H1 & H2 & H3).
    split; [ exact H1 | split; [ intros Hne; now elim Hne | ] ].
    intros _. split; [ exact H2 | exact H3 ].
Qed.

(** The same for a whole tick, which records the input first and counts
    itself last. *)
Lemma fsGameTick_frame (f : FSGame) (i : FSInput) (f' : FSGame) :
  fsGameTick f i = Returned f' ->
  options f' = options f
  /\ totalTicks f' = totalTicks f + 1
  /\ lastInput f' = i
  /\ List.length (nextPiece f') = List.length (nextPiece f)
  /\ (state f <> FSS_LINES ->
      b f' = b f /\ blocksPlaced f' = blocksPlaced f
      /\ linesCleared f' = linesCleared f)
  /\ (state f = FSS_LINES ->
      blocksPlaced f' = blocksPlaced f + 1
      /\ linesCleared f'
         = linesCleared f + fst (clearLines (set_piece FS_NONE (lockPiece f)))).
Proof.
  unfold fsGameTick.
  destruct (beginTick 3 (set_lastInput i f) i) as [g | | | ] eqn:Hb;
    try discriminate.
  intros H. injection H as <-.
  destruct (beginTick_frame _ _ _ Hb) as (Hk & Hq & Hl).
  destruct (kept_inv _ _ Hk) as (Ho & Ht & Hi & Hn).
  split; [ exact Ho | ].
  split; [ fs_simpl; rewrite Ht; reflexivity | ].
  split; [ exact Hi | ].
  split; [ exact Hn | ].
  split.
  - intros Hs. destruct (quiet_inv _ _ (Hq Hs)) as (_ & Hbf & Hbp & Hlc).
    split; [ exact Hbf | split; [ exact Hbp | exact Hlc ] ].
  - intros Hs. exact (Hl Hs).
Qed.


Lemma last_cons_default (A : Type) (l : list A) :
  forall a d d', last (a :: l) d = last (a :: l) d'.
Proof.
  induction l as [| c l IH]; intros a d d'; [ reflexivity | ].
  change (last (c :: l) d = last (c :: l) d'). apply IH.
Qed.

(** X1.  Every call of [fsGameTick] that returns adds exactly one to
    [totalTicks] and leaves its input in [lastInput], in every state, the
    ones that do nothing else included; so after a run of ticks
    [totalTicks] has grown by the number of calls and [lastInput] is the
    last input given. *)
Theorem runTicks_counts_ticks (inputs : list FSInput) :
  forall f f' : FSGame,
    runTicks f inputs = Returned f' ->
    totalTicks f' = totalTicks f + Z.of_nat (List.length inputs)
    /\ lastInput f' = last inputs (lastInput f).
Proof.
  induction inputs as [| i rest IH]; intros f f' Hrun; cbn [runTicks] in Hrun.
  - injection Hrun as <-. cbn [List.length last Z.of_nat].
    split; [ lia | reflexivity ].
  - destruct (fsGameTick f i) as [f1 | | | ] eqn:Ht; try discriminate Hrun.
    destruct (fsGameTick_frame _ _ _ Ht) as (_ & Hn & Hi & _).
    destruct (IH _ _ Hrun) as [H1 H2].
    split.
    + rewrite H1, Hn. cbn [List.length]. lia.
    + rewrite H2, Hi. destruct rest as [| j rest]; [ reflexivity | ].
      change (last (i :: j :: rest) (lastInput f))
        with (last (j :: rest) (lastInput f)).
      apply last_cons_default.
Qed.

(** X2.  No tick writes an option: the field's dimensions, [msPerTick],
    [areDelay], [lockStyle], [lockDelay], [rotationSystem], [gravity] and
    [goal] are after any run of ticks what they were before it. *)
Theorem runTicks_keeps_options (inputs : list FSInput) :
  forall f f' : FSGame,
    runTicks f inputs = Returned f' -> options f' = options f.
Proof.
  induction inputs as [| i rest IH]; intros f f' Hrun; cbn [runTicks] in Hrun.
  - injection Hrun as <-. reflexivity.
  - destruct (fsGameTick f i) as [f1 | | | ] eqn:Ht; try discriminate Hrun.
    destruct (fsGameTick_frame _ _ _ Ht) as (Ho & _).
    rewrite (IH _ _ Hrun). exact Ho.
Qed.


(** X4.  The field is written in LINES only: a tick that starts in any
    other state, whatever the input, returns with every cell, with
    [blocksPlaced] and with [linesCleared] as they were. *)
Theorem field_changes_only_in_LINES (f : FSGame) (i : FSInput) (f' : FSGame) :
  fsGameTick f i = Returned f' ->
  state f <> FSS_LINES ->
  b f' = b f /\ blocksPlaced f' = blocksPlaced f
  /\ linesCleared f' = linesCleared f.
Proof.
  intros Ht Hs.
  destruct (fsGameTick_frame _ _ _ Ht) as (_ & _ & _ & _ & Hq & _).
  exact (Hq Hs).
Qed.

(** X5.  The two counters never go down: over any run of ticks
    [linesCleared] does not decrease, and [blocksPlaced] grows by at most
    one per tick (by exactly one in a tick that starts in LINES). *)
Theorem counters_monotone (inputs : list FSInput) :
  forall f f' : FSGame,
    runTicks f inputs = Returned f' ->
    linesCleared f <= linesCleared f'
    /\ blocksPlaced f <= blocksPlaced f'
       <= blocksPlaced f + Z.of_nat (List.length inputs).
Proof.
  induction inputs as [| i rest IH]; intros f f' Hrun; cbn [runTicks] in Hrun.
  - injection Hrun as <-. cbn [List.length Z.of_nat]. lia.
  - destruct (fsGameTick f i) as [f1 | | | ] eqn:Ht; try discriminate Hrun.
    destruct (fsGameTick_frame _ _ _ Ht) as (_ & _ & _ & _ & Hq & Hl).
    destruct (IH _ _ Hrun) as (H1 & H2 & H3).
    assert (Hstep : linesCleared f <= linesCleared f1
                    /\ blocksPlaced f <= blocksPlaced f1 <= blocksPlaced f + 1).
    { destruct (state f) eqn:Hs;
        try (destruct Hq as (_ & -> & ->); [ discriminate | lia ]).
      destruct (Hl eq_refl) as [-> ->].
      rewrite clearLines_count.
      match goal with
      | |- context [filledRows ?bf ?w 0 ?n] =>
          pose proof (filledRows_bounds bf w n 0)
      end. lia. }
    cbn [List.length]. lia.
Qed.

End FrameFacts.

(** ** How a tick ends *)

Section TickShape.

Context {E : Externs}.

(** [isCollision] reads the piece, the field, its dimensions and the
    rotation system, and nothing else. *)
Lemma isCollision_ext (f g : FSGame) (px py th : FSInt) :
  piece f = piece g -> b f = b g -> fieldWidth f = fieldWidth g ->
  fieldHeight f = fieldHeight g -> rotationSystem f = rotationSystem g ->
  isCollision f px py th = isCollision g px py th.
Proof.
  intros Hp Hb Hw Hh Hr.
  unfold isCollision, fsPieceToBlocks, isOccupied.
  rewrite Hp, Hb, Hw, Hh, Hr. reflexivity.
Qed.





Lemma fsGameTick_idle (f : FSGame) (i : FSInput) :
  idleState (state f) = true ->
  fsGameTick f i = Returned (countTick (set_lastInput i f)).
Proof.
  intros Hs. unfold fsGameTick. rewrite beginTick_resolved.
  assert (H0 : state (set_lastInput i f) = state f) by reflexivity.
  revert H0. generalize (set_lastInput i f) as f0. intros f0 H0.
  rewrite H0. destruct (state f); try discriminate Hs; reflexivity.
Qed.

(** X7.  READY, GO, QUIT, GAMEOVER and UNKNOWN are final for the engine:
    a run of ticks started in one of them returns the same game with
    [totalTicks] advanced by the number of calls and [lastInput] replaced
    by the last input; the state, the field, the piece and every counter
    stay. *)
Theorem runTicks_idle (inputs : list FSInput) :
  forall f : FSGame,
    idleState (state f) = true ->
    runTicks f inputs
    = Returned
        (set_totalTicks (totalTicks f + Z.of_nat (List.length inputs))
           (set_lastInput (last inputs (lastInput f)) f)).
Proof.
  induction inputs as [| i rest IH]; intros f Hs; cbn [runTicks].
  - cbn [List.length last Z.of_nat]. rewrite Z.add_0_r.
    destruct f; reflexivity.
  - rewrite (fsGameTick_idle f i Hs).
    rewrite IH by exact Hs.
    assert (H1 : totalTicks (countTick (set_lastInput i f))
                 + Z.of_nat (List.length rest)
                 = totalTicks f + Z.of_nat (List.length (i :: rest))).
    { fs_simpl. cbn [List.length]. lia. }
    assert (H2 : last rest (lastInput (countTick (set_lastInput i f)))
                 = last (i :: rest) (lastInput f)).
    { fs_simpl. destruct rest as [| j rest]; [ reflexivity | ].
      change (last (i :: j :: rest) (lastInput f))
        with (last (j :: rest) (lastInput f)).
      clear. revert j. induction rest as [| c l IHl]; intros j;
        [ reflexivity | ].
      change (last (c :: l) i = last (c :: l) (lastInput f)). apply IHl. }
    rewrite H1, H2. destruct f; reflexivity.
Qed.

(** X8.  A tick in NEW_PIECE spawns in that very call and always
    returns: the head of the preview queue enters at column
    [fieldWidth / 2 - 1], row 0, rotation 0.  If it collides there the
    game is over in the same call (no further tick is needed to detect
    the top-out); otherwise the state is FALLING. *)
Theorem spawn_tick (f : FSGame) (i : FSInput) :
  state f = FSS_NEW_PIECE ->
  exists f',
    fsGameTick f i = Returned f'
    /\ piece f' = hd FS_NONE (nextPiece f)
    /\ (x f', y f', theta f') = (fieldWidth f ÷ 2 - 1, 0, 0)
    /\ state f'
       = (if isCollision f' (x f') (y f') (theta f')
          then FSS_GAMEOVER else FSS_FALLING).
Proof.
  intros Hs. unfold fsGameTick. rewrite beginTick_resolved.
  assert (H0 : state (set_lastInput i f) = state f) by reflexivity.
  assert (H1 : nextPiece (set_lastInput i f) = nextPiece f) by reflexivity.
  assert (H2 : fieldWidth (set_lastInput i f) = fieldWidth f) by reflexivity.
  revert H0 H1 H2. generalize (set_lastInput i f) as f0. intros f0 H0 H1 H2.
  rewrite H0, Hs, <- H1, <- H2. clear H0 H1 H2 Hs f.
  eexists. split; [ reflexivity | ].
  fs_simpl. unfold spawnPiece.
  assert (Hn : piece (newPiece f0) = hd FS_NONE (nextPiece f0)
               /\ (x (newPiece f0), y (newPiece f0), theta (newPiece f0))
                  = (fieldWidth f0 ÷ 2 - 1, 0, 0)).
  { unfold newPiece. cbv zeta. fs_simpl.
    destruct (fsNextRandomPiece (rand f0)). split; reflexivity. }
  revert Hn. generalize (newPiece f0) as g. intros g [Hp Hxy].
  destruct (isCollision g (x g) (y g) (theta g)) eqn:Hc.
  - fs_simpl. split; [ exact Hp | split; [ exact Hxy | ] ].
    rewrite (isCollision_ext _ g) by reflexivity. rewrite Hc. reflexivity.
  - unfold updateHardDropY. fs_simpl.
    split; [ exact Hp | split; [ exact Hxy | ] ].
    rewrite (isCollision_ext _ g) by reflexivity. rewrite Hc. reflexivity.
Qed.

Lemma settleStep_state (f : FSGame) (i : FSInput) (moved : bool)
  (f' : FSGame) :
  settleStep f i moved = Some f' ->
  hasFlag i FSI_HARD_DROP = true ->
  state f' = FSS_LINES.
Proof.
  unfold settleStep. intros H Hd.
  destruct (doPieceGravity _ (inputGravity i)) as [g | ]; [ | discriminate H ].
  rewrite Hd in H. cbn [orb] in H. fs_simpl_in H.
  injection H as <-. reflexivity.
Qed.

(** X9.  A hard drop never locks in the call that receives it: a tick in
    FALLING or LANDED whose input has the HARD_DROP bit set returns in
    LINES, whatever else the input asks for, with the field and
    [blocksPlaced] as they were.  The piece is locked by the next call. *)
Theorem hard_drop_defers_lock (f : FSGame) (i : FSInput) (f' : FSGame) :
  state f = FSS_FALLING \/ state f = FSS_LANDED ->
  hasFlag i FSI_HARD_DROP = true ->
  fsGameTick f i = Returned f' ->
  state f' = FSS_LINES /\ b f' = b f /\ blocksPlaced f' = blocksPlaced f.
Proof.
  intros Hs Hd Ht.
  assert (Hne : state f <> FSS_LINES)
    by (destruct Hs as [-> | ->]; discriminate).
  destruct (fsGameTick_frame _ _ _ Ht) as (_ & _ & _ & _ & Hq & _).
  destruct (Hq Hne) as (Hb & Hbp & _).
  split; [ | split; [ exact Hb | exact Hbp ] ].
  revert Ht. unfold fsGameTick. rewrite beginTick_resolved.
  assert (H0 : state (set_lastInput i f) = state f) by reflexivity.
  revert H0. generalize (set_lastInput i f) as f0. intros f0 H0.
  rewrite H0.
  assert (Hact : forall g, activeStep f0 i = Settled g -> state g = FSS_LINES).
  { intros g Ha. destruct (activeStep_settles _ _ _ Ha) as (g0 & m & Hset).
    exact (settleStep_state _ _ _ _ Hset Hd). }
  destruct Hs as [-> | ->];
    (destruct (activeStep f0 i) as [g | | ]; try discriminate;
     intros Ht; injection Ht as <-; fs_simpl; apply Hact; reflexivity).
Qed.

End TickShape.

(** ** The piece on the field *)

Section PieceFacts.

Context {E : Externs}.

(** X10.  Whatever the rotation system adds to the rotation, a piece is
    four distinct cells inside the 4x4 box whose corner is the piece's
    position. *)
Theorem fsPieceToBlocks_shape (f : FSGame) (p : PieceType)
  (px py th : FSInt) :
  p <> FS_NONE ->
  List.length (fsPieceToBlocks f p px py th) = FS_NBP
  /\ NoDup (fsPieceToBlocks f p px py th)
  /\ Forall (fun blk => px <= i2_x blk <= px + 3 /\ py <= i2_y blk <= py + 3)
       (fsPieceToBlocks f p px py th).
Proof.
  intros Hp. unfold fsPieceToBlocks.
  set (k := Z.land (th + entryTheta (rotationSystems (rotationSystem f)) p) 3).
  assert (Hk : 0 <= k < 4).
  { subst k. change 3 with (Z.ones 2). rewrite Z.land_ones by lia.
    apply Z.mod_pos_bound. reflexivity. }
  assert (Hcases : Z.to_nat k = 0%nat \/ Z.to_nat k = 1%nat
                   \/ Z.to_nat k = 2%nat \/ Z.to_nat k = 3%nat) by lia.
  clearbody k.
  destruct p; try (now elim Hp);
    destruct Hcases as [-> | [-> | [-> | ->]]];
    cbn [pieceOffsets nth map i2_x i2_y];
    (split; [ reflexivity | split ];
     [ repeat constructor; cbn [In]; intros H;
       repeat (destruct H as [H | H];
               [ pose proof (f_equal i2_x H) as Hx;
                 pose proof (f_equal i2_y H) as Hy;
                 cbn [i2_x i2_y] in Hx, Hy; lia | ]); exact H
     | repeat constructor; cbn [i2_x i2_y]; lia ]).
Qed.



Lemma fold_setCell (v : FSBlock) (l : list FSInt2) :
  forall bf r c,
    fold_left (fun bf blk => setCell bf (i2_y blk) (i2_x blk) v) l bf r c
    = if existsb (fun blk => (r =? i2_y blk) && (c =? i2_x blk)) l
      then v else bf r c.
Proof.
  induction l as [| blk l IH]; intros bf r c; cbn [fold_left existsb];
    [ reflexivity | ].
  rewrite IH. unfold setCell.
  destruct (existsb _ l); [ rewrite orb_true_r; reflexivity | ].
  rewrite orb_false_r. reflexivity.
Qed.

(** X12.  [lockPiece] stores the colour of the piece in the four cells the
    piece covers and in no other cell, and counts one more block placed.
    For a piece locked where it does not collide these are cells of the
    field that held no block, and afterwards each of them is occupied;
    the piece, its position and the state are untouched. *)
Theorem lockPiece_stores_piece (f : FSGame) :
  piece f <> FS_NONE ->
  isCollision f (x f) (y f) (theta f) = false ->
  (forall r c,
      b (lockPiece f) r c
      = if existsb (fun blk => (r =? i2_y blk) && (c =? i2_x blk))
             (fsPieceToBlocks f (piece f) (x f) (y f) (theta f))
        then pieceColors (piece f) else b f r c)
  /\ (forall blk,
        In blk (fsPieceToBlocks f (piece f) (x f) (y f) (theta f)) ->
        0 <= i2_x blk < fieldWidth f /\ 0 <= i2_y blk < fieldHeight f
        /\ b f (i2_y blk) (i2_x blk) <= 1
        /\ b (lockPiece f) (i2_y blk) (i2_x blk) = pieceColors (piece f)
        /\ isOccupied (lockPiece f) (i2_x blk) (i2_y blk) = true)
  /\ blocksPlaced (lockPiece f) = blocksPlaced f + 1
  /\ (piece (lockPiece f), x (lockPiece f), y (lockPiece f),
      theta (lockPiece f), state (lockPiece f))
     = (piece f, x f, y f, theta f, state f).
Proof.
  intros Hp Hfree.
  assert (Hb : forall r c,
      b (lockPiece f) r c
      = if existsb (fun blk => (r =? i2_y blk) && (c =? i2_x blk))
             (fsPieceToBlocks f (piece f) (x f) (y f) (theta f))
        then pieceColors (piece f) else b f r c).
  { intros r c. unfold lockPiece. fs_simpl. apply fold_setCell. }
  split; [ exact Hb | ].
  split; [ | split; reflexivity ].
  intros blk Hin.
  unfold isCollision in Hfree.
  assert (Hocc : isOccupied f (i2_x blk) (i2_y blk) = false).
  { destruct (isOccupied f (i2_x blk) (i2_y blk)) eqn:Ho; [ | reflexivity ].
    assert (Hex : existsb (fun blk => isOccupied f (i2_x blk) (i2_y blk))
                    (fsPieceToBlocks f (piece f) (x f) (y f) (theta f)) = true).
    { apply existsb_exists. exists blk. split; assumption. }
    congruence. }
  unfold isOccupied in Hocc.
  destruct (Z.ltb_spec (i2_x blk) 0); [ discriminate Hocc | ].
  destruct (Z.geb_spec (i2_x blk) (fieldWidth f)); [ discriminate Hocc | ].
  destruct (Z.ltb_spec (i2_y blk) 0); [ discriminate Hocc | ].
  destruct (Z.geb_spec (i2_y blk) (fieldHeight f)); [ discriminate Hocc | ].
  cbn [orb] in Hocc.
  assert (Hcell : b (lockPiece f) (i2_y blk) (i2_x blk) = pieceColors (piece f)).
  { rewrite Hb.
    assert (Hex : existsb (fun blk0 => (i2_y blk =? i2_y blk0)
                                        && (i2_x blk =? i2_x blk0))
                    (fsPieceToBlocks f (piece f) (x f) (y f) (theta f)) = true).
    { apply existsb_exists. exists blk. split; [ exact Hin | ].
      rewrite !Z.eqb_refl. reflexivity. }
    rewrite Hex. reflexivity. }
  split; [ lia | ]. split; [ lia | ].
  split; [ destruct (Z.gtb_spec (b f (i2_y blk) (i2_x blk)) 1);
           [ discriminate Hocc | lia ] | ].
  split; [ exact Hcell | ].
  unfold isOccupied.
  change (fieldWidth (lockPiece f)) with (fieldWidth f).
  change (fieldHeight (lockPiece f)) with (fieldHeight f).
  destruct (Z.ltb_spec (i2_x blk) 0); [ reflexivity | ].
  destruct (Z.geb_spec (i2_x blk) (fieldWidth f)); [ reflexivity | ].
  destruct (Z.ltb_spec (i2_y blk) 0); [ reflexivity | ].
  destruct (Z.geb_spec (i2_y blk) (fieldHeight f)); [ reflexivity | ].
  cbn [orb]. rewrite Hcell.
  destruct (piece f); try (now elim Hp); reflexivity.
Qed.

(** A kick that is taken leads to a free position. *)
Lemma kickLoop_true (n : nat) :
  forall (k : FSInt) (f : FSGame) (table : WallkickTable) (newDir : FSInt)
         (f' : FSGame),
    kickLoop n k f table newDir = (true, f') ->
    exists kx ky,
      f' = set_theta newDir (set_x kx (set_y ky f))
      /\ isCollision f kx ky newDir = false.
Proof.
  induction n as [| n IH]; intros k f table newDir f'; cbn [kickLoop].
  - discriminate.
  - destruct (i3_z (table (theta f) k) =? WK_END); [ discriminate | ].
    destruct (isCollision f (i3_x (table (theta f) k) + x f)
                (i3_y (table (theta f) k) + y f) newDir) eqn:Hc;
      cbn [negb].
    + apply IH.
    + intros H. injection H as <-. eexists. eexists.
      split; [ reflexivity | exact Hc ].
Qed.

(** X13.  A rotation that succeeds leaves the piece where it does not
    collide, turned by [direction] modulo 4, and changes nothing but [x],
    [y] and [theta]: neither [actualY] nor [hardDropY] follows the kick
    inside [doRotate]. *)
Theorem doRotate_true_free (f : FSGame) (d : FSInt) (f' : FSGame) :
  doRotate f d = Some (true, f') ->
  isCollision f' (x f') (y f') (theta f') = false
  /\ theta f' = (theta f + d) mod 4
  /\ f' = set_theta (theta f') (set_x (x f') (set_y (y f') f)).
Proof.
  unfold doRotate. intros H.
  assert (Hk : exists n k t,
             kickLoop n k f t (Z.land (theta f + 4 + d) 3) = (true, f')).
  { destruct (d =? FSROT_CLOCKWISE);
      [ | destruct (d =? FSROT_ANTICLOCKWISE);
          [ | destruct (d =? FSROT_HALFTURN); [ | discriminate H ] ] ];
      injection H as H; eauto. }
  destruct Hk as (n & k & t & Hk).
  destruct (kickLoop_true _ _ _ _ _ _ Hk) as (kx & ky & -> & Hfree).
  fs_simpl.
  split; [ | split; [ | reflexivity ] ].
  - rewrite <- Hfree. apply isCollision_ext; reflexivity.
  - change 3 with (Z.ones 2). rewrite Z.land_ones by lia.
    change (2 ^ 2) with 4.
    replace (theta f + 4 + d) with (theta f + d + 1 * 4) by lia.
    apply Z.mod_add. lia.
Qed.

Lemma slideX_clear (n : nat) (dx : FSInt) (f : FSGame) :
  forall px,
    isCollision f px (y f) (theta f) = false ->
    isCollision f (slideX n dx f px) (y f) (theta f) = false.
Proof.
  induction n as [| n IH]; intros px Hc; cbn [slideX]; [ exact Hc | ].
  destruct (isCollision f (px + dx) (y f) (theta f)) eqn:Hn; [ exact Hc | ].
  apply IH. exact Hn.
Qed.

Lemma slideX_range (n : nat) (dx : FSInt) (f : FSGame) :
  forall px,
    Z.min 0 (dx * Z.of_nat n) <= slideX n dx f px - px
    <= Z.max 0 (dx * Z.of_nat n).
Proof.
  induction n as [| n IH]; intros px; cbn [slideX]; [ lia | ].
  destruct (isCollision f (px + dx) (y f) (theta f)); [ lia | ].
  specialize (IH (px + dx)). nia.
Qed.

(** X14.  Left/right movement never moves the piece into a block or out
    of the field: from a position that does not collide, [moveStep] ends
    on a position that does not collide, at most [|distance|] columns away
    on the side of its sign, and changes nothing but [x]. *)
Theorem moveStep_keeps_clear (f : FSGame) (n : FSInt) (moved : bool) :
  isCollision f (x f) (y f) (theta f) = false ->
  fst (moveStep f n moved) = set_x (x (fst (moveStep f n moved))) f
  /\ isCollision (fst (moveStep f n moved)) (x (fst (moveStep f n moved)))
       (y (fst (moveStep f n moved))) (theta (fst (moveStep f n moved)))
     = false
  /\ Z.min 0 n <= x (fst (moveStep f n moved)) - x f <= Z.max 0 n.
Proof.
  intros Hc. unfold moveStep. rewrite moveLoop_slideX, moveLoop_slideX.
  rewrite set_x_twice. cbn [fst]. fs_simpl. rewrite slideX_set_x.
  set (x1 := slideX (Z.to_nat (- n)) (-1) f (x f)).
  set (x2 := slideX (Z.to_nat (Z.max n 0)) 1 f x1).
  split; [ reflexivity | ].
  split.
  - rewrite isCollision_set_x. subst x2. apply slideX_clear.
    subst x1. apply slideX_clear. exact Hc.
  - pose proof (slideX_range (Z.to_nat (- n)) (-1) f (x f)) as H1.
    pose proof (slideX_range (Z.to_nat (Z.max n 0)) 1 f x1) as H2.
    fold x1 in H1. fold x2 in H2. lia.
Qed.

(** X15.  A hold can be used once per piece: [holdStep] clears
    [holdAvailable] whenever it acts, so applying it again with the same
    input changes nothing. *)
Theorem holdStep_idempotent (f : FSGame) (i : FSInput) :
  holdStep (holdStep f i) i = holdStep f i.
Proof.
  assert (H : hasFlag i FSI_HOLD && holdAvailable f = false
              \/ holdAvailable (holdStep f i) = false).
  { unfold holdStep.
    destruct (hasFlag i FSI_HOLD && holdAvailable f); [ right | left; reflexivity ].
    cbv zeta. destruct (holdPiece (set_holdAvailable false f)); reflexivity. }
  destruct H as [H | H].
  - unfold holdStep at 2 3. rewrite H.
    unfold holdStep. rewrite H. reflexivity.
  - generalize dependent (holdStep f i). intros g Hg.
    unfold holdStep. rewrite Hg, andb_false_r. reflexivity.
Qed.

(** X16.  What a hold does.  With HOLD pressed and a hold available, the
    piece in play goes to [holdPiece] and [holdAvailable] is cleared; the
    piece that comes into play is the one that was held, or, when none
    was, the head of the preview queue; it enters at the spawn position
    with [lockTimer] at zero.  Only the swap with a held piece refreshes
    [hardDropY]: after a first hold it is still the row computed for the
    piece that left. *)
Theorem holdStep_swaps (f : FSGame) (i : FSInput) :
  hasFlag i FSI_HOLD = true -> holdAvailable f = true ->
  holdPiece (holdStep f i) = piece f
  /\ holdAvailable (holdStep f i) = false
  /\ piece (holdStep f i)
     = match holdPiece f with
       | FS_NONE => hd FS_NONE (nextPiece f)
       | t => t
       end
  /\ (x (holdStep f i), y (holdStep f i), theta (holdStep f i),
      actualY (holdStep f i), lockTimer (holdStep f i))
     = (fieldWidth f ÷ 2 - 1, 0, 0, Float32.zero, 0)
  /\ (holdPiece f = FS_NONE -> hardDropY (holdStep f i) = hardDropY f).
Proof.
  intros Hflag Hav. unfold holdStep. rewrite Hflag, Hav. cbn [andb].
  cbv zeta. fs_simpl.
  destruct (holdPiece f) eqn:Hh;
    try (unfold updateHardDropY; fs_simpl;
         repeat (split; [ reflexivity | ]); intros Hn; discriminate Hn).
  unfold newPiece. cbv zeta. fs_simpl.
  destruct (fsNextRandomPiece (rand f)) as [p r]. fs_simpl.
  repeat (split; [ reflexivity | ]). intros _. reflexivity.
Qed.

Lemma setLastSlot_snoc (p l : PieceType) (t : list PieceType) :
  setLastSlot p (t ++ [l]) = t ++ [p].
Proof.
  unfold setLastSlot. rewrite removelast_last.
  destruct (t ++ [l]) eqn:Ht; [ | reflexivity ].
  destruct t; discriminate Ht.
Qed.

(** X17.  [newPiece] deals from the preview queue in order: the piece
    that enters is the head of the queue, the rest of the queue moves up
    by one and the randomizer's next piece takes the last place; the
    piece enters in column [fieldWidth / 2 - 1], row 0, rotation 0, with
    a hold available and the lock timer and the per-piece finesse
    counters at zero. *)
Theorem newPiece_deals_head (f : FSGame) :
  nextPiece f <> [] ->
  piece (newPiece f) = hd FS_NONE (nextPiece f)
  /\ nextPiece (newPiece f)
     = tl (nextPiece f) ++ [fst (fsNextRandomPiece (rand f))]
  /\ rand (newPiece f) = snd (fsNextRandomPiece (rand f))
  /\ (x (newPiece f), y (newPiece f), theta (newPiece f),
      actualY (newPiece f))
     = (fieldWidth f ÷ 2 - 1, 0, 0, Float32.zero)
  /\ (holdAvailable (newPiece f), lockTimer (newPiece f),
      finessePieceRotation (newPiece f), finessePieceDirection (newPiece f))
     = (true, 0, 0, 0).
Proof.
  intros Hq. unfold newPiece. cbv zeta. fs_simpl.
  destruct (fsNextRandomPiece (rand f)) as [p r]. fs_simpl. cbn [fst snd].
  split; [ reflexivity | ].
  split; [ | repeat split ].
  destruct (nextPiece f) as [| a t]; [ now elim Hq | ].
  unfold shiftQueue. cbn [tl]. apply setLastSlot_snoc.
Qed.

End PieceFacts.

(** ** Line clearing when no row is full *)

Lemma filledRows_none bf w (n : nat) :
  forall r,
    (forall q, r <= q < r + Z.of_nat n -> fullRow bf w q = false) ->
    filledRows bf w r n = 0.
Proof.
  induction n as [| n IH]; intros r H; cbn [filledRows]; [ reflexivity | ].
  rewrite (H r) by lia. rewrite IH; [ reflexivity | ].
  intros q Hq. apply H. lia.
Qed.

Lemma copyRows_no_flags (n : nat) :
  forall d w bf, copyRows n d d 0 w bf = bf.
Proof.
  induction n as [| n IH]; intros d w bf; cbn [copyRows]; [ reflexivity | ].
  change (Z.land 0 1 =? 0) with true. change (Z.shiftr 0 1) with 0.
  cbn [negb]. rewrite (Z.eqb_refl d). cbn [negb]. apply IH.
Qed.

(** X18.  On a field none of whose rows is full, whatever its height,
    [clearLines] returns 0 and leaves the game as it is. *)
Theorem clearLines_nothing_full (f : FSGame) :
  (forall r, 0 <= r < fieldHeight f ->
             fullRow (b f) (fieldWidth f) r = false) ->
  clearLines f = (0, f).
Proof.
  intros Hnone. unfold clearLines. cbv zeta.
  destruct (scanRows_spec (b f) (fieldWidth f) (Z.to_nat (fieldHeight f))
              0 0 0) as [Hcount Hbits];
    [ reflexivity | intros i _; apply Z.testbit_0_l | ].
  assert (Hc : snd (scanRows (Z.to_nat (fieldHeight f)) 0 (b f) (fieldWidth f)
                      0 0) = 0).
  { rewrite Hcount, filledRows_none; [ reflexivity | ].
    intros q Hq. apply Hnone. lia. }
  assert (Hf : fst (scanRows (Z.to_nat (fieldHeight f)) 0 (b f) (fieldWidth f)
                      0 0) = 0).
  { apply Z.bits_inj'. intros i Hi. rewrite Hbits by exact Hi.
    rewrite !Z.testbit_0_l.
    destruct (i <? 32); [ cbn [andb] | reflexivity ].
    destruct (Z.eqb_spec i 0); [ reflexivity | ].
    destruct (Z.leb_spec i (Z.of_nat (Z.to_nat (fieldHeight f))));
      [ | reflexivity ].
    apply Hnone. lia. }
  rewrite Hc, Hf. change (Z.shiftr 0 1) with 0.
  rewrite copyRows_no_flags. cbn [Z.to_nat zeroRows].
  destruct f; reflexivity.
Qed.

(** ** The further properties at work on the scenarios *)

Lemma runTicks_counts_ticks_witness :
  @runTicks scenario scenario_reset [noInput; hardDropInput 18]
  = Returned scenario_dropped
  /\ totalTicks scenario_dropped = totalTicks scenario_reset + 2
  /\ lastInput scenario_dropped = hardDropInput 18.
Proof.
  assert (H : @runTicks scenario scenario_reset [noInput; hardDropInput 18]
              = Returned scenario_dropped) by (vm_compute; reflexivity).
  exact (conj H (@runTicks_counts_ticks scenario _ _ _ H)).
Defined.

Lemma runTicks_keeps_options_witness :
  @runTicks scenario scenario_reset [noInput; hardDropInput 18; noInput]
  = Returned scenario_locked
  /\ options scenario_locked = options scenario_reset.
Proof.
  assert (H : @runTicks scenario scenario_reset
                [noInput; hardDropInput 18; noInput]
              = Returned scenario_locked) by (vm_compute; reflexivity).
  exact (conj H (@runTicks_keeps_options scenario _ _ _ H)).
Defined.


Lemma field_changes_only_in_LINES_witness :
  @fsGameTick scenario scenario_spawned (hardDropInput 18)
  = Returned scenario_dropped
  /\ state scenario_spawned <> FSS_LINES
  /\ b scenario_dropped = b scenario_spawned
  /\ blocksPlaced scenario_dropped = blocksPlaced scenario_spawned
  /\ linesCleared scenario_dropped = linesCleared scenario_spawned.
Proof.
  assert (H : @fsGameTick scenario scenario_spawned (hardDropInput 18)
              = Returned scenario_dropped) by (vm_compute; reflexivity).
  assert (Hs : state scenario_spawned <> FSS_LINES)
    by (vm_compute; discriminate).
  exact (conj H (conj Hs
           (@field_changes_only_in_LINES scenario _ _ _ H Hs))).
Defined.

Lemma counters_monotone_witness :
  @runTicks scenario scenario_reset [noInput; hardDropInput 18; noInput]
  = Returned scenario_locked
  /\ linesCleared scenario_reset <= linesCleared scenario_locked
  /\ blocksPlaced scenario_reset <= blocksPlaced scenario_locked
     <= blocksPlaced scenario_reset + 3.
Proof.
  assert (H : @runTicks scenario scenario_reset
                [noInput; hardDropInput 18; noInput]
              = Returned scenario_locked) by (vm_compute; reflexivity).
  exact (conj H (@counters_monotone scenario _ _ _ H)).
Defined.


Lemma runTicks_idle_witness :
  idleState (state narrow_over) = true
  /\ @runTicks scenario narrow_over [noInput; holdInput]
     = Returned
         (set_totalTicks (totalTicks narrow_over + 2)
            (set_lastInput holdInput narrow_over)).
Proof.
  assert (H : idleState (state narrow_over) = true)
    by (vm_compute; reflexivity).
  exact (conj H (@runTicks_idle scenario [noInput; holdInput] narrow_over H)).
Defined.

Lemma spawn_tick_witness :
  state scenario_reset = FSS_NEW_PIECE
  /\ exists f',
       @fsGameTick scenario scenario_reset noInput = Returned f'
       /\ piece f' = hd FS_NONE (nextPiece scenario_reset)
       /\ (x f', y f', theta f') = (fieldWidth scenario_reset ÷ 2 - 1, 0, 0)
       /\ state f'
          = (if @isCollision scenario f' (x f') (y f') (theta f')
             then FSS_GAMEOVER else FSS_FALLING).
Proof.
  assert (H : state scenario_reset = FSS_NEW_PIECE)
    by (vm_compute; reflexivity).
  exact (conj H (@spawn_tick scenario scenario_reset noInput H)).
Defined.

Lemma hard_drop_defers_lock_witness :
  (state scenario_spawned = FSS_FALLING \/ state scenario_spawned = FSS_LANDED)
  /\ hasFlag (hardDropInput 18) (@FSI_HARD_DROP scenario) = true
  /\ @fsGameTick scenario scenario_spawned (hardDropInput 18)
     = Returned scenario_dropped
  /\ state scenario_dropped = FSS_LINES
  /\ b scenario_dropped = b scenario_spawned
  /\ blocksPlaced scenario_dropped = blocksPlaced scenario_spawned.
Proof.
  assert (Hs : state scenario_spawned = FSS_FALLING
               \/ state scenario_spawned = FSS_LANDED)
    by (left; vm_compute; reflexivity).
  assert (Hd : hasFlag (hardDropInput 18) (@FSI_HARD_DROP scenario)
               = true) by (vm_compute; reflexivity).
  assert (H : @fsGameTick scenario scenario_spawned (hardDropInput 18)
              = Returned scenario_dropped) by (vm_compute; reflexivity).
  exact (conj Hs (conj Hd (conj H
           (@hard_drop_defers_lock scenario _ _ _ Hs Hd H)))).
Defined.

Lemma fsPieceToBlocks_shape_witness :
  FS_T <> FS_NONE
  /\ List.length (@fsPieceToBlocks scenario scenario_spawned FS_T 4 0 1)
     = FS_NBP
  /\ NoDup (@fsPieceToBlocks scenario scenario_spawned FS_T 4 0 1)
  /\ Forall (fun blk => 4 <= i2_x blk <= 4 + 3 /\ 0 <= i2_y blk <= 0 + 3)
       (@fsPieceToBlocks scenario scenario_spawned FS_T 4 0 1).
Proof.
  assert (H : FS_T <> FS_NONE) by discriminate.
  exact (conj H (@fsPieceToBlocks_shape scenario scenario_spawned FS_T 4 0 1 H)).
Defined.


Lemma lockPiece_stores_piece_witness :
  piece scenario_dropped <> FS_NONE
  /\ @isCollision scenario scenario_dropped (x scenario_dropped)
       (y scenario_dropped) (theta scenario_dropped) = false
  /\ blocksPlaced (@lockPiece scenario scenario_dropped)
     = blocksPlaced scenario_dropped + 1
  /\ (forall blk,
        In blk (@fsPieceToBlocks scenario scenario_dropped
                  (piece scenario_dropped) (x scenario_dropped)
                  (y scenario_dropped) (theta scenario_dropped)) ->
        b (@lockPiece scenario scenario_dropped) (i2_y blk) (i2_x blk)
        = pieceColors (piece scenario_dropped)).
Proof.
  assert (H : piece scenario_dropped <> FS_NONE)
    by (vm_compute; discriminate).
  assert (Hc : @isCollision scenario scenario_dropped (x scenario_dropped)
                 (y scenario_dropped) (theta scenario_dropped) = false)
    by (vm_compute; reflexivity).
  pose proof (@lockPiece_stores_piece scenario scenario_dropped H Hc)
    as (_ & Hcells & Hbp & _).
  exact (conj H (conj Hc (conj Hbp
           (fun blk Hin => proj1 (proj2 (proj2 (proj2 (Hcells blk Hin)))))))).
Defined.

Lemma doRotate_true_free_witness :
  @doRotate scenario scenario_spawned FSROT_CLOCKWISE
  = Some (true, set_theta 1 scenario_spawned)
  /\ @isCollision scenario (set_theta 1 scenario_spawned)
       (x (set_theta 1 scenario_spawned)) (y (set_theta 1 scenario_spawned))
       (theta (set_theta 1 scenario_spawned)) = false
  /\ theta (set_theta 1 scenario_spawned)
     = (theta scenario_spawned + FSROT_CLOCKWISE) mod 4.
Proof.
  assert (H : @doRotate scenario scenario_spawned FSROT_CLOCKWISE
              = Some (true, set_theta 1 scenario_spawned))
    by (vm_compute; reflexivity).
  pose proof (@doRotate_true_free scenario _ _ _ H) as (H1 & H2 & _).
  exact (conj H (conj H1 H2)).
Defined.

Lemma moveStep_keeps_clear_witness :
  @isCollision scenario scenario_spawned (x scenario_spawned)
    (y scenario_spawned) (theta scenario_spawned) = false
  /\ x (fst (@moveStep scenario scenario_spawned (-10) false)) = 0
  /\ @isCollision scenario
       (fst (@moveStep scenario scenario_spawned (-10) false))
       (x (fst (@moveStep scenario scenario_spawned (-10) false)))
       (y (fst (@moveStep scenario scenario_spawned (-10) false)))
       (theta (fst (@moveStep scenario scenario_spawned (-10) false)))
     = false.
Proof.
  assert (H : @isCollision scenario scenario_spawned (x scenario_spawned)
                (y scenario_spawned) (theta scenario_spawned) = false)
    by (vm_compute; reflexivity).
  assert (Hx : x (fst (@moveStep scenario scenario_spawned (-10) false)) = 0)
    by (vm_compute; reflexivity).
  pose proof (@moveStep_keeps_clear scenario scenario_spawned (-10) false H)
    as (_ & Hfree & _).
  exact (conj H (conj Hx Hfree)).
Defined.

Lemma holdStep_swaps_witness :
  hasFlag holdInput (@FSI_HOLD scenario) = true
  /\ holdAvailable scenario_spawned = true
  /\ holdPiece (@holdStep scenario scenario_spawned holdInput)
     = piece scenario_spawned
  /\ holdAvailable (@holdStep scenario scenario_spawned holdInput) = false.
Proof.
  assert (Hf : hasFlag holdInput (@FSI_HOLD scenario) = true)
    by (vm_compute; reflexivity).
  assert (Ha : holdAvailable scenario_spawned = true)
    by (vm_compute; reflexivity).
  pose proof (@holdStep_swaps scenario scenario_spawned holdInput Hf Ha)
    as (H1 & H2 & _).
  exact (conj Hf (conj Ha (conj H1 H2))).
Defined.

Lemma newPiece_deals_head_witness :
  nextPiece scenario_reset <> []
  /\ piece (@newPiece scenario scenario_reset)
     = hd FS_NONE (nextPiece scenario_reset)
  /\ nextPiece (@newPiece scenario scenario_reset)
     = tl (nextPiece scenario_reset)
       ++ [fst (@fsNextRandomPiece scenario (rand scenario_reset))].
Proof.
  assert (H : nextPiece scenario_reset <> []) by (vm_compute; discriminate).
  pose proof (@newPiece_deals_head scenario scenario_reset H) as (H1 & H2 & _).
  exact (conj H (conj H1 H2)).
Defined.

Lemma clearLines_nothing_full_witness :
  (forall r, 0 <= r < fieldHeight scenario_reset ->
             fullRow (b scenario_reset) (fieldWidth scenario_reset) r = false)
  /\ clearLines scenario_reset = (0, scenario_reset).
Proof.
  assert (H : forall r, 0 <= r < fieldHeight scenario_reset ->
              fullRow (b scenario_reset) (fieldWidth scenario_reset) r = false)
    by (intros r _; vm_compute; reflexivity).
  exact (conj H (clearLines_nothing_full scenario_reset H)).
Defined.

(** * Properties of the option parser *)

(** ** [strcmpi] and the look-ups *)

Lemma tolower_pos (c : Z) : 1 <= c -> 1 <= tolower c.
Proof.
  unfold tolower. intros H.
  destruct ((65 <=? c) && (c <=? 90)); lia.
Qed.

Lemma asciiText_cons (c : ascii) (r : string) :
  asciiText (String c r) = true ->
  1 <= charCode c <= 127 /\ asciiText r = true.
Proof.
  unfold asciiText. cbn [codes forallb]. intros H.
  apply andb_true_iff in H. destruct H as [H1 H2].
  apply andb_true_iff in H1. destruct H1 as [Ha Hb].
  apply Z.leb_le in Ha. apply Z.leb_le in Hb. split; [ lia | exact H2 ].
Qed.

Lemma strcmpi_lower (a : string) :
  forall b : string,
    asciiText a = true -> asciiText b = true ->
    (strcmpi a b = 0 <-> map tolower (codes a) = map tolower (codes b))
    /\ strcmpi b a = - strcmpi a b.
Proof.
  induction a as [| ca ra IH]; intros [| cb rb] Ha Hb; cbn [strcmpi codes map].
  - split; [ split; reflexivity | reflexivity ].
  - apply asciiText_cons in Hb. destruct Hb as [Hcb _].
    pose proof (tolower_pos (charCode cb)). split; [ | lia ].
    split; [ lia | discriminate ].
  - apply asciiText_cons in Ha. destruct Ha as [Hca _].
    pose proof (tolower_pos (charCode ca)). split; [ | lia ].
    split; [ lia | discriminate ].
  - apply asciiText_cons in Ha. destruct Ha as [Hca Hra].
    apply asciiText_cons in Hb. destruct Hb as [Hcb Hrb].
    destruct (IH rb Hra Hrb) as [Hiff Hneg].
    destruct (Z.eqb_spec (charCode ca) 0); [ lia | ].
    destruct (Z.eqb_spec (charCode cb) 0); [ lia | ].
    rewrite !orb_false_r.
    destruct (Z.eqb_spec (tolower (charCode ca) - tolower (charCode cb)) 0)
      as [Hd | Hd];
      destruct (Z.eqb_spec (tolower (charCode cb) - tolower (charCode ca)) 0)
      as [Hd' | Hd']; try lia; cbn [negb].
    + split; [ | exact Hneg ].
      rewrite Hiff. split.
      * intros ->. f_equal. lia.
      * intros H. injection H as _ H. exact H.
    + split; [ | lia ].
      split; [ lia | ]. intros H. injection H as H _. lia.
Qed.

(** X19.  [strcmpi] compares without regard to case: on ASCII text it
    returns 0 exactly when the two strings are equal once every letter is
    lowered, and exchanging its arguments negates its result. *)
Theorem strcmpi_zero_iff (a b : string) :
  asciiText a = true -> asciiText b = true ->
  (strcmpi a b = 0 <-> map tolower (codes a) = map tolower (codes b))
  /\ strcmpi b a = - strcmpi a b.
Proof. apply strcmpi_lower. Qed.

(** [strcmpi] looks at its arguments through [tolower] only. *)
Lemma strcmpi_lowered (a : string) :
  forall a' x : string,
    asciiText a = true -> asciiText a' = true ->
    map tolower (codes a) = map tolower (codes a') ->
    strcmpi a x = strcmpi a' x.
Proof.
  induction a as [| ca ra IH]; intros [| ca' ra'] x Ha Ha' Hl;
    cbn [codes map] in Hl; try discriminate Hl.
  - reflexivity.
  - injection Hl as Hc Hr.
    apply asciiText_cons in Ha. destruct Ha as [Hca Hra].
    apply asciiText_cons in Ha'. destruct Ha' as [Hca' Hra'].
    destruct x as [| cx rx]; cbn [strcmpi]; [ exact Hc | ].
    rewrite Hc.
    destruct (Z.eqb_spec (charCode ca) 0); [ lia | ].
    destruct (Z.eqb_spec (charCode ca') 0); [ lia | ].
    rewrite (IH ra' rx Hra Hra' Hr). reflexivity.
Qed.

Section LookupFacts.

Context {O : OptionEnums}.

(** X20.  The values of the enumerated options are read without regard
    to case: two ASCII values that agree once lowered get the same answer
    from each of the four look-ups. *)
Theorem lookups_ignore_case (v w : string) :
  asciiText v = true -> asciiText w = true ->
  map tolower (codes v) = map tolower (codes w) ->
  fsRandomizerLookup v = fsRandomizerLookup w
  /\ fsRotationSystemLookup v = fsRotationSystemLookup w
  /\ fsLockStyleLookup v = fsLockStyleLookup w
  /\ fsInitialActionStyleLookup v = fsInitialActionStyleLookup w.
Proof.
  intros Hv Hw Hl.
  assert (HM : forall x, M v x = M w x).
  { intros x. unfold M. rewrite (strcmpi_lowered v w x Hv Hw Hl). reflexivity. }
  unfold fsRandomizerLookup, fsRotationSystemLookup, fsLockStyleLookup,
    fsInitialActionStyleLookup.
  rewrite !HM. repeat split.
Qed.

Lemma M_lowered (v x : string) :
  asciiText v = true -> asciiText x = true ->
  M v x = true -> map tolower (codes v) = map tolower (codes x).
Proof.
  intros Hv Hx H. unfold M in H. apply Z.eqb_eq in H.
  apply (strcmpi_lower v x Hv Hx). exact H.
Qed.

(** X21.  The initial action style "trigger" cannot be selected: for the
    value [trigger] in any spelling of its letters, and for [2],
    [fsInitialActionStyleLookup] logs that the style is not implemented
    and returns -1, the answer it gives for an unknown value. *)
Theorem fsInitialActionStyleLookup_trigger (v : string) :
  asciiText v = true ->
  map tolower (codes v) = map tolower (codes "trigger")
  \/ map tolower (codes v) = map tolower (codes "2") ->
  fsInitialActionStyleLookup v
  = (-1, ["initialActionStyle = trigger is not implemented!"%string]).
Proof.
  intros Hv Hl.
  assert (Hno : forall x,
             asciiText x = true ->
             map tolower (codes x) <> map tolower (codes "trigger") ->
             map tolower (codes x) <> map tolower (codes "2") ->
             M v x = false).
  { intros x Hx H1 H2. destruct (M v x) eqn:HM; [ | reflexivity ].
    apply (M_lowered v x Hv Hx) in HM.
    destruct Hl as [Hl | Hl]; rewrite Hl in HM; symmetry in HM;
      contradiction. }
  assert (Hyes : M v "trigger" || M v "2" = true).
  { destruct Hl as [Hl | Hl].
    - assert (H : M v "trigger" = true); [ | rewrite H; reflexivity ].
      unfold M. apply Z.eqb_eq.
      apply (strcmpi_lower v "trigger" Hv); [ reflexivity | exact Hl ].
    - assert (H : M v "2" = true); [ | rewrite H; apply orb_true_r ].
      unfold M. apply Z.eqb_eq.
      apply (strcmpi_lower v "2" Hv); [ reflexivity | exact Hl ]. }
  unfold fsInitialActionStyleLookup.
  rewrite (Hno "none"%string), (Hno "0"%string), (Hno "persistent"%string),
    (Hno "1"%string);
    try reflexivity; try (vm_compute; discriminate).
  cbn [orb]. rewrite Hyes. reflexivity.
Qed.

End LookupFacts.

(** ** The scanners [eat_till] and [eat_space] *)






(** X22.  [eat_till] splits the string where its comment says: the
    characters it passes are neither white space nor the stop character
    nor the terminator, their number is the count it returns, and what it
    leaves begins with one of these or is empty. *)
Theorem eat_till_spec (stop : Z) (s : string) :
  exists pre : string,
    s = (pre ++ snd (eat_till s stop))%string
    /\ fst (eat_till s stop) = Z.of_nat (String.length pre)
    /\ plainText stop pre = true
    /\ pre = passed s (fst (eat_till s stop))
    /\ stopsAt stop (snd (eat_till s stop)) = true.
Proof.
  induction s as [| a r IH].
  - exists EmptyString. repeat split.
  - cbn [eat_till].
    destruct (negb (charCode a =? 0) && negb (isspace (charCode a))
              && negb (charCode a =? stop)) eqn:Ha.
    + destruct IH as (pre & Hs & Hc & Hp & Hpass & Hstop).
      destruct (eat_till r stop) as [c rest]. cbn [fst snd] in *.
      exists (String a pre).
      split; [ cbn [append]; rewrite <- Hs; reflexivity | ].
      split; [ cbn [String.length]; lia | ].
      split; [ unfold plainText; cbn [codes forallb]; rewrite Ha; exact Hp | ].
      split; [ | exact Hstop ].
      unfold passed. rewrite Hc.
      replace (Z.to_nat (Z.of_nat (String.length pre) + 1))
        with (S (String.length pre)) by lia.
      cbn [substring]. f_equal.
      unfold passed in Hpass. rewrite Hc, Nat2Z.id in Hpass. exact Hpass.
    + exists EmptyString. cbn [fst snd append String.length Z.of_nat].
      split; [ reflexivity | split; [ reflexivity | split; [ reflexivity | ] ] ].
      split; [ reflexivity | ].
      unfold stopsAt. cbn [peek].
      destruct (charCode a =? 0); [ reflexivity | ].
      destruct (isspace (charCode a)); [ reflexivity | ].
      cbn [negb andb orb] in *. apply negb_false_iff in Ha. exact Ha.
Qed.

(** X23.  [eat_space] passes white space only and all of it: what it
    leaves is a suffix of the string that does not begin with white
    space. *)
Theorem eat_space_spec (s : string) :
  exists pre : string,
    s = (pre ++ eat_space s)%string
    /\ forallb isspace (codes pre) = true
    /\ isspace (peek (eat_space s)) = false.
Proof.
  induction s as [| a r IH].
  - exists EmptyString. repeat split.
  - cbn [eat_space].
    destruct (Z.eqb_spec (charCode a) 0) as [Hz | Hz]; cbn [negb andb].
    + exists EmptyString. cbn [append codes forallb peek]. rewrite Hz.
      repeat split.
    + destruct (isspace (charCode a)) eqn:Hsp.
      * destruct IH as (pre & Hs & Hp & Hn). exists (String a pre).
        split; [ cbn [append]; rewrite <- Hs; reflexivity | ].
        split; [ cbn [codes forallb]; rewrite Hsp; exact Hp | exact Hn ].
      * exists EmptyString. cbn [append codes forallb peek].
        repeat split. exact Hsp.
Qed.

(** ** The ini parser *)









(** *** The loop over the values ends *)

(** *** The loop over the values ends *)
Lemma eat_space_cases (s : string) :
  (eat_space s = s /\ (peek s = 0 \/ isspace (peek s) = false))
  \/ (String.length (eat_space s) < String.length s)%nat.
Proof.
  induction s as [| a r IH]; [ left; split; [ reflexivity | left; reflexivity ] | ].
  cbn [eat_space peek].
  destruct (Z.eqb_spec (charCode a) 0) as [Hz | Hz]; cbn [negb andb].
  - left. split; [ reflexivity | left; exact Hz ].
  - destruct (isspace (charCode a)) eqn:Hsp.
    + right. cbn [String.length].
      destruct IH as [[-> _] | IH]; lia.
    + left. split; [ reflexivity | right; reflexivity ].
Qed.

Lemma eat_till_length (stop : Z) (s : string) :
  0 <= fst (eat_till s stop)
  /\ Z.of_nat (String.length (snd (eat_till s stop))) + fst (eat_till s stop)
     = Z.of_nat (String.length s).
Proof.
  induction s as [| a r IH]; [ cbn; lia | ].
  cbn [eat_till].
  destruct (negb (charCode a =? 0) && negb (isspace (charCode a))
            && negb (charCode a =? stop)); [ | cbn; lia ].
  destruct (eat_till r stop) as [c rest]. cbn [fst snd String.length] in *.
  lia.
Qed.

Lemma eat_till_progress (stop : Z) (s : string) :
  peek s <> 0 -> isspace (peek s) = false -> peek s <> stop ->
  1 <= fst (eat_till s stop).
Proof.
  destruct s as [| a r]; cbn [peek eat_till]; [ intros H; now elim H | ].
  intros Hz Hsp Hst.
  destruct (Z.eqb_spec (charCode a) 0); [ contradiction | ].
  destruct (Z.eqb_spec (charCode a) stop); [ contradiction | ].
  rewrite Hsp. cbn [negb andb].
  pose proof (eat_till_length stop r) as [H0 _].
  destruct (eat_till r stop). cbn [fst] in *. lia.
Qed.

Lemma valueLoop_fuel (line : Z) (k : string) (fuel : nat) :
  forall (s : string) (n : Z) (out : list IniEvent),
    (String.length s < fuel)%nat ->
    valueLoop fuel line k s n out <> IniNoFuel.
Proof.
  induction fuel as [| fuel IH]; intros s n out Hlen; [ lia | ].
  cbn [valueLoop].
  destruct (Z.eqb_spec (peek s) 0) as [Hz | Hz]; [ discriminate | ].
  cbv zeta.
  assert (Hstep : forall s2 out2,
             (String.length s2 < String.length s)%nat
             \/ (s2 = s /\ isspace (peek s) = false /\ peek s <> 44) ->
             (let '(c, rest) := eat_till s2 44 in
              if (c =? 0) || (peek rest =? 0)
              then valueLoop fuel line k rest n out2
              else if c >=? MAX_ID_LENGTH then IniOverflow
              else valueLoop fuel line k rest (n + 1)
                             (out2 ++ [Unpack k (passed s2 c)]))
             <> IniNoFuel).
  { intros s2 out2 Hs2.
    pose proof (eat_till_length 44 s2) as [Hc Hsum].
    assert (Hrest : (String.length (snd (eat_till s2 44)) < String.length s)%nat).
    { destruct Hs2 as [Hlt | (-> & Hsp & Hnc)]; [ lia | ].
      pose proof (eat_till_progress 44 s Hz Hsp Hnc). lia. }
    destruct (eat_till s2 44) as [c rest]. cbn [fst snd] in *.
    destruct ((c =? 0) || (peek rest =? 0)); [ apply IH; lia | ].
    destruct (c >=? MAX_ID_LENGTH); [ discriminate | apply IH; lia ]. }
  destruct (eat_space_cases s) as [[Hes [Hp | Hsp]] | Hlt].
  - contradiction.
  - rewrite Hes.
    destruct (Z.eqb_spec (peek s) 44) as [Hc | Hc].
    + apply Hstep. left. destruct s; [ now elim Hz | cbn; lia ].
    + apply Hstep. right. split; [ reflexivity | split; assumption ].
  - destruct (peek (eat_space s) =? 44).
    + apply Hstep. left.
      destruct (eat_space s); cbn [next String.length] in *; lia.
    + apply Hstep. left. exact Hlt.
Qed.

(** The parser never needs more iterations than the model grants. *)
Lemma parseIniLines_fuel (lines : list string) :
  forall (line : Z) (group : string),
    parseIniLines lines line group <> IniNoFuel.
Proof.
  induction lines as [| buffer rest IH]; intros line group;
    cbn [parseIniLines]; [ discriminate | ].
  assert (Hline : parseIniLine (line + 1) group buffer <> IniNoFuel).
  { unfold parseIniLine. cbv zeta.
    destruct (peek (eat_space buffer) =? 91).
    - destruct (eat_till _ 93) as [c r].
      destruct (c >=? 2 * MAX_ID_LENGTH); [ discriminate | ].
      destruct (c =? 0); discriminate.
    - destruct ((peek (eat_space buffer) =? 59)
                || (peek (eat_space buffer) =? 0)); [ discriminate | ].
      destruct (eat_till (eat_space buffer) 61) as [c r].
      destruct (_ >=? _); [ discriminate | ].
      destruct (negb (peek (eat_space r) =? 61)); [ discriminate | ].
      pose proof (valueLoop_fuel (line + 1) (group ++ passed (eat_space buffer) c)
                    (S (String.length (next (eat_space r))))
                    (next (eat_space r)) 0 []) as Hf.
      destruct (valueLoop _ _ _ _ _ _) as [[n out] | | ];
        [ discriminate | discriminate | ].
      exfalso. apply Hf; [ lia | reflexivity ]. }
  destruct (parseIniLine (line + 1) group buffer) as [[g out] | | ];
    [ | discriminate | now elim Hline ].
  specialize (IH (line + 1) g).
  destruct (parseIniLines rest (line + 1) g); [ discriminate | discriminate | exact IH ].
Qed.

(** ** More on the command line *)

(** An argument that [strcmp] or [strncmp] finds equal to a flag begins
    with the flag's dash. *)
Lemma strcmp_dash (flag opt : string) :
  strcmp (String "-" flag) opt = 0 -> beginsWithDash opt = true.
Proof.
  destruct opt as [| c r]; cbn [strcmp beginsWithDash].
  - intros H. vm_compute in H. discriminate H.
  - change (charCode "-") with 45.
    destruct (Z.eqb_spec 45 (charCode c)) as [He | Hne].
    + intros _. apply Z.eqb_eq. symmetry. exact He.
    + intros H. lia.
Qed.

Lemma strncmp_dash (flag opt : string) (n : nat) :
  strncmp (String "-" flag) opt (S n) = 0 -> beginsWithDash opt = true.
Proof.
  destruct opt as [| c r]; cbn [strncmp beginsWithDash].
  - intros H. vm_compute in H. discriminate H.
  - change (charCode "-") with 45.
    destruct (Z.eqb_spec 45 (charCode c)) as [He | Hne].
    + intros _. apply Z.eqb_eq. symmetry. exact He.
    + intros H. lia.
Qed.

Lemma strcmp_head2 (a c : ascii) (f opt : string) :
  charCode a <> 0 -> charCode c <> 0 ->
  strcmp (String a (String c f)) opt = 0 ->
  exists c1 c2 r,
    opt = String c1 (String c2 r)
    /\ charCode c1 = charCode a /\ charCode c2 = charCode c.
Proof.
  intros Ha Hc. destruct opt as [| c1 [| c2 r]]; cbn [strcmp].
  - intros H. lia.
  - destruct (Z.eqb_spec (charCode a) (charCode c1)); intros H; lia.
  - destruct (Z.eqb_spec (charCode a) (charCode c1)) as [H1 | H1];
      [ | intros H; lia ].
    destruct (Z.eqb_spec (charCode c) (charCode c2)) as [H2 | H2];
      [ | intros H; lia ].
    intros _. exists c1, c2, r. repeat split; congruence.
Qed.

(** No argument is both a verbosity flag and a no-ini flag. *)
Lemma flags_disjoint (opt : string) :
  strcmp "-v" opt = 0 \/ strcmp "-vv" opt = 0 ->
  strcmp "-i" opt = 0 \/ strcmp "--no-ini" opt = 0 -> False.
Proof.
  intros Hv Hi.
  assert (H1 : exists c1 c2 r, opt = String c1 (String c2 r)
                               /\ charCode c2 = 118).
  { destruct Hv as [Hv | Hv]; apply strcmp_head2 in Hv;
      try (vm_compute; discriminate);
      destruct Hv as (c1 & c2 & r & -> & _ & H); exists c1, c2, r;
      split; [ reflexivity | exact H | reflexivity | exact H ]. }
  destruct H1 as (c1 & c2 & r & -> & H118).
  destruct Hi as [Hi | Hi]; apply strcmp_head2 in Hi;
    try (vm_compute; discriminate);
    destruct Hi as (d1 & d2 & r' & Heq & _ & H);
    injection Heq as _ <- _; vm_compute in H; vm_compute in H118; congruence.
Qed.

(** What [parseArgs] has done when it returns. *)
Lemma parseArgs_parsed (args : list string) :
  forall o0 o : FSOptions,
    parseArgs args o0 = Parsed o ->
    Forall (fun a => beginsWithDash a = true) args
    /\ (no_ini o = true
        <-> no_ini o0 = true
            \/ Exists (fun a => strcmp "-i" a = 0 \/ strcmp "--no-ini" a = 0)
                 args)
    /\ (forall r, replay o = Some r ->
                  replay o0 = Some r \/ (In r args /\ strncmp "--" r 2 = 0))
    /\ (verbosity o = verbosity o0
        \/ verbosity o = FS_LOG_LEVEL_DEBUG
        \/ verbosity o = FS_LOG_LEVEL_INFO).
Proof.
  induction args as [| opt rest IH]; intros o0 o H; cbn [parseArgs] in H.
  - injection H as <-.
    split; [ constructor | ].
    split; [ split; [ intros Hn; left; exact Hn
                    | intros [Hn | Hex]; [ exact Hn | inversion Hex ] ] | ].
    split; [ intros r Hr; left; exact Hr | left; reflexivity ].
  - assert (Hskip : forall o1,
               parseArgs rest o1 = Parsed o ->
               no_ini o1 = no_ini o0 -> replay o1 = replay o0 ->
               (verbosity o1 = verbosity o0
                \/ verbosity o1 = FS_LOG_LEVEL_DEBUG
                \/ verbosity o1 = FS_LOG_LEVEL_INFO) ->
               beginsWithDash opt = true ->
               ~ (strcmp "-i" opt = 0 \/ strcmp "--no-ini" opt = 0) ->
               Forall (fun a => beginsWithDash a = true) (opt :: rest)
               /\ (no_ini o = true
                   <-> no_ini o0 = true
                       \/ Exists (fun a => strcmp "-i" a = 0
                                           \/ strcmp "--no-ini" a = 0)
                            (opt :: rest))
               /\ (forall r, replay o = Some r ->
                             replay o0 = Some r
                             \/ (In r (opt :: rest) /\ strncmp "--" r 2 = 0))
               /\ (verbosity o = verbosity o0
                   \/ verbosity o = FS_LOG_LEVEL_DEBUG
                   \/ verbosity o = FS_LOG_LEVEL_INFO)).
    { intros o1 Hp Hn Hr Hv Hdash Hnot.
      destruct (IH _ _ Hp) as (H1 & H2 & H3 & H4).
      split; [ constructor; assumption | ].
      split.
      - rewrite H2, Hn. split; intros [Hl | Hex]; try (left; exact Hl).
        + right. apply Exists_cons_tl. exact Hex.
        + inversion Hex as [? ? Hhd | ? ? Htl]; subst;
            [ contradiction | right; exact Htl ].
      - split.
        + intros r Hrep. destruct (H3 r Hrep) as [Hl | [Hin Hs]].
          * left. rewrite <- Hr. exact Hl.
          * right. split; [ right; exact Hin | exact Hs ].
        + destruct H4 as [H4 | H4]; [ rewrite H4; exact Hv | right; exact H4 ]. }
    destruct (Z.eqb_spec (strcmp "-v" opt) 0) as [Hv | Hv].
    { apply (Hskip _ H); try reflexivity.
      - right; right; reflexivity.
      - exact (strcmp_dash _ _ Hv).
      - intros Hi. apply (flags_disjoint opt); [ left; exact Hv | exact Hi ]. }
    destruct (Z.eqb_spec (strcmp "-vv" opt) 0) as [Hvv | Hvv].
    { apply (Hskip _ H); try reflexivity.
      - right; left; reflexivity.
      - exact (strcmp_dash _ _ Hvv).
      - intros Hi. apply (flags_disjoint opt); [ right; exact Hvv | exact Hi ]. }
    destruct (Z.eqb_spec (strcmp "-i" opt) 0) as [Hi | Hi];
      [ | destruct (Z.eqb_spec (strcmp "--no-ini" opt) 0) as [Hn | Hn] ];
      cbn [orb] in H.
    1,2: (destruct (IH _ _ H) as (H1 & H2 & H3 & H4);
          cbn [no_ini replay verbosity] in *;
          split; [ constructor; [ eapply strcmp_dash; eassumption | exact H1 ] | ];
          split; [ split; [ intros _; right; apply Exists_cons_hd; auto
                          | intros _; apply H2; left; reflexivity ] | ];
          split; [ | exact H4 ];
          intros r Hrep; destruct (H3 r Hrep) as [Hl | [Hin Hs]];
          [ left; exact Hl | right; split; [ right; exact Hin | exact Hs ] ]).
    destruct ((strcmp "-h" opt =? 0) || (strcmp "--help" opt =? 0));
      [ discriminate H | ].
    destruct (Z.eqb_spec (strncmp "-" opt 1) 0) as [Hd | Hd];
      [ | discriminate H ].
    destruct (Z.eqb_spec (strncmp "--" opt 2) 0) as [Hdd | Hdd];
      [ | discriminate H ].
    cbn [andb] in H.
    destruct (IH _ _ H) as (H1 & H2 & H3 & H4).
    cbn [no_ini replay verbosity] in *.
    split; [ constructor; [ exact (strncmp_dash _ _ _ Hd) | exact H1 ] | ].
    split.
    + rewrite H2. split; intros [Hl | Hex]; try (left; exact Hl).
      * right. apply Exists_cons_tl. exact Hex.
      * inversion Hex as [? ? Hhd | ? ? Htl]; subst;
          [ destruct Hhd; contradiction | right; exact Htl ].
    + split; [ | exact H4 ].
      intros r Hrep. destruct (H3 r Hrep) as [Hl | [Hin Hs]].
      * injection Hl as <-. right. split; [ left; reflexivity | exact Hdd ].
      * right. split; [ right; exact Hin | exact Hs ].
Qed.

(** X26.  What a parse that returns has seen.  Every argument began with
    a dash; [no_ini] is set exactly when one of them was [-i] or
    [--no-ini], wherever it stood; [verbosity] is one of the two levels
    the flags set (0 is also what [memset] leaves); and a replay file
    name, if one was stored, is one of the arguments and begins with two
    dashes. *)
Theorem fsParseOptString_parsed (argv : list string) (o : FSOptions) :
  fsParseOptString argv = Parsed o ->
  Forall (fun a => beginsWithDash a = true) (tl argv)
  /\ (no_ini o = true
      <-> Exists (fun a => strcmp "-i" a = 0 \/ strcmp "--no-ini" a = 0)
            (tl argv))
  /\ (forall r, replay o = Some r ->
                In r (tl argv) /\ strncmp "--" r 2 = 0)
  /\ (verbosity o = FS_LOG_LEVEL_DEBUG \/ verbosity o = FS_LOG_LEVEL_INFO).
Proof.
  unfold fsParseOptString. intros H.
  destruct (parseArgs_parsed _ _ _ H) as (H1 & H2 & H3 & H4).
  cbn [no_ini replay verbosity] in *.
  split; [ exact H1 | ].
  split.
  - rewrite H2. split; [ intros [Hl | Hex]; [ discriminate Hl | exact Hex ]
                       | intros Hex; right; exact Hex ].
  - split.
    + intros r Hr. destruct (H3 r Hr) as [Hl | Hin];
        [ discriminate Hl | exact Hin ].
    + destruct H4 as [-> | H4]; [ left; reflexivity | exact H4 ].
Qed.

Lemma parseArgs_app (pre post : list string) :
  forall o : FSOptions,
    parseArgs (pre ++ post) o
    = match parseArgs pre o with
      | Parsed o' => parseArgs post o'
      | e => e
      end.
Proof.
  induction pre as [| opt rest IH]; intros o; cbn [app parseArgs];
    [ reflexivity | ].
  destruct (strcmp "-v" opt =? 0); [ apply IH | ].
  destruct (strcmp "-vv" opt =? 0); [ apply IH | ].
  destruct ((strcmp "-i" opt =? 0) || (strcmp "--no-ini" opt =? 0));
    [ apply IH | ].
  destruct ((strcmp "-h" opt =? 0) || (strcmp "--help" opt =? 0));
    [ reflexivity | ].
  destruct ((strncmp "-" opt 1 =? 0) && (strncmp "--" opt 2 =? 0));
    [ apply IH | reflexivity ].
Qed.

(** X27.  [-h] and [--help] end the parse where they stand: the usage is
    printed and the process exits with code 0 without a look at the
    arguments that follow, unless an argument before them has ended the
    parse already. *)
Theorem fsParseOptString_help (prog h : string) (pre post : list string) :
  h = "-h"%string \/ h = "--help"%string ->
  fsParseOptString (prog :: pre ++ h :: post)
  = match fsParseOptString (prog :: pre) with
    | Parsed _ => Exited 0 PrintUsage
    | e => e
    end.
Proof.
  intros Hh. unfold fsParseOptString. cbn [tl]. rewrite parseArgs_app.
  destruct (parseArgs pre _) as [o | code out]; [ | reflexivity ].
  destruct Hh as [-> | ->]; reflexivity.
Qed.

(** ** The VGA text cells *)

Lemma low_bits_only (lo k n : Z) :
  0 <= lo < 2 ^ k -> 0 <= k <= n -> Z.testbit lo n = false.
Proof.
  intros Hlo Hk. rewrite <- (Z.mod_small lo (2 ^ k)) by exact Hlo.
  apply Z.mod_pow2_bits_high. exact Hk.
Qed.

(** Bits that do not overlap add up. *)
Lemma lor_disjoint_add (lo hi k : Z) :
  0 <= k -> 0 <= lo < 2 ^ k ->
  Z.lor lo (Z.shiftl hi k) = lo + hi * 2 ^ k.
Proof.
  intros Hk Hlo.
  assert (Hand : Z.land lo (Z.shiftl hi k) = 0).
  { apply Z.bits_inj'. intros n Hn. rewrite Z.land_spec, Z.bits_0.
    destruct (Z.lt_ge_cases n k) as [Hlt | Hge].
    - rewrite Z.shiftl_spec_low by exact Hlt. apply andb_false_r.
    - rewrite (low_bits_only lo k n Hlo) by lia. reflexivity. }
  rewrite <- Z.lxor_lor by exact Hand.
  rewrite <- Z.add_nocarry_lxor by exact Hand.
  rewrite Z.shiftl_mul_pow2 by exact Hk. reflexivity.
Qed.

(** X28.  For the sixteen colours of [enum vga_color], [vga_entry_color]
    packs the foreground into the low and the background into the high
    four bits of a byte, and both can be read back. *)
Theorem vga_entry_color_packs (fg bg : Z) :
  0 <= fg < 16 -> 0 <= bg < 16 ->
  vga_entry_color fg bg = fg + 16 * bg
  /\ 0 <= vga_entry_color fg bg < 256
  /\ Z.land (vga_entry_color fg bg) 15 = fg
  /\ Z.shiftr (vga_entry_color fg bg) 4 = bg.
Proof.
  intros Hfg Hbg.
  assert (H : vga_entry_color fg bg = fg + 16 * bg).
  { unfold vga_entry_color.
    rewrite (lor_disjoint_add fg bg 4) by (cbn; lia).
    change (2 ^ 4) with 16. change (2 ^ 8) with 256.
    rewrite Z.mod_small by lia. lia. }
  rewrite H.
  split; [ reflexivity | split; [ lia | split ] ].
  - change 15 with (Z.ones 4). rewrite Z.land_ones by lia.
    change (2 ^ 4) with 16.
    replace (fg + 16 * bg) with (fg + bg * 16) by lia.
    rewrite Z.mod_add by lia. apply Z.mod_small. lia.
  - rewrite Z.shiftr_div_pow2 by lia. change (2 ^ 4) with 16.
    replace (fg + 16 * bg) with (fg + bg * 16) by lia.
    rewrite Z.div_add by lia. rewrite (Z.div_small fg 16) by lia. lia.
Qed.

(** X29.  [vga_entry] puts a character that is not negative into the low
    byte of the cell and the colour into the high byte, and both can be
    read back.  A negative character, as [char] has them above 127 where
    it is signed, is sign-extended by the conversion to [uint16_t] and
    fills the high byte with ones, whatever the colour. *)
Theorem vga_entry_packs (uc color : Z) :
  0 <= color < 256 ->
  (0 <= uc < 256 ->
   vga_entry uc color = uc + 256 * color
   /\ Z.land (vga_entry uc color) 255 = uc
   /\ Z.shiftr (vga_entry uc color) 8 = color)
  /\ (-128 <= uc < 0 -> Z.shiftr (vga_entry uc color) 8 = 255).
Proof.
  intros Hc.
  assert (Hs : Z.shiftl color 8 mod 2 ^ 16 = Z.shiftl color 8).
  { apply Z.mod_small. rewrite Z.shiftl_mul_pow2 by lia.
    change (2 ^ 8) with 256. change (2 ^ 16) with 65536. lia. }
  split.
  - intros Hu.
    assert (H : vga_entry uc color = uc + 256 * color).
    { unfold vga_entry. rewrite Hs.
      rewrite (Z.mod_small uc) by (change (2 ^ 16) with 65536; lia).
      rewrite (lor_disjoint_add uc color 8) by (cbn; lia).
      change (2 ^ 8) with 256. change (2 ^ 16) with 65536.
      rewrite Z.mod_small by lia. lia. }
    rewrite H. split; [ reflexivity | split ].
    + change 255 with (Z.ones 8). rewrite Z.land_ones by lia.
      change (2 ^ 8) with 256.
      replace (uc + 256 * color) with (uc + color * 256) by lia.
      rewrite Z.mod_add by lia. apply Z.mod_small. lia.
    + rewrite Z.shiftr_div_pow2 by lia. change (2 ^ 8) with 256.
      replace (uc + 256 * color) with (uc + color * 256) by lia.
      rewrite Z.div_add by lia. rewrite (Z.div_small uc 256) by lia. lia.
  - intros Hu. unfold vga_entry. rewrite Hs.
    assert (Hm : uc mod 2 ^ 16 = Z.lor (uc + 256) (Z.shiftl 255 8)).
    { rewrite (lor_disjoint_add (uc + 256) 255 8) by (cbn; lia).
      change (2 ^ 8) with 256. change (2 ^ 16) with 65536.
      symmetry. apply Z.mod_unique with (-1); lia. }
    rewrite Hm, <- Z.lor_assoc, <- Z.shiftl_lor.
    assert (H255 : Z.lor 255 color = 255).
    { apply Z.bits_inj'. intros n Hn. rewrite Z.lor_spec.
      destruct (Z.lt_ge_cases n 8) as [Hlt | Hge].
      - change 255 with (Z.ones 8). rewrite Z.ones_spec_low by lia.
        reflexivity.
      - rewrite (low_bits_only color 8 n) by (cbn; lia).
        apply orb_false_r. }
    rewrite H255.
    rewrite (lor_disjoint_add (uc + 256) 255 8) by (cbn; lia).
    change (2 ^ 8) with 256. change (2 ^ 16) with 65536.
    rewrite Z.mod_small by lia.
    rewrite Z.shiftr_div_pow2 by lia. change (2 ^ 8) with 256.
    rewrite Z.div_add by lia. rewrite (Z.div_small (uc + 256)) by lia.
    reflexivity.
Qed.

(** ** The properties of the option parser on concrete inputs *)

(** The example documented in [option.c] gives the four pairs that its
    comment lists. *)
Lemma fsParseIniFile_documented :
  fsParseIniFile (Some documentedIni)
  = IniOk [Unpack "meta.key" "value";
           Unpack "meta.multi_valued_key" "item1";
           Unpack "meta.multi_valued_key" "item2";
           Unpack "meta.multi_valued_key" "item3"].
Proof. vm_compute. reflexivity. Qed.

Lemma strcmpi_zero_iff_witness :
  (strcmpi "ArikaSRS" "arikasrs" = 0
   <-> map tolower (codes "ArikaSRS") = map tolower (codes "arikasrs"))
  /\ strcmpi "arikasrs" "ArikaSRS" = - strcmpi "ArikaSRS" "arikasrs".
Proof.
  apply (strcmpi_zero_iff "ArikaSRS" "arikasrs"); vm_compute; reflexivity.
Defined.

Lemma lookups_ignore_case_witness :
  @fsRandomizerLookup scenario_enums "TGM1"
  = @fsRandomizerLookup scenario_enums "tgm1"
  /\ @fsRotationSystemLookup scenario_enums "TGM1"
     = @fsRotationSystemLookup scenario_enums "tgm1"
  /\ @fsLockStyleLookup scenario_enums "TGM1"
     = @fsLockStyleLookup scenario_enums "tgm1"
  /\ @fsInitialActionStyleLookup scenario_enums "TGM1"
     = @fsInitialActionStyleLookup scenario_enums "tgm1".
Proof.
  apply (@lookups_ignore_case scenario_enums "TGM1" "tgm1");
    vm_compute; reflexivity.
Defined.

Lemma fsInitialActionStyleLookup_trigger_witness :
  @fsInitialActionStyleLookup scenario_enums "Trigger"
  = (-1, ["initialActionStyle = trigger is not implemented!"%string]).
Proof.
  apply (@fsInitialActionStyleLookup_trigger scenario_enums "Trigger");
    [ vm_compute; reflexivity | left; vm_compute; reflexivity ].
Defined.



Lemma fsParseOptString_parsed_witness :
  fsParseOptString ["faststack"; "-i"; "--replay.txt"; "-v"]%string
  = Parsed (mkFSOptions 1 true (Some "--replay.txt"%string))
  /\ Forall (fun a => beginsWithDash a = true)
       ["-i"; "--replay.txt"; "-v"]%string
  /\ In "--replay.txt"%string ["-i"; "--replay.txt"; "-v"]%string
  /\ strncmp "--" "--replay.txt" 2 = 0.
Proof.
  assert (H : fsParseOptString
                ["faststack"; "-i"; "--replay.txt"; "-v"]%string
              = Parsed (mkFSOptions 1 true (Some "--replay.txt"%string)))
    by (vm_compute; reflexivity).
  destruct (fsParseOptString_parsed _ _ H) as (Hd & _ & Hr & _).
  exact (conj H (conj Hd (Hr _ eq_refl))).
Defined.

Lemma fsParseOptString_help_witness :
  fsParseOptString ["faststack"; "-v"; "--help"; "--replay.txt"]%string
  = Exited 0 PrintUsage.
Proof.
  exact (fsParseOptString_help "faststack" "--help" ["-v"%string]
           ["--replay.txt"%string] (or_intror eq_refl)).
Defined.

(** ** The properties of the VGA cells on concrete inputs *)

Lemma vga_entry_color_packs_witness :
  vga_entry_color 15 1 = 31
  /\ 0 <= vga_entry_color 15 1 < 256
  /\ Z.land (vga_entry_color 15 1) 15 = 15
  /\ Z.shiftr (vga_entry_color 15 1) 4 = 1.
Proof. apply (vga_entry_color_packs 15 1); lia. Defined.

Lemma vga_entry_packs_witness :
  (vga_entry 65 31 = 65 + 256 * 31
   /\ Z.land (vga_entry 65 31) 255 = 65
   /\ Z.shiftr (vga_entry 65 31) 8 = 31)
  /\ Z.shiftr (vga_entry (-1) 31) 8 = 255.
Proof.
  destruct (vga_entry_packs 65 31) as [Hp _]; [ lia | ].
  destruct (vga_entry_packs (-1) 31) as [_ Hn]; [ lia | ].
  split; [ apply Hp | apply Hn ]; lia.
Defined.
